(** * Image handler: request resolution and edit pipeline

    A shallow embedding of [source/image-handler/image-handler.ts]
    (class [ImageHandler]) and of the bucket resolution of the request
    resolver, with the properties of the specification stated over it.

    Conventions of the embedding.
    - A JavaScript [number] is a rational ([Q]); where the code floors or
      rounds the result is an integer ([Z]).  [NaN] only arises in
      [parseInt] and is [None] there; the infinities are not modelled.
      Where the outcome of the code depends on the rounding of its binary64
      arithmetic (the ratio of a resize, the alpha of an overlay mask, a
      number rendered as a string) the operators are the rounded ones of
      [JsNumber]; elsewhere the arithmetic is exact, and exact values are
      stated for magnitudes at which both agree.
    - A [sharp] object is a lazy pipeline: the constructor input and options
      plus the list of operations recorded so far.  Running the pipeline
      ([metadata], [toBuffer]) belongs to the image engine and is a class
      method of [ImageEngine].  The argument check of the constructor itself
      (an empty buffer, an invalid option) is not modelled: the object is
      always created, and a bad input shows at the first call that runs the
      pipeline.
    - A thrown exception is the [Throw] case of [Result]; [await] is
      sequencing in that monad.
    - The edits object is an association list in property enumeration
      order (insertion order for the edit names). *)

From Stdlib Require Import List String Ascii Bool ZArith QArith Qround Qabs Lia Lqa.
From Stdlib Require Import DecimalString DecimalPos.
Import ListNotations.
Open Scope string_scope.
Open Scope Z_scope.

(** ** Exceptions *)

Module Errors.

(** [StatusCodes] of [./lib], the members the handler uses. *)
Inductive StatusCodes : Type :=
| BAD_REQUEST
| FORBIDDEN
| NOT_FOUND
| INTERNAL_SERVER_ERROR.

(** [new ImageHandlerError(status, code, message)]. *)
Record ImageHandlerError : Type := mkImageHandlerError {
  status : StatusCodes;
  code : string;
  ihe_message : string
}.

(** Any other [Error]: only its [message] is inspected. *)
Record JsError : Type := mkJsError { message : string }.

(** What a [throw] carries; [error instanceof ImageHandlerError] is the
    [Domain] case. *)
Inductive Thrown : Type :=
| Domain (e : ImageHandlerError)
| Other (e : JsError).

Inductive Result (A : Type) : Type :=
| Ok (a : A)
| Throw (t : Thrown).

Arguments Ok {A} a.
Arguments Throw {A} t.

Definition bind {A B : Type} (c : Result A) (k : A -> Result B) : Result B :=
  match c with
  | Ok a => k a
  | Throw t => Throw t
  end.

(** [try { body } catch (error) { handler(error) }]. *)
Definition try_catch {A : Type} (body : Result A) (handler : Thrown -> Result A)
  : Result A :=
  match body with
  | Ok a => Ok a
  | Throw t => handler t
  end.

End Errors.
Export Errors.

Declare Scope result_scope.
Delimit Scope result_scope with result.
Notation "x <- c ;; k" := (bind c (fun x => k))
  (at level 61, c at next level, right associativity) : result_scope.
Notation "' pat <- c ;; k" := (bind c (fun x => match x with pat => k end))
  (at level 61, pat pattern, c at next level, right associativity) : result_scope.
Open Scope result_scope.

(** ** JavaScript string primitives *)

Module JsString.

(** [s.startsWith(p)]. *)
Fixpoint startsWith (s p : string) {struct p} : bool :=
  match p, s with
  | EmptyString, _ => true
  | String c p', String d s' => Ascii.eqb c d && startsWith s' p'
  | String _ _, EmptyString => false
  end.

(** [s.includes(p)]. *)
Fixpoint includes (s p : string) : bool :=
  startsWith s p ||
  match s with
  | EmptyString => false
  | String _ s' => includes s' p
  end.

(** [s.endsWith(p)]. *)
Fixpoint endsWith (s p : string) : bool :=
  String.eqb s p ||
  match s with
  | EmptyString => false
  | String _ s' => endsWith s' p
  end.

(** [s.slice(n)] for [0 <= n]. *)
Fixpoint drop (n : nat) (s : string) : string :=
  match n, s with
  | O, _ => s
  | S n', String _ s' => drop n' s'
  | S _, EmptyString => EmptyString
  end.

(** [s.replace(p, r)] with a string pattern: the first occurrence only. *)
Fixpoint replace (s p r : string) : string :=
  if startsWith s p then r ++ drop (String.length p) s
  else match s with
       | EmptyString => EmptyString
       | String c s' => String c (replace s' p r)
       end.

(** [s.split(sep)] for a one-character separator. *)
Fixpoint split (sep : ascii) (s : string) : list string :=
  match s with
  | EmptyString => [EmptyString]
  | String c s' =>
      if Ascii.eqb c sep then EmptyString :: split sep s'
      else match split sep s' with
           | [] => [String c EmptyString]
           | w :: ws => String c w :: ws
           end
  end.

End JsString.

(** ** [parseInt] and number-to-string conversion *)

Module JsNumber.

Import JsString.

(** White space skipped by [parseInt] (the ASCII members). *)
Definition isWhiteSpace (c : ascii) : bool :=
  let n := nat_of_ascii c in
  ((9 <=? n) && (n <=? 13))%nat || (n =? 32)%nat.

Fixpoint trimStart (s : string) : string :=
  match s with
  | String c s' => if isWhiteSpace c then trimStart s' else s
  | EmptyString => EmptyString
  end.

(** The value of [c] as a digit of the given radix, if it is one. *)
Definition digitValue (radix : Z) (c : ascii) : option Z :=
  let n := Z.of_nat (nat_of_ascii c) in
  let v := if (48 <=? n) && (n <=? 57) then Some (n - 48)
           else if (97 <=? n) && (n <=? 122) then Some (n - 87)
           else if (65 <=? n) && (n <=? 90) then Some (n - 55)
           else None in
  match v with
  | Some d => if d <? radix then Some d else None
  | None => None
  end.

(** The longest prefix of digits, most significant first; [None] when the
    prefix is empty. *)
Fixpoint parseDigits (radix : Z) (acc : option Z) (s : string) : option Z :=
  match s with
  | EmptyString => acc
  | String c s' =>
      match digitValue radix c with
      | Some d =>
          parseDigits radix
            (Some (match acc with Some a => a * radix + d | None => d end)) s'
      | None => acc
      end
  end.

(** [parseInt(s)] without a radix: leading white space, an optional sign,
    an optional [0x] prefix selecting radix 16, then digits.  [None] is
    [NaN]. *)
Definition parseInt (s : string) : option Z :=
  let s1 := trimStart s in
  let '(sign, s2) :=
    match s1 with
    | String "-"%char r => (-1, r)
    | String "+"%char r => (1, r)
    | _ => (1, s1)
    end in
  let '(radix, s3) :=
    if startsWith s2 "0x" || startsWith s2 "0X" then (16, drop 2 s2)
    else (10, s2) in
  match parseDigits radix None s3 with
  | Some n => Some (sign * n)
  | None => None
  end.

(** The decimal numeral of an integer. *)
Definition toString (n : Z) : string :=
  NilEmpty.string_of_int (Z.to_int n).

(** [Math.round]: the nearest integer, halves towards plus infinity. *)
Definition round (x : Q) : Z := Qfloor (x + (1 # 2)).

Definition Qltb (x y : Q) : bool := negb (Qle_bool y x).

(** [b ^ e] for an exponent of either sign. *)
Definition power (b e : Z) : Q :=
  if 0 <=? e then inject_Z (b ^ e) else 1 # Z.to_pos (b ^ (- e)).

(** The exponent [e] with [2 ^ e <= x < 2 ^ (e + 1)], for [0 < x]. *)
Definition binaryExponent (x : Q) : Z :=
  let e := Z.log2 (Qnum x) - Z.log2 (Z.pos (Qden x)) in
  if Qle_bool (power 2 e) x then e else e - 1.

(** The nearest integer, a tie going to the even one. *)
Definition roundHalfEven (x : Q) : Z :=
  let f := Qfloor x in
  match (x - inject_Z f ?= 1 # 2)%Q with
  | Lt => f
  | Gt => f + 1
  | Eq => if Z.even f then f else f + 1
  end.

(** The number nearest to a rational: the IEEE 754 binary64 value with 53
    significant bits and an exponent of at least -1074 (the subnormal
    numbers included), a tie going to the even significand.  A number is
    left as it is.  The result is a reduced fraction. *)
Definition fl (x : Q) : Q :=
  let x := Qred x in
  if Qeq_bool x 0 then 0%Q
  else
    let e := Z.max (binaryExponent (Qabs x) - 52) (-1074) in
    let m := roundHalfEven (Qabs x / power 2 e) in
    Qred (if Qltb x 0 then - (inject_Z m * power 2 e) else inject_Z m * power 2 e).

(** [x * y], [x / y] and [x - y] on numbers: the exact result, rounded.
    The operands are read as numbers first, so that a decimal of a request
    such as 0.145 stands for the number nearest to it. *)
Definition multiply (x y : Q) : Q := fl (fl x * fl y).

Definition divide (x y : Q) : Q := fl (fl x / fl y).

Definition subtract (x y : Q) : Q := fl (fl x - fl y).

(** The position of the first significant decimal digit of [0 < x]: the
    [n] with [10 ^ (n - 1) <= x < 10 ^ n]. *)
Fixpoint leadingZeros (fuel : nat) (x : Q) : Z :=
  match fuel with
  | O => 0
  | S fuel' =>
      if Qle_bool 1 (x * 10) then 0 else 1 + leadingZeros fuel' (x * 10)
  end.

Definition decimalExponent (x : Q) : Z :=
  if Qle_bool 1 x then Z.of_nat (String.length (toString (Qfloor x)))
  else - leadingZeros 330 x.

(** The digits of [Number::toString]: the integer [s] of [k] digits, [k] as
    small as possible, and the [n] for which [s * 10 ^ (n - k)] reads back
    as the number [x]; of two such [s] the one nearer to [x], the even one
    at equal distance.  Seventeen digits always suffice. *)
Fixpoint shortest (fuel : nat) (k : Z) (x : Q) (n : Z) : Z * Z :=
  let scale := power 10 (n - k) in
  let lo := Qfloor (x / scale) in
  let hi := lo + 1 in
  let pick s := if s =? 10 ^ k then (10 ^ (k - 1), n + 1) else (s, n) in
  match fuel with
  | O => pick lo
  | S fuel' =>
      match Qeq_bool (fl (inject_Z lo * scale)) x,
            Qeq_bool (fl (inject_Z hi * scale)) x with
      | true, true =>
          match (x - inject_Z lo * scale ?= inject_Z hi * scale - x)%Q with
          | Lt => pick lo
          | Gt => pick hi
          | Eq => pick (if Z.even lo then lo else hi)
          end
      | true, false => pick lo
      | false, true => pick hi
      | false, false => shortest fuel' (k + 1) x n
      end
  end.

Fixpoint zeros (n : nat) : string :=
  match n with
  | O => EmptyString
  | S n' => String "0" (zeros n')
  end.

(** The four layouts of [Number::toString] for the digits [s] and the
    position [n]: an integer, a decimal point inside the digits, a decimal
    point before them, and the exponent notation (from [1e21] upwards and
    below [1e-6]). *)
Definition render (s n : Z) : string :=
  let digits := toString s in
  let k := Z.of_nat (String.length digits) in
  if (k <=? n) && (n <=? 21) then digits ++ zeros (Z.to_nat (n - k))
  else if (0 <? n) && (n <=? 21) then
    substring 0 (Z.to_nat n) digits ++ "."
    ++ substring (Z.to_nat n) (Z.to_nat (k - n)) digits
  else if (-6 <? n) && (n <=? 0) then "0." ++ zeros (Z.to_nat (- n)) ++ digits
  else
    let exponent := (if n - 1 <? 0 then "-" else "+") ++ toString (Z.abs (n - 1)) in
    if k =? 1 then digits ++ "e" ++ exponent
    else substring 0 1 digits ++ "." ++ substring 1 (Z.to_nat (k - 1)) digits
         ++ "e" ++ exponent.

(** [`${x}`] for a number [x]: [Number::toString]. *)
Definition numberToString (x : Q) : string :=
  let x := fl x in
  if Qeq_bool x 0 then "0"
  else
    let '(s, n) := shortest 17 1 (Qabs x) (decimalExponent (Qabs x)) in
    (if Qltb x 0 then "-" else "") ++ render s n.

End JsNumber.

(** ** Data model ([./lib] types and the [sharp] interface) *)

Definition Buffer : Type := list Byte.byte.

Inductive ImageFitTypes : Type := COVER | CONTAIN | FILL | INSIDE | OUTSIDE.

(** [ImageFormatTypes] of [./lib]: the nine members the handler converts,
    and any other member under its string value. *)
Inductive ImageFormatTypes : Type :=
| JPG | JPEG | PNG | WEBP | TIFF | HEIF | RAW | GIF | AVIF
| OtherFormat (name : string).

(** [ContentTypes] of [./lib]; only [GIF] is tested by the handler. *)
Module ContentTypes.
Inductive t : Type := PNG | JPEG | WEBP | TIFF | GIF | SVG | AVIF.
Definition is_gif (c : option t) : bool :=
  match c with Some GIF => true | _ => false end.
End ContentTypes.

(** [ResizeOptions]: the fields the handler reads or writes. *)
Record ResizeOptions : Type := mkResize {
  width : option Q;
  height : option Q;
  fit : option ImageFitTypes;
  ratio : option Q
}.

(** A region in pixels: the [crop] edit and the argument of [extract]. *)
Record CropArea : Type := mkCropArea {
  ca_left : Z;
  ca_top : Z;
  ca_width : Z;
  ca_height : Z
}.

(** [BoundingBox] holding fractions of the image dimensions. *)
Record BoundingBox : Type := mkBoundingBox {
  bb_left : Q;
  bb_top : Q;
  bb_width : Q;
  bb_height : Q
}.

(** [BoxSize]: the pixel dimensions of [sharp.OutputInfo]. *)
Record BoxSize : Type := mkBoxSize {
  bs_width : Z;
  bs_height : Z;
  bs_format : option string
}.

(** [sharp.Metadata]. *)
Record Metadata : Type := mkMetadata {
  md_width : Z;
  md_height : Z;
  md_format : option string;
  md_pages : option Z;
  md_orientation : option Z
}.

(** An overlay position: [string | number]. *)
Inductive EditSize : Type :=
| SizeNumber (n : Q)
| SizeString (s : string).

(** [overlayWith.options]. *)
Record PlacementOptions : Type := mkPlacement {
  opt_left : option EditSize;
  opt_top : option EditSize
}.

Record OverlayWith : Type := mkOverlayWith {
  ow_bucket : string;
  ow_key : string;
  wRatio : string;
  hRatio : string;
  alpha : string;
  ow_options : option PlacementOptions
}.

Record SmartCropOptions : Type := mkSmartCrop {
  faceIndex : option Z;
  padding : option Q
}.

Record RoundCropOptions : Type := mkRoundCrop {
  rc_top : option Q;
  rc_left : option Q;
  rc_rx : option Q;
  rc_ry : option Q
}.

Record ContentModerationOptions : Type := mkModeration {
  minConfidence : option Q;
  blur : option Q;
  moderationLabels : option (list string)
}.

(** An edit that is [boolean | object]. *)
Inductive Toggle (A : Type) : Type :=
| Flag (b : bool)
| Params (a : A).
Arguments Flag {A} b.
Arguments Params {A} a.

(** The three states of [edits.rotate] when the key is present. *)
Inductive RotateArg : Type :=
| RotateUndefined
| RotateNull
| RotateDegrees (n : Q).

(** The single argument of an allow-listed filter. *)
Inductive FilterArg : Type :=
| ArgUndefined
| ArgNull
| ArgBool (b : bool)
| ArgNumber (n : Q)
| ArgString (s : string).

(** One entry of [ImageEdits]: the key and its typed value.  [EFilter] is an
    entry under any key other than the eight named ones. *)
Inductive Edit : Type :=
| EResize (r : ResizeOptions)
| ECrop (c : CropArea)
| EOverlayWith (o : OverlayWith)
| ESmartCrop (v : Toggle SmartCropOptions)
| ERoundCrop (v : Toggle RoundCropOptions)
| EContentModeration (v : Toggle ContentModerationOptions)
| ERotate (r : RotateArg)
| EAnimated (b : bool)
| EFilter (name : string) (arg : FilterArg).

Definition ImageEdits : Type := list Edit.

(** The property name under which an entry is stored. *)
Definition edit_key (e : Edit) : string :=
  match e with
  | EResize _ => "resize"
  | ECrop _ => "crop"
  | EOverlayWith _ => "overlayWith"
  | ESmartCrop _ => "smartCrop"
  | ERoundCrop _ => "roundCrop"
  | EContentModeration _ => "contentModeration"
  | ERotate _ => "rotate"
  | EAnimated _ => "animated"
  | EFilter name _ => name
  end.

(** ** The [sharp] pipeline object *)

(** [limitInputPixels: number | boolean], computed from the environment. *)
Inductive PixelLimit : Type :=
| LimitFlag (b : bool)
| LimitCount (n : Q).

(** The options object that [process] passes to the [sharp] constructor. *)
Record SharpOptions : Type := mkSharpOptions {
  failOnError : bool;
  animated : bool;
  limitInputPixels : PixelLimit
}.

(** The [input] of a composite layer.  The SVG text of the round-crop mask
    is kept as the numbers interpolated into it. *)
Inductive CompositeInput : Type :=
| InputBuffer (b : Buffer)
| InputEllipse (viewWidth viewHeight : Z) (cx cy rx ry : Q).

Record RawInfo : Type := mkRawInfo {
  raw_width : Z;
  raw_height : Z;
  raw_channels : Z
}.

(** [sharp.OverlayOptions].  [ov_left] and [ov_top] hold what the spread of
    the request options left there unless the handler overwrote them. *)
Record OverlayOptions : Type := mkOverlay {
  ov_input : CompositeInput;
  ov_left : option EditSize;
  ov_top : option EditSize;
  ov_blend : option string;
  ov_tile : bool;
  ov_raw : option RawInfo
}.

(** A recorded method call on a [sharp] object. *)
Inductive Op : Type :=
| OpWithMetadata
| OpResize (r : ResizeOptions)
| OpExtract (a : CropArea)
| OpComposite (layers : list OverlayOptions)
| OpRotate (angle : Q)
| OpAutoOrient
| OpBlur (sigma : Z)
| OpToFormat (format : option string)
| OpWebp (effort : Q)
| OpPng
| OpTrim
| OpFilter (name : string) (arg : FilterArg).

Record Sharp : Type := mkSharp {
  source : Buffer;
  options : option SharpOptions;
  ops : list Op
}.

(** [sharp(input, options)].  The object is always created: the argument
    check of the constructor is not modelled. *)
Definition sharp (input : Buffer) (opts : option SharpOptions) : Sharp :=
  mkSharp input opts [].

(** A method without arguments: it records itself and returns [this]. *)
Definition record (img : Sharp) (op : Op) : Sharp :=
  mkSharp (source img) (options img) (ops img ++ [op]).

(** ** Collaborators *)

(** The image engine: synchronous argument validation of a method call
    (the message of the error it throws, if any), and the two calls that
    run the pipeline. *)
Class ImageEngine : Type := {
  rejects : Sharp -> Op -> option string;
  metadata : Sharp -> Result Metadata;
  toBuffer : Sharp -> Result (Buffer * BoxSize)
}.

(** [GetObjectCommandOutput.Body]: a buffer, or a stream still to be read. *)
Inductive S3Body : Type :=
| BodyBuffer (b : Buffer)
| BodyStream (transformToByteArray : Result Buffer).

Class S3Client : Type := {
  getObject : string -> string -> Result S3Body
}.

(** Rekognition: the bounding boxes of [FaceDetails], and the names of the
    [ModerationLabels] found at a minimum confidence. *)
Class RekognitionClient : Type := {
  detectFaces : Buffer -> Result (list BoundingBox);
  detectModerationLabels : Buffer -> Q -> Result (list string)
}.

(** Configuration read by the handler: [getAllowedSourceBuckets()] of
    [./image-request], [SHARP_EDIT_ALLOWLIST_ARRAY] of [./lib/constants] and
    the pixel limit derived from [process.env.SHARP_SIZE_LIMIT]. *)
Class Configuration : Type := {
  getAllowedSourceBuckets : Result (list string);
  SHARP_EDIT_ALLOWLIST_ARRAY : list string;
  SHARP_SIZE_LIMIT : PixelLimit
}.

(** A method with arguments: the engine may reject them by throwing. *)
Definition call `{ImageEngine} (img : Sharp) (op : Op) : Result Sharp :=
  match rejects img op with
  | Some msg => Throw (Other (mkJsError msg))
  | None => Ok (record img op)
  end.

(** [ImageRequestInfo], the fields [process] reads. *)
Record ImageRequestInfo : Type := mkRequest {
  originalImage : Buffer;
  edits : option ImageEdits;
  outputFormat : option ImageFormatTypes;
  effort : option Q;
  contentType : option ContentTypes.t
}.

(** [ErrorMapping.message]: [string | ((err: Error) => string)]. *)
Inductive MappingMessage : Type :=
| MessageText (s : string)
| MessageOf (f : JsError -> string).

Record ErrorMapping : Type := mkErrorMapping {
  pattern : string;
  statusCode : StatusCodes;
  errorType : string;
  mapping_message : MappingMessage
}.

(** ** The handler *)

Module ImageHandler.

Import JsString JsNumber.

(** The error a matching mapping builds. *)
Definition mappedError (mapping : ErrorMapping) (error : JsError) : ImageHandlerError :=
  mkImageHandlerError (statusCode mapping) (errorType mapping)
    (match mapping_message mapping with
     | MessageOf f => f error
     | MessageText s => s
     end).

(** The [for (const mapping of errorMappings)] loop of [handleError] and the
    default after it. *)
Fixpoint throwMapped {A : Type} (error : JsError) (defaultError : Thrown)
  (errorMappings : list ErrorMapping) : Result A :=
  match errorMappings with
  | [] => Throw defaultError
  | mapping :: rest =>
      if includes (message error) (pattern mapping)
      then Throw (Domain (mappedError mapping error))
      else throwMapped error defaultError rest
  end.

(** [handleError(error, defaultError, errorMappings = []) : never]. *)
Definition handleError {A : Type} (error : Thrown) (defaultError : Thrown)
  (errorMappings : list ErrorMapping) : Result A :=
  match error with
  | Domain _ => Throw error
  | Other e => throwMapped e defaultError errorMappings
  end.

(** [edits.resize], [edits.rotate], [edits.animated]: [None] is [undefined]
    because the key is absent. *)
Fixpoint lookup_resize (edits : ImageEdits) : option ResizeOptions :=
  match edits with
  | [] => None
  | EResize r :: _ => Some r
  | _ :: rest => lookup_resize rest
  end.

Fixpoint lookup_rotate (edits : ImageEdits) : option RotateArg :=
  match edits with
  | [] => None
  | ERotate r :: _ => Some r
  | _ :: rest => lookup_rotate rest
  end.

Fixpoint lookup_animated (edits : ImageEdits) : option bool :=
  match edits with
  | [] => None
  | EAnimated b :: _ => Some b
  | _ :: rest => lookup_animated rest
  end.

(** [edits.resize = r]: in place when the key exists, appended otherwise. *)
Fixpoint set_resize (edits : ImageEdits) (r : ResizeOptions) : ImageEdits :=
  match edits with
  | [] => [EResize r]
  | EResize _ :: rest => EResize r :: rest
  | e :: rest => e :: set_resize rest r
  end.

(** [edits && edits.rotate !== undefined && edits.rotate === null]. *)
Definition rotateIsNull (edits : option ImageEdits) : bool :=
  match edits with
  | Some es =>
      match lookup_rotate es with
      | Some RotateNull => true
      | _ => false
      end
  | None => false
  end.

Definition InstantiationError : ImageHandlerError :=
  mkImageHandlerError BAD_REQUEST "InstantiationError"
    "Input image could not be instantiated. Please choose a valid image.".

Definition convertImageFormatType (imageFormatType : ImageFormatTypes) : Result string :=
  match imageFormatType with
  | JPG => Ok "jpg"
  | JPEG => Ok "jpeg"
  | PNG => Ok "png"
  | WEBP => Ok "webp"
  | TIFF => Ok "tiff"
  | HEIF => Ok "heif"
  | RAW => Ok "raw"
  | GIF => Ok "gif"
  | AVIF => Ok "avif"
  | OtherFormat name =>
      Throw (Domain (mkImageHandlerError INTERNAL_SERVER_ERROR
                       "UnsupportedOutputImageFormatException"
                       ("Format to " ++ name ++ " not supported")))
  end.

Definition InvalidResizeException : ImageHandlerError :=
  mkImageHandlerError BAD_REQUEST "InvalidResizeException" "The image size is invalid.".

(** A number used as a condition: neither [undefined] nor zero. *)
Definition truthy (x : option Q) : bool :=
  match x with
  | Some q => negb (Qeq_bool q 0)
  | None => false
  end.

(** The number held by a field known to be defined. *)
Definition number (x : option Q) : Q :=
  match x with
  | Some q => q
  | None => 0%Q
  end.

Definition roundIfTruthy (x : option Q) : option Q :=
  if truthy x then option_map (fun q => inject_Z (round q)) x else x.

Definition nonPositive (x : option Q) : bool :=
  match x with
  | Some q => Qle_bool q 0
  | None => false
  end.

Definition validateResizeInputs (resize : ResizeOptions) : Result ResizeOptions :=
  let resize := mkResize (roundIfTruthy (width resize)) (roundIfTruthy (height resize))
                         (fit resize) (ratio resize) in
  if nonPositive (width resize) || nonPositive (height resize)
  then Throw (Domain InvalidResizeException)
  else Ok resize.

(** [calcOverlaySizeOption]; the result [None] is [NaN]. *)
Definition calcOverlaySizeOption (editSize : option EditSize) (imageSize overlaySize : Z)
  : option Z :=
  match editSize with
  | None => None
  | Some size =>
      let editSize := match size with
                      | SizeNumber n => numberToString n
                      | SizeString s => s
                      end in
      if endsWith editSize "p" then
        match parseInt (replace editSize "p" "") with
        | Some resultSize =>
            Some (Qfloor
                    (if resultSize <? 0
                     then inject_Z imageSize
                          + (inject_Z imageSize * inject_Z resultSize) / 100
                          - inject_Z overlaySize
                     else (inject_Z imageSize * inject_Z resultSize) / 100))
        | None => None
        end
      else
        match parseInt editSize with
        | Some resultSize =>
            Some (if resultSize <? 0 then imageSize + resultSize - overlaySize
                  else resultSize)
        | None => None
        end
  end.

(** [zeroToHundred = /^(100|[1-9]?\d)$/], as [zeroToHundred.test(s)]. *)
Definition isDigit (c : ascii) : bool :=
  let n := nat_of_ascii c in ((48 <=? n) && (n <=? 57))%nat.

Definition isNonZeroDigit (c : ascii) : bool :=
  let n := nat_of_ascii c in ((49 <=? n) && (n <=? 57))%nat.

Definition zeroToHundred (s : string) : bool :=
  String.eqb s "100" ||
  match s with
  | String d EmptyString => isDigit d
  | String c (String d EmptyString) => isNonZeroDigit c && isDigit d
  | _ => false
  end.

(** [Math.floor((size * parseInt(ratio)) / 100)], set only when the ratio
    passes [zeroToHundred]; [parseInt] cannot fail on such a string. *)
Definition ratioDimension (size : Z) (ratio : string) : option Q :=
  if zeroToHundred ratio then
    match parseInt ratio with
    | Some r => Some (inject_Z (Qfloor ((inject_Z size * inject_Z r) / 100)))
    | None => None
    end
  else None.

(** The [resizeOptions] that [getOverlayImage] builds for the overlay. *)
Definition overlayResizeOptions (wRatio hRatio : string) (sourceImageMetadata : Metadata)
  : ResizeOptions :=
  mkResize (ratioDimension (md_width sourceImageMetadata) wRatio)
           (ratioDimension (md_height sourceImageMetadata) hRatio)
           (Some INSIDE) None.

(** [alphaValue = zeroToHundred.test(alpha) ? parseInt(alpha) : 0]. *)
Definition alphaValue (alpha : string) : Z :=
  if zeroToHundred alpha then
    match parseInt alpha with
    | Some a => a
    | None => 0
    end
  else 0.

(** The fourth element of the mask pixel, [255 * (1 - alphaValue / 100)],
    as the code computes it on numbers. *)
Definition maskAlpha (alpha : string) : Q :=
  multiply 255 (subtract 1 (divide (inject_Z (alphaValue alpha)) 100)).

(** An element of [Buffer.from(array)]: truncated and reduced modulo 256. *)
Definition toUint8 (x : Q) : Byte.byte :=
  let t := if Qltb x 0 then - Qfloor (- x) else Qfloor x in
  match Byte.of_N (Z.to_N (t mod 256)) with
  | Some b => b
  | None => Byte.x00
  end.

(** The alpha mask composited onto the overlay. *)
Definition alphaMask (alpha : string) : OverlayOptions :=
  mkOverlay (InputBuffer [Byte.xff; Byte.xff; Byte.xff; toUint8 (maskAlpha alpha)])
            None None (Some "dest-in") true (Some (mkRawInfo 1 1 4)).

Definition getCropArea (boundingBox : BoundingBox) (padding : Q) (boxSize : BoxSize)
  : CropArea :=
  let left := Qfloor (bb_left boundingBox * inject_Z (bs_width boxSize) - padding) in
  let top := Qfloor (bb_top boundingBox * inject_Z (bs_height boxSize) - padding) in
  let extractWidth :=
    Qfloor (bb_width boundingBox * inject_Z (bs_width boxSize) + padding * 2) in
  let extractHeight :=
    Qfloor (bb_height boundingBox * inject_Z (bs_height boxSize) + padding * 2) in
  let left := if left <? 0 then 0 else left in
  let top := if top <? 0 then 0 else top in
  let maxWidth := bs_width boxSize - left in
  let maxHeight := bs_height boxSize - top in
  let extractWidth := if extractWidth >? maxWidth then maxWidth else extractWidth in
  let extractHeight := if extractHeight >? maxHeight then maxHeight else extractHeight in
  mkCropArea left top extractWidth extractHeight.

(** One bound of [handleBounds]: below 0 gives 0, above 1 gives 1. *)
Definition clampBound (x : Q) : Q :=
  if Qltb x 0 then 0 else if Qltb 1 x then 1 else x.

(** [response.FaceDetails[faceIndex]]; [None] is [undefined]. *)
Definition faceAt (faces : list BoundingBox) (faceIndex : Z) : option BoundingBox :=
  if faceIndex <? 0 then None else nth_error faces (Z.to_nat faceIndex).

(** [handleBounds]; reading [BoundingBox] of an undefined face detail throws
    the [TypeError] of the runtime. *)
Definition handleBounds (faces : list BoundingBox) (faceIndex : Z) : Result BoundingBox :=
  match faceAt faces faceIndex with
  | None =>
      Throw (Other (mkJsError "Cannot read properties of undefined (reading 'BoundingBox')"))
  | Some raw =>
      let Left := clampBound (bb_left raw) in
      let Top := clampBound (bb_top raw) in
      let Width := clampBound (bb_width raw) in
      let Height := clampBound (bb_height raw) in
      let Width := (if Qltb 1 (Left + Width) then 1 - Left else Width)%Q in
      let Height := (if Qltb 1 (Top + Height) then 1 - Top else Height)%Q in
      Ok (mkBoundingBox Left Top Width Height)
  end.

(** [validRoundCropParam]: [param && param >= 0]. *)
Definition validRoundCropParam (param : option Q) : bool :=
  truthy param && match param with Some p => Qle_bool 0 p | None => false end.

Definition orDefault (param : option Q) (default : Q) : Q :=
  match param with
  | Some p => if validRoundCropParam param then p else default
  | None => default
  end.

(** The ellipse that [applyRoundCrop] draws over a [width] x [height] image:
    [radiusX], [radiusY], [topOffset], [leftOffset]. *)
Record Ellipse : Type := mkEllipse {
  radiusX : Q;
  radiusY : Q;
  topOffset : Q;
  leftOffset : Q
}.

Definition roundCropEllipse (params : RoundCropOptions) (width height : Z) : Ellipse :=
  mkEllipse
    (orDefault (rc_rx params) (inject_Z (Z.min width height) / 2))
    (orDefault (rc_ry params) (inject_Z (Z.min width height) / 2))
    (orDefault (rc_top params) (inject_Z height / 2))
    (orDefault (rc_left params) (inject_Z width / 2)).

(** [skipEdit]. *)
Definition skipEdit (edit : string) (isAnimation : bool) : bool :=
  isAnimation &&
  existsb (String.eqb edit) ["rotate"; "smartCrop"; "roundCrop"; "contentModeration"].

Section Handler.

Context {engine : ImageEngine} {s3Client : S3Client}
        {rekognitionClient : RekognitionClient} {config : Configuration}.

Definition instantiateSharpImage (originalImage : Buffer) (edits : option ImageEdits)
  (options : SharpOptions) : Result Sharp :=
  try_catch
    (if rotateIsNull edits
     then Ok (sharp originalImage (Some options))
     else
       _ <- metadata (sharp originalImage (Some options)) ;;
       Ok (record (sharp originalImage (Some options)) OpWithMetadata))
    (fun error => handleError error (Domain InstantiationError) []).

Definition modifyImageOutput (modifiedImage : Sharp) (imageRequestInfo : ImageRequestInfo)
  : Result Sharp :=
  match outputFormat imageRequestInfo with
  | Some format =>
      match format, effort imageRequestInfo with
      | WEBP, Some e => call modifiedImage (OpWebp e)
      | _, _ =>
          f <- convertImageFormatType format ;;
          call modifiedImage (OpToFormat (Some f))
      end
  | None => Ok modifiedImage
  end.

(** The part of [applyResize] that works on the [resize] object once it is
    known to be defined: validation, then the resolution of [ratio].  The
    image is only read ([metadata]), never modified. *)
Definition prepareResize (originalImage : Sharp) (r : ResizeOptions) : Result ResizeOptions :=
  resize <- validateResizeInputs r ;;
  if truthy (ratio resize) then
    let ratio := number (ratio resize) in
    '(w, h) <- (if truthy (width resize) && truthy (height resize)
                then Ok (number (width resize), number (height resize))
                else md <- metadata originalImage ;;
                     Ok (inject_Z (md_width md), inject_Z (md_height md))) ;;
    Ok (mkResize (Some (inject_Z (round (multiply w ratio))))
                 (Some (inject_Z (round (multiply h ratio))))
                 (match fit resize with Some f => Some f | None => Some INSIDE end)
                 None)
  else Ok resize.

(** The [resize] object stored when the key is undefined. *)
Definition defaultResize : ResizeOptions := mkResize None None (Some INSIDE) None.

(** [applyResize]: the edits object after the call. *)
Definition applyResize (originalImage : Sharp) (edits : ImageEdits) : Result ImageEdits :=
  match lookup_resize edits with
  | None => Ok (set_resize edits defaultResize)
  | Some r =>
      resize <- prepareResize originalImage r ;;
      Ok (set_resize edits resize)
  end.

Definition CannotAccessOverlayBucket : ImageHandlerError :=
  mkImageHandlerError FORBIDDEN "ImageBucket::CannotAccessBucket"
    "The overlay image bucket you specified could not be accessed. Please check that the bucket is specified in your SOURCE_BUCKETS.".

Definition OverlayImageException : ImageHandlerError :=
  mkImageHandlerError BAD_REQUEST "OverlayImageException"
    "The overlay image could not be applied. Please contact the system administrator.".

(** The pipeline [getOverlayImage] builds over the fetched overlay bytes. *)
Definition overlayPipeline (imageBuffer : Buffer) (wRatio hRatio alpha : string)
  (sourceImageMetadata : Metadata) : Result Sharp :=
  resized <- call (sharp imageBuffer None)
                  (OpResize (overlayResizeOptions wRatio hRatio sourceImageMetadata)) ;;
  call resized (OpComposite [alphaMask alpha]).

Definition getOverlayImage (bucket key wRatio hRatio alpha : string)
  (sourceImageMetadata : Metadata) : Result Buffer :=
  allowed <- getAllowedSourceBuckets ;;
  if negb (existsb (String.eqb bucket) allowed)
  then Throw (Domain CannotAccessOverlayBucket)
  else
    try_catch
      (overlayImage <- getObject bucket key ;;
       imageBuffer <- (match overlayImage with
                       | BodyBuffer b => Ok b
                       | BodyStream bytes => bytes
                       end) ;;
       overlay <- overlayPipeline imageBuffer wRatio hRatio alpha sourceImageMetadata ;;
       '(data, _) <- toBuffer overlay ;;
       Ok data)
      (fun error => handleError error (Domain OverlayImageException) []).

(** An offset that is not [NaN] overwrites what the spread copied. *)
Definition placed (computed : option Z) (spread : option EditSize) : option EditSize :=
  match computed with
  | Some n => Some (SizeNumber (inject_Z n))
  | None => spread
  end.

Definition applyOverlayWith (originalImage : Sharp) (edits : ImageEdits) (o : OverlayWith)
  : Result Sharp :=
  imageMetadata <- metadata originalImage ;;
  imageMetadata <- (match lookup_resize edits with
                    | Some resizeOptions =>
                        '(imageBuffer, _) <- toBuffer originalImage ;;
                        resized <- call (sharp imageBuffer None) (OpResize resizeOptions) ;;
                        metadata resized
                    | None => Ok imageMetadata
                    end) ;;
  overlay <- getOverlayImage (ow_bucket o) (ow_key o) (wRatio o) (hRatio o) (alpha o)
                             imageMetadata ;;
  overlayMetadata <- metadata (sharp overlay None) ;;
  let overlayOption :=
    match ow_options o with
    | Some options =>
        let left := calcOverlaySizeOption (opt_left options)
                      (md_width imageMetadata) (md_width overlayMetadata) in
        let top := calcOverlaySizeOption (opt_top options)
                     (md_height imageMetadata) (md_height overlayMetadata) in
        mkOverlay (InputBuffer overlay) (placed left (opt_left options))
                  (placed top (opt_top options)) None false None
    | None => mkOverlay (InputBuffer overlay) None None None false None
    end in
  call originalImage (OpComposite [overlayOption]).

Definition FaceIndexOutOfRange : string :=
  "You have provided a FaceIndex value that exceeds the length of the zero-based detectedFaces array. Please specify a value that is in-range.".

Definition faceIndexMappings : list ErrorMapping :=
  [ mkErrorMapping "Cannot read property 'BoundingBox' of undefined" BAD_REQUEST
      "SmartCrop::FaceIndexOutOfRange" (MessageText FaceIndexOutOfRange);
    mkErrorMapping "Cannot read properties of undefined (reading 'BoundingBox')" BAD_REQUEST
      "SmartCrop::FaceIndexOutOfRange" (MessageText FaceIndexOutOfRange) ].

Definition SmartCropError : ImageHandlerError :=
  mkImageHandlerError INTERNAL_SERVER_ERROR "SmartCrop::Error"
    "Smart Crop could not be applied. Please contact the system administrator.".

Definition getBoundingBox (imageBuffer : Buffer) (faceIndex : Z) : Result BoundingBox :=
  try_catch
    (FaceDetails <- detectFaces imageBuffer ;;
     if (List.length FaceDetails <=? 0)%nat
     then Ok (mkBoundingBox 0 0 1 1)
     else handleBounds FaceDetails faceIndex)
    (fun error => handleError error (Domain SmartCropError) faceIndexMappings).

Definition DetectModerationLabelsError : ImageHandlerError :=
  mkImageHandlerError INTERNAL_SERVER_ERROR "Rekognition::DetectModerationLabelsError"
    "Rekognition call failed. Please contact the system administrator.".

Definition detectInappropriateContent (imageBuffer : Buffer) (minConfidence : option Q)
  : Result (list string) :=
  try_catch
    (detectModerationLabels imageBuffer
       (match minConfidence with Some c => c | None => 75%Q end))
    (fun error => handleError error (Domain DetectModerationLabelsError) []).

(** [getRekognitionCompatibleImage]: [image.png()] modifies the image it is
    given, so the image is returned with the buffer. *)
Definition getRekognitionCompatibleImage (image : Sharp)
  : Result (Sharp * (Buffer * BoxSize) * option string) :=
  '(reloaded, _) <- toBuffer image ;;
  md <- metadata (sharp reloaded None) ;;
  let format := md_format md in
  let compatible :=
    match format with
    | Some f => existsb (String.eqb f) ["jpeg"; "png"]
    | None => false
    end in
  let image := if compatible then image else record image OpPng in
  imageBuffer <- toBuffer image ;;
  Ok (image, imageBuffer, format).

Definition sameFormat (a b : option string) : bool :=
  match a, b with
  | Some x, Some y => String.eqb x y
  | None, None => true
  | _, _ => false
  end.

Definition PaddingOutOfBounds : ImageHandlerError :=
  mkImageHandlerError BAD_REQUEST "SmartCrop::PaddingOutOfBounds"
    "The padding value you provided exceeds the boundaries of the original image. Please try choosing a smaller value or applying padding via Sharp for greater specificity.".

(** [edits.x === true || typeof edits.x === "object"], with the parameters
    of the object or the all-undefined default. *)
Definition enabled {A : Type} (v : Toggle A) (default : A) : option A :=
  match v with
  | Flag true => Some default
  | Flag false => None
  | Params a => Some a
  end.

Definition applySmartCrop (originalImage : Sharp) (v : Toggle SmartCropOptions)
  : Result Sharp :=
  match enabled v (mkSmartCrop None None) with
  | None => Ok originalImage
  | Some params =>
      '(originalImage, (data, info), format) <- getRekognitionCompatibleImage originalImage ;;
      boundingBox <- getBoundingBox data
                       (match faceIndex params with Some i => i | None => 0 end) ;;
      let cropArea := getCropArea boundingBox
                        (match padding params with Some p => p | None => 0%Q end) info in
      try_catch
        (cropped <- call originalImage (OpExtract cropArea) ;;
         if sameFormat format (bs_format info) then Ok cropped
         else call cropped (OpToFormat format))
        (fun error => handleError error (Domain PaddingOutOfBounds) [])
  end.

Definition applyRoundCrop (originalImage : Sharp) (v : Toggle RoundCropOptions)
  : Result Sharp :=
  match enabled v (mkRoundCrop None None None None) with
  | None => Ok originalImage
  | Some params =>
      '(_, info) <- toBuffer originalImage ;;
      let width := bs_width info in
      let height := bs_height info in
      let e := roundCropEllipse params width height in
      let ellipse := InputEllipse width height (leftOffset e) (topOffset e)
                                  (radiusX e) (radiusY e) in
      let overlayOptions := [mkOverlay ellipse None None (Some "dest-in") false None] in
      masked <- call originalImage (OpComposite overlayOptions) ;;
      '(data, _) <- toBuffer masked ;;
      Ok (record (record (sharp data None) OpWithMetadata) OpTrim)
  end.

Definition blurImage (originalImage : Sharp) (blur : option Q)
  (moderationLabels : option (list string)) (foundContentLabels : list string)
  : Result Sharp :=
  let blurValue := match blur with Some b => Qceiling b | None => 50 end in
  if Qle_bool (3 # 10) (inject_Z blurValue) && (blurValue <=? 1000) then
    match moderationLabels with
    | Some labels =>
        if existsb (fun found => existsb (String.eqb found) labels) foundContentLabels
        then call originalImage (OpBlur blurValue)
        else Ok originalImage
    | None =>
        match foundContentLabels with
        | [] => Ok originalImage
        | _ :: _ => call originalImage (OpBlur blurValue)
        end
    end
  else Ok originalImage.

Definition applyContentModeration (originalImage : Sharp)
  (v : Toggle ContentModerationOptions) : Result Sharp :=
  match enabled v (mkModeration None None None) with
  | None => Ok originalImage
  | Some params =>
      '(originalImage, (data, info), format) <- getRekognitionCompatibleImage originalImage ;;
      inappropriateContent <- detectInappropriateContent data (minConfidence params) ;;
      blurred <- blurImage originalImage (blur params) (moderationLabels params)
                           inappropriateContent ;;
      if sameFormat format (bs_format info) then Ok blurred
      else call blurred (OpToFormat format)
  end.

Definition AreaOutOfBounds : ImageHandlerError :=
  mkImageHandlerError BAD_REQUEST "Crop::AreaOutOfBounds"
    "The cropping area you provided exceeds the boundaries of the original image. Please try choosing a correct cropping value.".

Definition applyCrop (originalImage : Sharp) (crop : CropArea) : Result Sharp :=
  try_catch (call originalImage (OpExtract crop))
            (fun _ => Throw (Domain AreaOutOfBounds)).

(** [SHARP_EDIT_ALLOWLIST_ARRAY.includes(edit)]. *)
Definition allowlisted (edit : string) : bool :=
  existsb (String.eqb edit) SHARP_EDIT_ALLOWLIST_ARRAY.

(** The [switch (edit)] of [applyEdits].  The key of an object is unique, so
    [edits[edit]] is the value of the entry at hand; [edits] itself is read
    only for [edits.resize]. *)
Definition dispatchEdit (originalImage : Sharp) (edits : ImageEdits) (e : Edit)
  : Result Sharp :=
  match e with
  | EOverlayWith o => applyOverlayWith originalImage edits o
  | ESmartCrop v => applySmartCrop originalImage v
  | ERoundCrop v => applyRoundCrop originalImage v
  | EContentModeration v => applyContentModeration originalImage v
  | ECrop c => applyCrop originalImage c
  | EAnimated _ => Ok originalImage
  | ERotate RotateUndefined => Ok (record originalImage OpAutoOrient)
  | ERotate RotateNull => Ok originalImage
  | ERotate (RotateDegrees n) => call originalImage (OpRotate n)
  | EResize r =>
      if allowlisted "resize" then call originalImage (OpResize r) else Ok originalImage
  | EFilter name arg =>
      if allowlisted name then call originalImage (OpFilter name arg) else Ok originalImage
  end.

(** One iteration of [for (const edit in edits)]. *)
Definition applyEdit (edits : ImageEdits) (isAnimation : bool) (originalImage : Sharp)
  (e : Edit) : Result Sharp :=
  if skipEdit (edit_key e) isAnimation then Ok originalImage
  else dispatchEdit originalImage edits e.

(** The loop over the entries still to visit. *)
Fixpoint editLoop (edits : ImageEdits) (isAnimation : bool) (originalImage : Sharp)
  (remaining : list Edit) : Result Sharp :=
  match remaining with
  | [] => Ok originalImage
  | e :: rest =>
      originalImage <- applyEdit edits isAnimation originalImage e ;;
      editLoop edits isAnimation originalImage rest
  end.

Definition applyEdits (originalImage : Sharp) (edits : ImageEdits) (isAnimation : bool)
  : Result Sharp :=
  edits <- applyResize originalImage edits ;;
  editLoop edits isAnimation originalImage edits.

Definition processErrorMappings : list ErrorMapping :=
  [ mkErrorMapping "Image to composite must have same dimensions or smaller" BAD_REQUEST
      "BadRequest" (MessageOf (fun err => replace (message err) "composite" "overlay"));
    mkErrorMapping "Bitstream not supported by this decoder" BAD_REQUEST "BadRequest"
      (MessageText
         "Invalid base image. AVIF images with a bit-depth other than 8 are not supported for image edits.") ].

Definition ProcessingFailure : ImageHandlerError :=
  mkImageHandlerError INTERNAL_SERVER_ERROR "ProcessingFailure" "Image processing failed.".

(** [!edits || !Object.keys(edits).length]. *)
Definition noEdits (edits : option ImageEdits) : bool :=
  match edits with
  | None => true
  | Some [] => true
  | Some (_ :: _) => false
  end.

(** [!metadata.pages || metadata.pages <= 1]. *)
Definition singlePage (md : Metadata) : bool :=
  match md_pages md with
  | None => true
  | Some pages => (pages =? 0) || (pages <=? 1)
  end.

(** The image [applyEdits] receives and the final value of
    [options.animated]. *)
Definition openForEdits (originalImage : Buffer) (edits : ImageEdits)
  (contentType : option ContentTypes.t) : Result (Sharp * bool) :=
  let animated := match lookup_animated edits with
                  | Some a => a
                  | None => ContentTypes.is_gif contentType
                  end in
  let options := mkSharpOptions false animated SHARP_SIZE_LIMIT in
  image <- instantiateSharpImage originalImage (Some edits) options ;;
  if animated then
    md <- metadata image ;;
    if singlePage md then
      image <- instantiateSharpImage originalImage (Some edits)
                 (mkSharpOptions false false SHARP_SIZE_LIMIT) ;;
      Ok (image, false)
    else Ok (image, true)
  else Ok (image, false).

(** The image handed to the output step when there are edits. *)
Definition editPipeline (originalImage : Buffer) (edits : ImageEdits)
  (contentType : option ContentTypes.t) : Result Sharp :=
  '(image, animated) <- openForEdits originalImage edits contentType ;;
  applyEdits image edits animated.

(** The [try] block of [process]. *)
Definition processBody (imageRequestInfo : ImageRequestInfo) : Result Buffer :=
  let originalImage := originalImage imageRequestInfo in
  let edits := edits imageRequestInfo in
  let options := mkSharpOptions false (ContentTypes.is_gif (contentType imageRequestInfo))
                                SHARP_SIZE_LIMIT in
  if noEdits edits then
    match outputFormat imageRequestInfo with
    | Some _ =>
        image <- instantiateSharpImage originalImage edits options ;;
        modifiedImage <- modifyImageOutput image imageRequestInfo ;;
        '(data, _) <- toBuffer modifiedImage ;;
        Ok data
    | None => Ok originalImage
    end
  else
    let edits := match edits with Some es => es | None => [] end in
    modifiedImage <- editPipeline originalImage edits (contentType imageRequestInfo) ;;
    modifiedImage <- modifyImageOutput modifiedImage imageRequestInfo ;;
    '(data, _) <- toBuffer modifiedImage ;;
    Ok data.

Definition process (imageRequestInfo : ImageRequestInfo) : Result Buffer :=
  try_catch (processBody imageRequestInfo)
    (fun error => handleError error (Domain ProcessingFailure) processErrorMappings).

End Handler.

End ImageHandler.

(** ** Bucket resolution of the request resolver *)

Module ImageRequest.

Import JsString.

Inductive RequestTypes : Type := DEFAULT | THUMBOR | CUSTOM.

Definition CannotFindBucket : ImageHandlerError :=
  mkImageHandlerError NOT_FOUND "ImageBucket::CannotFindBucket"
    "The bucket you specified could not be found. Please check the spelling of the bucket name in your request.".

Definition CannotAccessBucket : ImageHandlerError :=
  mkImageHandlerError FORBIDDEN "ImageBucket::CannotAccessBucket"
    "The bucket you specified could not be accessed. Please check that the bucket is specified in your SOURCE_BUCKETS.".

(** Membership in [AllowedBucketSet], kept in configuration order. *)
Definition isAllowed (AllowedBucketSet : list string) (name : string) : bool :=
  existsb (String.eqb name) AllowedBucketSet.

(** The names of the [s3:<name>] segments of a path, in path order. *)
Definition s3Segments (path : string) : list string :=
  map (drop 3) (filter (fun segment => startsWith segment "s3:") (split "/"%char path)).

(** Modelled from the spec: [parseImageBucket] of [image-request.ts], which
    is not among the sources (only its test file is).  Section 4.1, bucket
    resolution for THUMBOR and CUSTOM: scan the segments left to right for
    [s3:<name>], select the first whose name is in [AllowedBucketSet], else
    fall back to the first entry of [AllowedBucketSet]; with no entry, fail
    with [CannotAccessBucket] when some [s3:] segment exists and with
    [CannotFindBucket] when none does. *)
Definition resolvePathBucket (AllowedBucketSet : list string) (path : string)
  : Result string :=
  match find (isAllowed AllowedBucketSet) (s3Segments path) with
  | Some name => Ok name
  | None =>
      match AllowedBucketSet, s3Segments path with
      | first :: _, _ => Ok first
      | [], _ :: _ => Throw (Domain CannotAccessBucket)
      | [], [] => Throw (Domain CannotFindBucket)
      end
  end.

(** Modelled from the spec: bucket resolution for DEFAULT, from the
    [bucket] field of the decoded body ([None] when the field is absent). *)
Definition resolveBodyBucket (AllowedBucketSet : list string) (bucket : option string)
  : Result string :=
  match bucket with
  | Some name =>
      if isAllowed AllowedBucketSet name then Ok name
      else Throw (Domain CannotAccessBucket)
  | None =>
      match AllowedBucketSet with
      | first :: _ => Ok first
      | [] => Throw (Domain CannotFindBucket)
      end
  end.

(** Modelled from the spec: [parseImageBucket(event, requestType)], with the
    path of the event and the [bucket] field of its decoded body. *)
Definition parseImageBucket (AllowedBucketSet : list string) (path : string)
  (bodyBucket : option string) (requestType : RequestTypes) : Result string :=
  match requestType with
  | DEFAULT => resolveBodyBucket AllowedBucketSet bodyBucket
  | THUMBOR | CUSTOM => resolvePathBucket AllowedBucketSet path
  end.

End ImageRequest.

(** ** Concrete collaborators for closed examples *)

Module Samples.

Definition png : option string := Some "png".

(** An engine that accepts every call; the source has [pages] pages and is
    100 by 50 pixels. *)
Definition engineWithPages (pages : option Z) : ImageEngine :=
  {| rejects := fun _ _ => None;
     metadata := fun _ => Ok (mkMetadata 100 50 png pages None);
     toBuffer := fun img => Ok (source img, mkBoxSize 100 50 png) |}.

Definition stillEngine : ImageEngine := engineWithPages (Some 1).

Definition movingEngine : ImageEngine := engineWithPages (Some 3).

Definition store : S3Client :=
  {| getObject := fun _ _ => Ok (BodyBuffer [Byte.x01]) |}.

Definition detector : RekognitionClient :=
  {| detectFaces := fun _ => Ok [];
     detectModerationLabels := fun _ _ => Ok [] |}.

Definition settings : Configuration :=
  {| getAllowedSourceBuckets := Ok ["allowedBucket001"; "test-bucket"];
     SHARP_EDIT_ALLOWLIST_ARRAY := ["resize"; "grayscale"; "flip"];
     SHARP_SIZE_LIMIT := LimitFlag true |}.

(** [settings] with an allow-list that lacks [resize]. *)
Definition settingsWithoutResize : Configuration :=
  {| getAllowedSourceBuckets := Ok ["allowedBucket001"; "test-bucket"];
     SHARP_EDIT_ALLOWLIST_ARRAY := ["grayscale"; "flip"];
     SHARP_SIZE_LIMIT := LimitFlag true |}.

Definition picture : Buffer := [Byte.x89; Byte.x50; Byte.x4e; Byte.x47].

Definition handle : Sharp := sharp picture None.

End Samples.

(** ** Predicates of the statements *)

Module Statements.

(** All four components of a bounding box are fractions in [0,1]. *)
Definition unitBox (b : BoundingBox) : Prop :=
  (0 <= bb_left b <= 1 /\ 0 <= bb_top b <= 1 /\
   0 <= bb_width b <= 1 /\ 0 <= bb_height b <= 1)%Q.

(** The crop area starts inside the image and does not pass its right and
    bottom edges. *)
Definition insideEdges (a : CropArea) (size : BoxSize) : Prop :=
  0 <= ca_left a /\ 0 <= ca_top a /\
  ca_left a + ca_width a <= bs_width size /\
  ca_top a + ca_height a <= bs_height size.

Definition nonNegativeExtent (a : CropArea) : Prop :=
  0 <= ca_width a /\ 0 <= ca_height a.

(** The value of a decimal numeral read most significant digit first,
    starting from [acc]. *)
Fixpoint uintValue (acc : Z) (d : Decimal.uint) : Z :=
  match d with
  | Decimal.Nil => acc
  | Decimal.D0 l => uintValue (acc * 10 + 0) l
  | Decimal.D1 l => uintValue (acc * 10 + 1) l
  | Decimal.D2 l => uintValue (acc * 10 + 2) l
  | Decimal.D3 l => uintValue (acc * 10 + 3) l
  | Decimal.D4 l => uintValue (acc * 10 + 4) l
  | Decimal.D5 l => uintValue (acc * 10 + 5) l
  | Decimal.D6 l => uintValue (acc * 10 + 6) l
  | Decimal.D7 l => uintValue (acc * 10 + 7) l
  | Decimal.D8 l => uintValue (acc * 10 + 8) l
  | Decimal.D9 l => uintValue (acc * 10 + 9) l
  end.

(** No character of [s] is [c]. *)
Fixpoint lacks (c : ascii) (s : string) : bool :=
  match s with
  | EmptyString => true
  | String d s' => negb (Ascii.eqb d c) && lacks c s'
  end.

(** The integers from 0 to 100. *)
Definition percentages : list Z := map Z.of_nat (seq 0 101).

(** The integer in [0,100] that [s] is the decimal numeral of, if any: the
    value of a ratio or of an alpha that is in range. *)
Definition percentage (s : string) : option Z :=
  find (fun n => String.eqb s (JsNumber.toString n)) percentages.

(** What the specification gives one axis of the overlay: a ratio in
    [0,100] constrains it to [floor (baseDim * ratio / 100)], any other
    ratio leaves it unconstrained. *)
Definition constrainedTo (baseDim : Z) (ratio : string) : option Q :=
  match percentage ratio with
  | Some r => Some (inject_Z (Qfloor ((inject_Z baseDim * inject_Z r) / 100)))
  | None => None
  end.

(** What the specification gives the opacity: [(100 - alpha) / 100] for an
    alpha in [0,100], fully opaque otherwise. *)
Definition opacity (alpha : string) : Q :=
  match percentage alpha with
  | Some a => (100 - inject_Z a) / 100
  | None => 1
  end.

(** The offset a percentage resolves to, before any rounding. *)
Definition percentOffset (baseDim pct overlayDim : Z) : Q :=
  if pct <? 0
  then inject_Z baseDim + (inject_Z baseDim * inject_Z pct) / 100 - inject_Z overlayDim
  else (inject_Z baseDim * inject_Z pct) / 100.

(** The offset a plain integer resolves to. *)
Definition plainOffset (baseDim raw overlayDim : Z) : Z :=
  if raw <? 0 then baseDim + raw - overlayDim else raw.

(** The first operation a run records on the image is a resize. *)
Definition resizeAppliedFirst (image : Sharp) (outcome : Result Sharp) : Prop :=
  exists (result : Sharp) (r : ResizeOptions) (rest : list Op),
    outcome = Ok result /\ ops result = (ops image ++ OpResize r :: rest)%list.




(** A dimension of an image, in pixels. *)
Definition pixelCount (n : Z) : Prop := 0 <= n < 2 ^ 31.

(** A percentage or an offset of ordinary size: with it and a pixel count
    the arithmetic of the code is exact up to its floor. *)
Definition ordinaryValue (v : Z) : Prop := - 2 ^ 15 < v < 2 ^ 15.

(** The sign that may stand before the digits of an integer, and its
    factor. *)
Definition signValue (sign : string) : option Z :=
  if String.eqb sign "" then Some 1
  else if String.eqb sign "+" then Some 1
  else if String.eqb sign "-" then Some (-1)
  else None.

(** What may follow the digits of a placement value: nothing, or a string
    without [p] that starts with neither a digit nor the [x] of a
    hexadecimal prefix, such as the fraction of a decimal. *)
Definition afterDigits (tail : string) : bool :=
  lacks "p" tail
  && match tail with
     | EmptyString => true
     | String c _ =>
         negb (ImageHandler.isDigit c) && negb (Ascii.eqb c "x") && negb (Ascii.eqb c "X")
     end.

(** The bytes of a fetched object. *)
Definition bytesOf (body : S3Body) : Result Buffer :=
  match body with
  | BodyBuffer b => Ok b
  | BodyStream bytes => bytes
  end.

(** A one-pixel mask, tiled over the overlay, that keeps the overlay where
    the mask is opaque: only its alpha channel [a] matters. *)
Definition opacityMask (a : Byte.byte) : OverlayOptions :=
  mkOverlay (InputBuffer [Byte.xff; Byte.xff; Byte.xff; a])
            None None (Some "dest-in") true (Some (mkRawInfo 1 1 4)).

Definition byteValue (b : Byte.byte) : Z := Z.of_N (Byte.to_N b).

(** An alpha channel of one byte renders an opacity to within one of its
    255 steps, from below. *)
Definition rendersOpacity (a : Byte.byte) (o : Q) : Prop :=
  (255 * o - 1 <= inject_Z (byteValue a) <= 255 * o)%Q.

(** A width or height that [validateResizeInputs] lets through: absent, or
    at least one half, so that it rounds to a positive integer. *)
Definition acceptableSize (x : option Q) : Prop :=
  match x with
  | Some q => (1 # 2 <= q)%Q
  | None => True
  end.

(** A defined size is a positive integer. *)
Definition positiveInteger (x : option Q) : Prop :=
  match x with
  | Some q => exists z : Z, 0 < z /\ q = inject_Z z
  | None => True
  end.

(** A size after [Math.round(Number(size))]. *)
Definition rounded (x : option Q) : option Q :=
  option_map (fun q => inject_Z (JsNumber.round q)) x.

(** An entry that is not the [resize] entry. *)
Definition notResize (e : Edit) : bool :=
  match e with
  | EResize _ => false
  | _ => true
  end.

(** A bounding box as the smart crop needs it: fractions in [0,1] that do
    not pass the right and bottom edges. *)
Definition normalisedBox (b : BoundingBox) : Prop :=
  unitBox b /\ (bb_left b + bb_width b <= 1)%Q /\ (bb_top b + bb_height b <= 1)%Q.

(** The thrown value is an [ImageHandlerError]. *)
Definition isDomain (t : Thrown) : Prop :=
  match t with
  | Domain _ => True
  | Other _ => False
  end.

(** [p] occurs in [s]. *)
Definition contains (s p : string) : Prop :=
  exists before after : string, s = before ++ p ++ after.

(** The index designates one of the detected faces. *)
Definition faceInRange (faces : list BoundingBox) (faceIndex : Z) : Prop :=
  0 <= faceIndex < Z.of_nat (List.length faces).

(** The whole image as a bounding box. *)
Definition wholeImage : BoundingBox := mkBoundingBox 0 0 1 1.

(** [blurValue]: the ceiling of the requested blur, 50 by default. *)
Definition blurSigma (blur : option Q) : Z :=
  match blur with
  | Some b => Qceiling b
  | None => 50
  end.

(** The labels found call for a blur: one of them is in the list of the
    request, or, without such a list, there is one at all. *)
Definition labelHit (moderationLabels : option (list string)) (found : list string) : Prop :=
  match moderationLabels with
  | Some labels => exists label, In label found /\ In label labels
  | None => found <> []
  end.

(** A format that Rekognition accepts. *)
Definition rekognitionFormat (format : option string) : Prop :=
  format = Some "jpeg" \/ format = Some "png".




(** An entry whose step does nothing in any mode: the [animated] key,
    [rotate: null], a key that is not allow-listed, and a smart crop, round
    crop or content moderation set to [false]. *)
Definition isNoOp (config : Configuration) (e : Edit) : bool :=
  match e with
  | EAnimated _ => true
  | ERotate RotateNull => true
  | EFilter name _ => negb (@ImageHandler.allowlisted config name)
  | ESmartCrop (Flag false) => true
  | ERoundCrop (Flag false) => true
  | EContentModeration (Flag false) => true
  | _ => false
  end.

End Statements.

(** ** Further collaborators for closed examples *)

Module Fixtures.

(** An engine that accepts every call, over a source of the given
    dimensions, format and page count. *)
Definition engineOf (w h : Z) (format : option string) (pages : option Z) : ImageEngine :=
  {| rejects := fun _ _ => None;
     metadata := fun _ => Ok (mkMetadata w h format pages None);
     toBuffer := fun img => Ok (source img, mkBoxSize w h format) |}.

(** An engine whose every call fails with the given message. *)
Definition brokenEngine (msg : string) : ImageEngine :=
  {| rejects := fun _ _ => Some msg;
     metadata := fun _ => Throw (Other (mkJsError msg));
     toBuffer := fun _ => Throw (Other (mkJsError msg)) |}.

(** An engine that accepts every call and reads the metadata, but fails to
    render with the given message. *)
Definition failingRender (msg : string) : ImageEngine :=
  {| rejects := fun _ _ => None;
     metadata := fun _ => Ok (mkMetadata 100 50 None None None);
     toBuffer := fun _ => Throw (Other (mkJsError msg)) |}.

(** A detector that finds the given faces and no moderation label. *)
Definition detectorOf (faces : list BoundingBox) : RekognitionClient :=
  {| detectFaces := fun _ => Ok faces;
     detectModerationLabels := fun _ _ => Ok [] |}.

(** A detector that finds no face and the given moderation labels. *)
Definition moderatorOf (labels : list string) : RekognitionClient :=
  {| detectFaces := fun _ => Ok [];
     detectModerationLabels := fun _ _ => Ok labels |}.

(** A detector whose calls fail with the given message. *)
Definition brokenDetector (msg : string) : RekognitionClient :=
  {| detectFaces := fun _ => Throw (Other (mkJsError msg));
     detectModerationLabels := fun _ _ => Throw (Other (mkJsError msg)) |}.

End Fixtures.

(** * Properties *)

Import JsString JsNumber ImageHandler Statements.

(** ** Strings *)

Section StringFacts.

Lemma startsWith_iff (s p : string) :
  startsWith s p = true <-> exists rest, s = p ++ rest.
Proof.
  revert s; induction p as [|c p IH]; intros s; simpl.
  - split; [intros _; now exists s | reflexivity].
  - destruct s as [|d s].
    + split; [discriminate | intros [rest H]; discriminate].
    + rewrite andb_true_iff, IH, Ascii.eqb_eq. split.
      * intros [-> [rest ->]]. now exists rest.
      * intros [rest H]. injection H as -> ->. split; [reflexivity | now exists rest].
Qed.

Lemma includes_iff (s p : string) :
  includes s p = true <-> exists before after, s = before ++ p ++ after.
Proof.
  induction s as [|c s IH]; simpl.
  - rewrite orb_false_r, startsWith_iff. split.
    + intros [rest H]. now exists EmptyString, rest.
    + intros [[|b before] [after H]]; [now exists after | discriminate].
  - rewrite orb_true_iff, IH, startsWith_iff. split.
    + intros [[rest H] | [before [after H]]].
      * now exists EmptyString, rest.
      * exists (String c before), after. simpl. now rewrite H.
    + intros [[|b before] [after H]].
      * left. now exists after.
      * right. injection H as _ H. now exists before, after.
Qed.

End StringFacts.

(** ** Error mapping *)

Section ErrorMapper.

Variable A : Type.

Lemma throwMapped_find (e : JsError) (defaultError : Thrown) (errorMappings : list ErrorMapping) :
  throwMapped (A := A) e defaultError errorMappings =
  match find (fun mapping => includes (message e) (pattern mapping)) errorMappings with
  | Some mapping => Throw (Domain (mappedError mapping e))
  | None => Throw defaultError
  end.
Proof.
  induction errorMappings as [|mapping rest IH]; simpl; [reflexivity|].
  destruct (includes (message e) (pattern mapping)); [reflexivity | exact IH].
Qed.


End ErrorMapper.

(** ** The request without edits *)

Section Identity.

Context {engine : ImageEngine} {s3Client : S3Client}
        {rekognitionClient : RekognitionClient} {config : Configuration}.

(** C3.  A request whose edits are absent or empty and whose output format
    is undefined gets its original image back, byte for byte: nothing is
    instantiated and nothing is encoded. *)
Theorem process_no_edits_identity :
  forall imageRequestInfo : ImageRequestInfo,
    noEdits (edits imageRequestInfo) = true ->
    outputFormat imageRequestInfo = None ->
    process imageRequestInfo = Ok (originalImage imageRequestInfo).
Proof.
  intros req Hedits Hformat.
  unfold process, processBody. rewrite Hedits, Hformat. reflexivity.
Qed.

End Identity.

(** [process] on an empty edits object and no output format, with concrete
    collaborators. *)
Lemma process_no_edits_identity_witness :
  noEdits (Some []) = true /\
  @process Samples.stillEngine Samples.store Samples.detector Samples.settings
           (mkRequest Samples.picture (Some []) None None None) = Ok Samples.picture.
Proof.
  split; [reflexivity|].
  apply (@process_no_edits_identity Samples.stillEngine Samples.store Samples.detector
           Samples.settings (mkRequest Samples.picture (Some []) None None None));
    reflexivity.
Defined.

(** ** Smart-crop geometry *)

Section CropGeometry.

Lemma getCropArea_insideEdges (b : BoundingBox) (padding : Q) (size : BoxSize) :
  insideEdges (getCropArea b padding size) size.
Proof.
  unfold insideEdges, getCropArea; cbn [ca_width ca_height ca_left ca_top].
  repeat match goal with
         | |- context [?x <? ?y] => destruct (Z.ltb_spec x y)
         | |- context [?x >? ?y] => rewrite (Z.gtb_ltb x y); destruct (Z.ltb_spec y x)
         end; lia.
Qed.

Lemma floor_nonneg (x : Q) : (0 <= x)%Q -> 0 <= Qfloor x.
Proof.
  intros H. change 0 with (Qfloor 0). now apply Qfloor_resp_le.
Qed.

Lemma floor_le_Z (x : Q) (n : Z) : (x <= inject_Z n)%Q -> Qfloor x <= n.
Proof.
  intros H. rewrite <- (Qfloor_Z n). now apply Qfloor_resp_le.
Qed.

Lemma fraction_le (f : Q) (n : Z) :
  (0 <= f <= 1)%Q -> 0 <= n -> (0 <= f * inject_Z n <= inject_Z n)%Q.
Proof.
  intros [H0 H1] Hn.
  assert (Hq : (0 <= inject_Z n)%Q) by (change 0%Q with (inject_Z 0); now rewrite <- Zle_Qle).
  split; [now apply Qmult_le_0_compat|].
  setoid_replace (inject_Z n) with (1 * inject_Z n)%Q at 2 by ring.
  now apply Qmult_le_compat_r.
Qed.

Lemma getCropArea_nonNegativeExtent (b : BoundingBox) (padding : Q) (size : BoxSize) :
  unitBox b -> 0 <= bs_width size -> 0 <= bs_height size -> (0 <= padding)%Q ->
  nonNegativeExtent (getCropArea b padding size).
Proof.
  intros (Hl & Ht & Hw & Hh) HW HH Hp.
  pose proof (fraction_le _ _ Hl HW) as [Hl0 Hl1].
  pose proof (fraction_le _ _ Ht HH) as [Ht0 Ht1].
  pose proof (fraction_le _ _ Hw HW) as [Hw0 _].
  pose proof (fraction_le _ _ Hh HH) as [Hh0 _].
  assert (0 <= Qfloor (bb_width b * inject_Z (bs_width size) + padding * 2))
    by (apply floor_nonneg; lra).
  assert (0 <= Qfloor (bb_height b * inject_Z (bs_height size) + padding * 2))
    by (apply floor_nonneg; lra).
  assert (Qfloor (bb_left b * inject_Z (bs_width size) - padding) <= bs_width size)
    by (apply floor_le_Z; lra).
  assert (Qfloor (bb_top b * inject_Z (bs_height size) - padding) <= bs_height size)
    by (apply floor_le_Z; lra).
  unfold nonNegativeExtent, getCropArea; cbn [ca_width ca_height ca_left ca_top].
  repeat match goal with
         | |- context [?x <? ?y] => destruct (Z.ltb_spec x y)
         | |- context [?x >? ?y] => rewrite (Z.gtb_ltb x y); destruct (Z.ltb_spec y x)
         end; lia.
Qed.

(** C6, as amended.  For every bounding box, padding and image size the
    crop area of [getCropArea] has [left >= 0], [top >= 0],
    [left + width <= imageWidth] and [top + height <= imageHeight]; its
    width and height are non-negative when the four components of the box
    are in [0,1] and the padding is non-negative (on an image of
    non-negative dimensions). *)
Theorem getCropArea_within_image :
  forall (b : BoundingBox) (padding : Q) (size : BoxSize),
    unitBox b -> 0 <= bs_width size -> 0 <= bs_height size ->
    insideEdges (getCropArea b padding size) size
    /\ ((0 <= padding)%Q -> nonNegativeExtent (getCropArea b padding size)).
Proof.
  intros b padding size Hb HW HH. split.
  - apply getCropArea_insideEdges.
  - intros Hp. now apply getCropArea_nonNegativeExtent.
Qed.

End CropGeometry.

(** A quarter-size face box with padding 3 on a 100 by 50 image. *)
Lemma getCropArea_within_image_witness :
  insideEdges (getCropArea (mkBoundingBox (1 # 4) (1 # 4) (1 # 2) (1 # 2)) 3
                           (mkBoxSize 100 50 None)) (mkBoxSize 100 50 None)
  /\ nonNegativeExtent (getCropArea (mkBoundingBox (1 # 4) (1 # 4) (1 # 2) (1 # 2)) 3
                                    (mkBoxSize 100 50 None)).
Proof.
  destruct (getCropArea_within_image (mkBoundingBox (1 # 4) (1 # 4) (1 # 2) (1 # 2)) 3
              (mkBoxSize 100 50 None)) as [Hedges Hextent].
  - unfold unitBox; simpl; repeat split; discriminate.
  - simpl; lia.
  - simpl; lia.
  - split; [exact Hedges | apply Hextent; discriminate].
Defined.

(** C6 as stated fails for a negative padding: on a 10 by 10 image the full
    box with padding -10 gets width and height -10. *)
Lemma getCropArea_negative_padding_counterexample :
  unitBox (mkBoundingBox 0 0 1 1)
  /\ getCropArea (mkBoundingBox 0 0 1 1) (-10) (mkBoxSize 10 10 None)
     = mkCropArea 10 10 (-10) (-10)
  /\ ~ nonNegativeExtent (getCropArea (mkBoundingBox 0 0 1 1) (-10) (mkBoxSize 10 10 None)).
Proof.
  split; [|split].
  - unfold unitBox; simpl; repeat split; discriminate.
  - reflexivity.
  - intros [H _]. vm_compute in H. apply H. reflexivity.
Qed.

(** ** Numerals *)

Section Numerals.

Import Decimal.

Lemma parseDigits_uint (d : uint) (acc : Z) :
  parseDigits 10 (Some acc) (NilEmpty.string_of_uint d) = Some (uintValue acc d).
Proof.
  revert acc; induction d; intros acc; simpl; try reflexivity;
    (unfold digitValue; simpl; rewrite IHd; reflexivity).
Qed.

Lemma parseDigits_uint_start (d : uint) :
  d <> Nil -> parseDigits 10 None (NilEmpty.string_of_uint d) = Some (uintValue 0 d).
Proof.
  destruct d; intros H; try congruence; simpl;
    unfold digitValue; simpl; apply parseDigits_uint.
Qed.

Lemma of_uint_acc_value (d : uint) (acc : positive) :
  Z.pos (Pos.of_uint_acc d acc) = uintValue (Z.pos acc) d.
Proof.
  revert acc; induction d; intros acc; cbn [Pos.of_uint_acc uintValue];
    try reflexivity; rewrite IHd; apply (f_equal (fun a => uintValue a d)); lia.
Qed.

Lemma of_uint_value (d : uint) : Z.of_N (Pos.of_uint d) = uintValue 0 d.
Proof.
  induction d; simpl; try reflexivity; try exact IHd;
    apply of_uint_acc_value.
Qed.

Lemma to_uint_value (p : positive) : uintValue 0 (Pos.to_uint p) = Z.pos p.
Proof.
  rewrite <- of_uint_value, DecimalPos.Unsigned.of_to. reflexivity.
Qed.

Lemma to_uint_not_nil (p : positive) : Pos.to_uint p <> Nil.
Proof.
  intros H. pose proof (DecimalPos.Unsigned.of_to p) as E.
  rewrite H in E. discriminate.
Qed.

(** A decimal numeral starts with a digit: it has no sign, no white space
    and no radix prefix for [parseInt] to consume. *)
Lemma numeral_plain (d : uint) :
  let s := NilEmpty.string_of_uint d in
  trimStart s = s
  /\ startsWith s "0x" || startsWith s "0X" = false
  /\ match s with
     | String "-"%char _ | String "+"%char _ => False
     | _ => True
     end.
Proof.
  destruct d as [|d|d|d|d|d|d|d|d|d|d]; simpl; try (repeat split; reflexivity);
    destruct d; repeat split; reflexivity.
Qed.

Lemma parseInt_uint (d : uint) :
  d <> Nil -> parseInt (NilEmpty.string_of_uint d) = Some (uintValue 0 d).
Proof.
  intros Hd. pose proof (numeral_plain d) as (Htrim & Hx & Hsign).
  unfold parseInt. rewrite Htrim.
  pose proof (parseDigits_uint_start _ Hd) as Hdigits.
  destruct (NilEmpty.string_of_uint d) as [|c s] eqn:E.
  - simpl in *. congruence.
  - assert (Hc : c <> "-"%char /\ c <> "+"%char).
    { split; intros ->; exact Hsign. }
    destruct Hc as [Hm Hp].
    assert (Hsplit : (match String c s with
                      | String "-"%char r => (-1, r)
                      | String "+"%char r => (1, r)
                      | _ => (1, String c s)
                      end) = (1, String c s)).
    { destruct c as [[] [] [] [] [] [] [] []]; try reflexivity; congruence. }
    rewrite Hsplit. cbv zeta iota beta. rewrite Hx, Hdigits.
    f_equal. lia.
Qed.

Lemma parseInt_toString (n : Z) : parseInt (toString n) = Some n.
Proof.
  destruct n as [|p|p]; [reflexivity| |].
  - unfold toString, Z.to_int, NilEmpty.string_of_int.
    rewrite (parseInt_uint _ (to_uint_not_nil p)), to_uint_value. reflexivity.
  - unfold toString, Z.to_int, NilEmpty.string_of_int.
    pose proof (numeral_plain (Pos.to_uint p)) as (_ & Hx & _).
    unfold parseInt. cbn [trimStart isWhiteSpace]. 
    change (isWhiteSpace "-") with false. cbv iota.
    rewrite Hx, (parseDigits_uint_start _ (to_uint_not_nil p)), to_uint_value.
    f_equal.
Qed.

End Numerals.

(** ** Numbers and their strings *)

Section NumbersAsStrings.

Lemma Qred_integer (c : Z) : Qred (inject_Z c) = inject_Z c.
Proof.
  unfold Qred, inject_Z.
  pose proof (Z.ggcd_gcd c 1) as Hg. pose proof (Z.ggcd_correct_divisors c 1) as Hd.
  destruct (Z.ggcd c 1) as [g [a b]]. cbn [fst snd] in *.
  rewrite Z.gcd_1_r in Hg. subst g. destruct Hd as [Ha Hb].
  assert (Ea : a = c) by lia. assert (Eb : b = 1) by lia. rewrite Ea, Eb. reflexivity.
Qed.

Lemma fl_comp (x y : Q) : (x == y)%Q -> fl x = fl y.
Proof. intros H. unfold fl. now rewrite (Qred_complete _ _ H). Qed.

Lemma power_nonneg (b e : Z) : 0 <= e -> power b e = inject_Z (b ^ e).
Proof. intros H. unfold power. now rewrite (proj2 (Z.leb_le 0 e) H). Qed.

Lemma power_two_inverse (e : Z) :
  e <= 0 -> (power 2 e * inject_Z (2 ^ (- e)) == 1)%Q.
Proof.
  intros He. unfold power. destruct (Z.leb_spec 0 e) as [H|H].
  - assert (e = 0) by lia. subst. reflexivity.
  - assert (Hp : 0 < 2 ^ (- e)) by (apply Z.pow_pos_nonneg; lia).
    destruct (2 ^ (- e)) as [|p|p] eqn:E; try lia.
    unfold Qeq, Qmult, inject_Z. simpl. lia.
Qed.

Lemma roundHalfEven_comp (x y : Q) : (x == y)%Q -> roundHalfEven x = roundHalfEven y.
Proof.
  intros H. unfold roundHalfEven. rewrite (Qfloor_comp _ _ H).
  assert (E : ((x - inject_Z (Qfloor y) ?= 1 # 2) = (y - inject_Z (Qfloor y) ?= 1 # 2))%Q)
    by now rewrite H.
  now rewrite E.
Qed.

Lemma roundHalfEven_integer (m : Z) : roundHalfEven (inject_Z m) = m.
Proof.
  unfold roundHalfEven. rewrite Qfloor_Z.
  assert (E : ((inject_Z m - inject_Z m ?= 1 # 2) = Lt)%Q).
  { assert (H : (inject_Z m - inject_Z m == 0)%Q) by ring. now rewrite H. }
  now rewrite E.
Qed.

Lemma binaryExponent_integer (c : Z) : 0 < c -> binaryExponent (inject_Z c) = Z.log2 c.
Proof.
  intros Hc. unfold binaryExponent. cbn [inject_Z Qnum Qden].
  change (Z.log2 1) with 0. rewrite Z.sub_0_r.
  pose proof (Z.log2_nonneg c) as Hl. rewrite (power_nonneg _ _ Hl).
  match goal with
  | |- (if ?b then _ else _) = _ => assert (E : b = true)
  end.
  { apply Qle_bool_iff. change (c # 1) with (inject_Z c). rewrite <- Zle_Qle.
    apply Z.log2_spec. exact Hc. }
  now rewrite E.
Qed.

(** An integer below [2 ^ 53] in magnitude is a number. *)
Lemma fl_integer (c : Z) : Z.abs c < 2 ^ 53 -> fl (inject_Z c) = inject_Z c.
Proof.
  intros Hlt. unfold fl. rewrite Qred_integer.
  destruct (Z.eq_dec c 0) as [-> | Hnz]; [reflexivity|].
  assert (Hz : Qeq_bool (inject_Z c) 0 = false).
  { destruct (Qeq_bool (inject_Z c) 0) eqn:E; [|reflexivity].
    apply Qeq_bool_iff in E. unfold Qeq in E. simpl in E. lia. }
  assert (Ha : Qabs (inject_Z c) = inject_Z (Z.abs c)) by reflexivity.
  rewrite Hz, Ha, (binaryExponent_integer (Z.abs c)) by lia.
  assert (Hl : 0 <= Z.log2 (Z.abs c) < 53).
  { split; [apply Z.log2_nonneg|]. apply Z.log2_lt_pow2; lia. }
  rewrite Z.max_l by lia.
  set (e := Z.log2 (Z.abs c) - 52).
  pose proof (power_two_inverse e ltac:(unfold e; lia)) as Hinv.
  assert (Hdiv : (inject_Z (Z.abs c) / power 2 e == inject_Z (Z.abs c * 2 ^ (- e)))%Q).
  { rewrite inject_Z_mult.
    assert (Hp : ~ (power 2 e == 0)%Q).
    { intros H0. rewrite H0 in Hinv. discriminate Hinv. }
    field_simplify_eq; [|exact Hp].
    rewrite <- Qmult_assoc, (Qmult_comm (inject_Z _)), Hinv. ring. }
  rewrite (roundHalfEven_comp _ _ Hdiv), roundHalfEven_integer.
  assert (Hback : (inject_Z (Z.abs c * 2 ^ (- e)) * power 2 e == inject_Z (Z.abs c))%Q).
  { rewrite inject_Z_mult, <- Qmult_assoc, (Qmult_comm (inject_Z (2 ^ _))), Hinv. ring. }
  transitivity (Qred (inject_Z c)); [apply Qred_complete | apply Qred_integer].
  unfold Qltb. destruct (Qle_bool 0 (inject_Z c)) eqn:S; cbn [negb]; rewrite Hback.
  - apply Qle_bool_iff in S. change 0%Q with (inject_Z 0) in S. rewrite <- Zle_Qle in S.
    now rewrite Z.abs_eq by lia.
  - assert (Hneg : c < 0).
    { destruct (Z_lt_le_dec c 0) as [H|H]; [exact H|].
      assert (Qle_bool 0 (inject_Z c) = true); [|congruence].
      apply Qle_bool_iff. change 0%Q with (inject_Z 0). now rewrite <- Zle_Qle. }
    rewrite Z.abs_neq by lia. rewrite inject_Z_opp. ring.
Qed.

Lemma power_positive (e : Z) : (0 < power 2 e)%Q.
Proof.
  unfold power. destruct (Z.leb_spec 0 e).
  - change 0%Q with (inject_Z 0). rewrite <- Zlt_Qlt. apply Z.pow_pos_nonneg; lia.
  - reflexivity.
Qed.

Lemma roundHalfEven_nonneg (x : Q) : (0 <= x)%Q -> 0 <= roundHalfEven x.
Proof.
  intros H. unfold roundHalfEven.
  assert (Hf : 0 <= Qfloor x) by (change 0 with (Qfloor 0); now apply Qfloor_resp_le).
  destruct (x - inject_Z (Qfloor x) ?= 1 # 2)%Q; [destruct (Z.even (Qfloor x))| |]; lia.
Qed.

(** Rounding to a number keeps the sign. *)
Lemma fl_sign (x : Q) :
  ((0 <= x)%Q -> (0 <= fl x)%Q) /\ ((x <= 0)%Q -> (fl x <= 0)%Q).
Proof.
  unfold fl. pose proof (Qred_correct x) as Hred. set (y := Qred x) in *.
  destruct (Qeq_bool y 0) eqn:Z0; [split; intros _; apply Qle_refl|].
  set (e := Z.max (binaryExponent (Qabs y) - 52) (-1074)).
  pose proof (power_positive e) as Hp.
  assert (Hm : (0 <= inject_Z (roundHalfEven (Qabs y / power 2 e)) * power 2 e)%Q).
  { apply Qmult_le_0_compat; [|now apply Qlt_le_weak].
    change 0%Q with (inject_Z 0). rewrite <- Zle_Qle. apply roundHalfEven_nonneg.
    apply Qmult_le_0_compat; [apply Qabs_nonneg|].
    apply Qinv_le_0_compat. now apply Qlt_le_weak. }
  assert (Hnz : ~ (y == 0)%Q).
  { intros H0. apply Qeq_bool_iff in H0. congruence. }
  unfold Qltb. split; intros Hx; rewrite Qred_correct.
  - assert (S : Qle_bool 0 y = true) by (apply Qle_bool_iff; now rewrite Hred).
    now rewrite S.
  - assert (S : Qle_bool 0 y = false).
    { destruct (Qle_bool 0 y) eqn:S; [|reflexivity].
      apply Qle_bool_iff in S. rewrite Hred in S. exfalso. apply Hnz. rewrite Hred. lra. }
    rewrite S. cbn [negb]. lra.
Qed.

Import Decimal.

Lemma length_numeral (d : uint) :
  String.length (NilEmpty.string_of_uint d) = nb_digits d.
Proof. induction d; simpl; congruence. Qed.

Lemma uintValue_bounds (d : uint) :
  forall acc : Z,
    0 <= acc ->
    acc * 10 ^ Z.of_nat (nb_digits d) <= uintValue acc d
    < (acc + 1) * 10 ^ Z.of_nat (nb_digits d).
Proof.
  induction d; intros acc Hacc; cbn [uintValue nb_digits];
    try (rewrite Z.pow_0_r; lia);
    rewrite Nat2Z.inj_succ, Z.pow_succ_r by lia;
    match goal with
    | |- _ <= uintValue ?a _ < _ =>
        specialize (IHd a ltac:(lia));
        pose proof (Z.pow_pos_nonneg 10 (Z.of_nat (nb_digits d)) ltac:(lia) ltac:(lia))
    end; nia.
Qed.

(** The numeral of a positive integer starts with a digit other than 0. *)
Lemma to_uint_head (p : positive) :
  match Pos.to_uint p with
  | Nil | D0 _ => False
  | _ => True
  end.
Proof.
  pose proof (DecimalPos.Unsigned.to_of (Pos.to_uint p)) as H.
  rewrite DecimalPos.Unsigned.of_to in H. cbn [N.to_uint] in H.
  pose proof (DecimalPos.Unsigned.to_uint_nonzero p) as Hz.
  destruct (Pos.to_uint p) as [|d|d|d|d|d|d|d|d|d|d] eqn:E; try exact I.
  - discriminate H.
  - unfold unorm in H. cbn [nzhead] in H.
    destruct (nzhead d) eqn:N; try discriminate H.
    + injection H as H. subst d. now apply Hz.
    + rewrite <- H in N. now apply DecimalFacts.nzhead_nonzero in N.
Qed.

(** The number of digits of a positive integer. *)
Lemma toString_size (c : Z) :
  0 < c ->
  let D := Z.of_nat (String.length (toString c)) in
  0 < D /\ 10 ^ (D - 1) <= c < 10 ^ D.
Proof.
  intros Hc. destruct c as [|p|p]; try lia.
  unfold toString, Z.to_int, NilEmpty.string_of_int. rewrite length_numeral.
  pose proof (to_uint_value p) as Hv. pose proof (to_uint_head p) as Hh.
  destruct (Pos.to_uint p) as [|d|d|d|d|d|d|d|d|d|d]; try contradiction;
    cbn [uintValue nb_digits] in *; rewrite Nat2Z.inj_succ;
    match type of Hv with
    | uintValue ?a _ = _ => pose proof (uintValue_bounds d a ltac:(lia)) as Hb
    end;
    replace (Z.succ (Z.of_nat (nb_digits d)) - 1) with (Z.of_nat (nb_digits d)) by lia;
    rewrite Z.pow_succ_r by lia;
    pose proof (Z.pow_pos_nonneg 10 (Z.of_nat (nb_digits d)) ltac:(lia) ltac:(lia));
    cbv zeta; lia.
Qed.

Lemma append_assoc (a b c : string) : (a ++ b) ++ c = a ++ b ++ c.
Proof. induction a as [|x a IH]; simpl; [reflexivity | now rewrite IH]. Qed.

Lemma append_nil_r (s : string) : s ++ "" = s.
Proof. induction s as [|x s IH]; simpl; [reflexivity | now rewrite IH]. Qed.

Lemma numeral_revapp (l a : uint) :
  NilEmpty.string_of_uint (revapp l a)
  = NilEmpty.string_of_uint (rev l) ++ NilEmpty.string_of_uint a.
Proof.
  revert a. unfold rev.
  induction l; intros a; cbn [revapp]; try reflexivity;
    rewrite IHl, (IHl (_ Nil)); cbn [NilEmpty.string_of_uint];
    now rewrite append_assoc.
Qed.

Lemma toString_tenfold (c : Z) : 0 < c -> toString (c * 10) = toString c ++ "0".
Proof.
  intros Hc. destruct c as [|p|p]; try lia.
  change (Z.pos p * 10) with (Z.pos (p * 10)).
  unfold toString, Z.to_int, NilEmpty.string_of_int, Pos.to_uint.
  pose proof (DecimalPos.Unsigned.to_ldec_tenfold p) as H.
  change (10 * N.pos p)%N with (N.pos (10 * p)) in H. cbn [DecimalPos.Unsigned.to_lu] in H.
  rewrite Pos.mul_comm, H. unfold rev at 1. cbn [revapp].
  now rewrite numeral_revapp.
Qed.

Lemma zeros_succ (j : nat) : zeros (S j) = zeros j ++ "0".
Proof. induction j as [|j IH]; [reflexivity|]. cbn [zeros append] in *. now rewrite <- IH. Qed.

Lemma toString_scaled (c : Z) (j : nat) :
  0 < c -> toString (c * 10 ^ Z.of_nat j) = toString c ++ zeros j.
Proof.
  intros Hc. induction j as [|j IH].
  - rewrite Z.mul_1_r. cbn [zeros]. now rewrite append_nil_r.
  - rewrite Nat2Z.inj_succ, Z.pow_succ_r by lia.
    replace (c * (10 * 10 ^ Z.of_nat j)) with (c * 10 ^ Z.of_nat j * 10) by lia.
    rewrite toString_tenfold, IH, zeros_succ, append_assoc; [reflexivity|].
    pose proof (Z.pow_pos_nonneg 10 (Z.of_nat j) ltac:(lia) ltac:(lia)). nia.
Qed.


Lemma Qfloor_quotient (c P : Z) : 0 < P -> Qfloor (inject_Z c / inject_Z P) = c / P.
Proof.
  intros HP. destruct P as [|p|p]; try lia.
  unfold Qdiv, Qinv, Qmult, inject_Z, Qfloor. cbn [Qnum Qden].
  now rewrite Z.mul_1_r, Pos.mul_1_l.
Qed.

Lemma Qeq_bool_integers (a b : Z) : Qeq_bool (inject_Z a) (inject_Z b) = (a =? b).
Proof.
  unfold Qeq_bool, inject_Z. cbn [Qnum Qden]. now rewrite !Z.mul_1_r.
Qed.

Lemma length_append (s t : string) :
  String.length (s ++ t) = (String.length s + String.length t)%nat.
Proof. induction s as [|x s IH]; simpl; [reflexivity | now rewrite IH]. Qed.

Lemma length_zeros (j : nat) : String.length (zeros j) = j.
Proof. induction j as [|j IH]; simpl; [reflexivity | now rewrite IH]. Qed.

(** The digits of a multiple of [10 ^ j], laid out as an integer. *)
Lemma render_integer (lo : Z) (j : nat) :
  0 < lo ->
  let c := lo * 10 ^ Z.of_nat j in
  Z.of_nat (String.length (toString c)) <= 21 ->
  render lo (Z.of_nat (String.length (toString c))) = toString c.
Proof.
  intros Hlo c HD. unfold c in *. rewrite (toString_scaled lo j Hlo) in *.
  rewrite length_append, length_zeros in *. unfold render.
  set (k := String.length (toString lo)) in *.
  assert (E1 : (Z.of_nat k <=? Z.of_nat (k + j)) = true) by (apply Z.leb_le; lia).
  assert (E2 : (Z.of_nat (k + j) <=? 21) = true) by (apply Z.leb_le; lia).
  rewrite E1, E2. cbn [andb].
  now replace (Z.to_nat (Z.of_nat (k + j) - Z.of_nat k)) with j by lia.
Qed.

(** One round of the search on a positive integer below [10 ^ 15]: the
    digits before the last [j] are the answer when those [j] are zeros. *)
Lemma shortest_step (c D : Z) (j fuel : nat) :
  0 < c < 10 ^ 15 -> 10 ^ Z.of_nat j <= c < 10 ^ D -> Z.of_nat j < D ->
  shortest (S fuel) (D - Z.of_nat j) (inject_Z c) D
  = if c mod 10 ^ Z.of_nat j =? 0 then (c / 10 ^ Z.of_nat j, D)
    else shortest fuel (D - Z.of_nat j + 1) (inject_Z c) D.
Proof.
  intros [Hpos Hlt] [HPc Hup] Hj. cbn [shortest].
  replace (D - (D - Z.of_nat j)) with (Z.of_nat j) by lia.
  rewrite power_nonneg by lia.
  set (P := 10 ^ Z.of_nat j) in *.
  assert (HP : 0 < P) by (apply Z.pow_pos_nonneg; lia).
  rewrite (Qfloor_quotient c P HP).
  set (lo := c / P).
  pose proof (Z.mul_div_le c P HP) as Hle.
  pose proof (Z.mul_succ_div_gt c P HP) as Hgt.
  pose proof (Z.mod_eq c P ltac:(lia)) as Hmod.
  fold lo in Hle, Hgt, Hmod.
  assert (Hbig : 2 * 10 ^ 15 < 2 ^ 53) by reflexivity.
  assert (Hlo : 0 <= lo) by (apply Z.div_pos; lia).
  assert (Elo : fl (inject_Z lo * inject_Z P) = inject_Z (lo * P)).
  { rewrite (fl_comp _ (inject_Z (lo * P))) by (now rewrite inject_Z_mult).
    apply fl_integer. rewrite Z.abs_eq by nia. nia. }
  assert (Ehi : fl (inject_Z (lo + 1) * inject_Z P) = inject_Z ((lo + 1) * P)).
  { rewrite (fl_comp _ (inject_Z ((lo + 1) * P))) by (now rewrite inject_Z_mult).
    apply fl_integer. rewrite Z.abs_eq by nia. nia. }
  rewrite Elo, Ehi, !Qeq_bool_integers.
  assert (Hhi : ((lo + 1) * P =? c) = false) by (apply Z.eqb_neq; nia).
  rewrite Hhi.
  destruct (Z.eqb_spec (lo * P) c) as [E|E].
  - assert (Em : (c mod P =? 0) = true) by (apply Z.eqb_eq; nia).
    rewrite Em.
    assert (Hk : (lo =? 10 ^ (D - Z.of_nat j)) = false).
    { apply Z.eqb_neq.
      assert (lo < 10 ^ (D - Z.of_nat j)); [|lia].
      apply Z.div_lt_upper_bound; [exact HP|].
      unfold P. rewrite <- Z.pow_add_r by lia.
      now replace (Z.of_nat j + (D - Z.of_nat j)) with D by lia. }
    now rewrite Hk.
  - assert (Em : (c mod P =? 0) = false) by (apply Z.eqb_neq; nia).
    now rewrite Em.
Qed.

(** The search for the digits of a positive integer below [10 ^ 15] ends
    with digits that are laid out as the numeral of the integer. *)
Lemma shortest_integer (c : Z) :
  0 < c < 10 ^ 15 ->
  let D := Z.of_nat (String.length (toString c)) in
  forall (j fuel : nat),
    (j < fuel)%nat -> Z.of_nat j < D ->
    let '(s, n) := shortest fuel (D - Z.of_nat j) (inject_Z c) D in
    render s n = toString c.
Proof.
  intros Hc D. destruct (toString_size c (proj1 Hc)) as [HD [Hlow Hup]].
  fold D in HD, Hlow, Hup.
  assert (HD15 : D <= 15).
  { destruct (Z_le_gt_dec D 15) as [H|H]; [exact H|].
    assert (10 ^ 15 <= 10 ^ (D - 1)) by (apply Z.pow_le_mono_r; lia). lia. }
  assert (Hdone : forall j : nat,
             Z.of_nat j < D -> c mod 10 ^ Z.of_nat j = 0 ->
             render (c / 10 ^ Z.of_nat j) D = toString c).
  { intros j Hj Hm.
    assert (HP : 0 < 10 ^ Z.of_nat j) by (apply Z.pow_pos_nonneg; lia).
    pose proof (Z.mod_eq c (10 ^ Z.of_nat j) ltac:(lia)) as Hmod.
    assert (Ec : c = c / 10 ^ Z.of_nat j * 10 ^ Z.of_nat j) by lia.
    assert (Hlo : 0 < c / 10 ^ Z.of_nat j) by nia.
    pose proof (render_integer (c / 10 ^ Z.of_nat j) j Hlo) as R.
    cbv zeta in R. rewrite <- Ec in R. apply R. fold D. lia. }
  assert (Hfrom : forall j : nat, Z.of_nat j < D -> 10 ^ Z.of_nat j <= c < 10 ^ D).
  { intros j Hj. split; [|exact Hup].
    apply Z.le_trans with (10 ^ (D - 1)); [apply Z.pow_le_mono_r; lia | exact Hlow]. }
  induction j as [|j IH]; intros fuel Hfuel Hj; (destruct fuel as [|fuel]; [lia|]);
    rewrite (shortest_step c D _ fuel Hc (Hfrom _ Hj) Hj).
  - change (10 ^ Z.of_nat 0) with 1. rewrite Z.mod_1_r. cbn [Z.eqb].
    apply (Hdone 0%nat Hj). change (10 ^ Z.of_nat 0) with 1. apply Z.mod_1_r.
  - destruct (Z.eqb_spec (c mod 10 ^ Z.of_nat (S j)) 0) as [E|E].
    + now apply Hdone.
    + replace (D - Z.of_nat (S j) + 1) with (D - Z.of_nat j) by lia.
      apply IH; lia.
Qed.

(** An integer of ordinary size is rendered as its decimal numeral. *)
Lemma numberToString_integer (n : Z) :
  Z.abs n < 10 ^ 15 -> numberToString (inject_Z n) = toString n.
Proof.
  intros Hn. assert (Hbig : 10 ^ 15 < 2 ^ 53) by reflexivity.
  unfold numberToString. rewrite fl_integer by lia.
  destruct n as [|p|p]; [reflexivity| |].
  - assert (Hc : 0 < Z.pos p < 10 ^ 15) by lia.
    change (Qeq_bool (inject_Z (Z.pos p)) 0) with false.
    change (Qabs (inject_Z (Z.pos p))) with (inject_Z (Z.pos p)).
    change (Qltb (inject_Z (Z.pos p)) 0) with false. cbv iota.
    assert (Hone : Qle_bool 1 (inject_Z (Z.pos p)) = true).
    { apply Qle_bool_iff. change 1%Q with (inject_Z 1). rewrite <- Zle_Qle. lia. }
    unfold decimalExponent. rewrite Hone, Qfloor_Z.
    pose proof (shortest_integer (Z.pos p) Hc) as S. cbv zeta in S.
    destruct (toString_size (Z.pos p) ltac:(lia)) as [HD [Hlow Hup]].
    set (D := Z.of_nat (String.length (toString (Z.pos p)))) in *.
    assert (HD15 : D <= 15).
    { destruct (Z_le_gt_dec D 15) as [H|H]; [exact H|].
      assert (10 ^ 15 <= 10 ^ (D - 1)) by (apply Z.pow_le_mono_r; lia). lia. }
    specialize (S (Z.to_nat (D - 1)) 17%nat ltac:(lia) ltac:(lia)).
    replace (D - Z.of_nat (Z.to_nat (D - 1))) with 1 in S by lia.
    destruct (shortest 17 1 (inject_Z (Z.pos p)) D) as [s k]. exact S.
  - assert (Hc : 0 < Z.pos p < 10 ^ 15) by lia.
    change (Qeq_bool (inject_Z (Z.neg p)) 0) with false.
    change (Qabs (inject_Z (Z.neg p))) with (inject_Z (Z.pos p)).
    change (Qltb (inject_Z (Z.neg p)) 0) with true. cbv iota.
    assert (Hone : Qle_bool 1 (inject_Z (Z.pos p)) = true).
    { apply Qle_bool_iff. change 1%Q with (inject_Z 1). rewrite <- Zle_Qle. lia. }
    unfold decimalExponent. rewrite Hone, Qfloor_Z.
    pose proof (shortest_integer (Z.pos p) Hc) as S. cbv zeta in S.
    destruct (toString_size (Z.pos p) ltac:(lia)) as [HD [Hlow Hup]].
    set (D := Z.of_nat (String.length (toString (Z.pos p)))) in *.
    assert (HD15 : D <= 15).
    { destruct (Z_le_gt_dec D 15) as [H|H]; [exact H|].
      assert (10 ^ 15 <= 10 ^ (D - 1)) by (apply Z.pow_le_mono_r; lia). lia. }
    specialize (S (Z.to_nat (D - 1)) 17%nat ltac:(lia) ltac:(lia)).
    replace (D - Z.of_nat (Z.to_nat (D - 1))) with 1 in S by lia.
    destruct (shortest 17 1 (inject_Z (Z.pos p)) D) as [s k]. rewrite S. reflexivity.
Qed.

End NumbersAsStrings.

(** ** Overlay placement *)

Section OverlayPlacement.

Lemma lacks_numeral (c : ascii) (d : Decimal.uint) :
  isDigit c = false -> lacks c (NilEmpty.string_of_uint d) = true.
Proof.
  intros Hc. induction d; cbn [lacks NilEmpty.string_of_uint]; try reflexivity;
    rewrite IHd, andb_true_r;
    match goal with
    | |- context [Ascii.eqb ?a c] =>
        destruct (Ascii.eqb_spec a c) as [<- | _]; [discriminate Hc | reflexivity]
    end.
Qed.

Lemma lacks_toString (n : Z) : lacks "p" (toString n) = true.
Proof.
  destruct n; unfold toString; simpl; try reflexivity; now apply lacks_numeral.
Qed.

Lemma endsWith_suffix (s : string) (c : ascii) :
  endsWith (s ++ String c EmptyString) (String c EmptyString) = true.
Proof.
  induction s as [|d s IH]; simpl.
  - now rewrite Ascii.eqb_refl.
  - rewrite IH. apply orb_true_r.
Qed.

Lemma endsWith_lacks (s : string) (c : ascii) :
  lacks c s = true -> endsWith s (String c EmptyString) = false.
Proof.
  induction s as [|d s IH]; simpl; [reflexivity|].
  rewrite andb_true_iff, negb_true_iff. intros [Hd Hs].
  rewrite Hd, (IH Hs). reflexivity.
Qed.

Lemma replace_suffix (s : string) (c : ascii) :
  lacks c s = true -> replace (s ++ String c EmptyString) (String c EmptyString) "" = s.
Proof.
  induction s as [|d s IH]; simpl.
  - now rewrite Ascii.eqb_refl.
  - rewrite andb_true_iff, negb_true_iff. intros [Hd Hs].
    rewrite Ascii.eqb_sym, Hd. simpl. now rewrite (IH Hs).
Qed.

Lemma calcOverlaySizeOption_percent (pct imageSize overlaySize : Z) :
  calcOverlaySizeOption (Some (SizeString (toString pct ++ "p"))) imageSize overlaySize
  = Some (Qfloor (percentOffset imageSize pct overlaySize)).
Proof.
  unfold calcOverlaySizeOption, percentOffset.
  rewrite endsWith_suffix, (@replace_suffix _ _ (lacks_toString pct)), parseInt_toString.
  reflexivity.
Qed.

Lemma calcOverlaySizeOption_plain (n imageSize overlaySize : Z) :
  calcOverlaySizeOption (Some (SizeString (toString n))) imageSize overlaySize
  = Some (plainOffset imageSize n overlaySize).
Proof.
  unfold calcOverlaySizeOption, plainOffset.
  rewrite (@endsWith_lacks _ _ (lacks_toString n)), parseInt_toString. reflexivity.
Qed.

Lemma lacks_app (c : ascii) (s t : string) :
  lacks c (s ++ t) = lacks c s && lacks c t.
Proof.
  induction s as [|d s IH]; simpl; [reflexivity|]. now rewrite IH, andb_assoc.
Qed.

Lemma digitValue_other (c : ascii) : isDigit c = false -> digitValue 10 c = None.
Proof.
  destruct c as [[] [] [] [] [] [] [] []]; intros H; try discriminate H; reflexivity.
Qed.

(** [parseInt] reads the digits and stops at what follows them. *)
Lemma parseDigits_numeral (d : Decimal.uint) (tail : string) :
  match tail with
  | EmptyString => True
  | String c _ => isDigit c = false
  end ->
  forall acc : Z,
    parseDigits 10 (Some acc) (NilEmpty.string_of_uint d ++ tail) = Some (uintValue acc d).
Proof.
  intros Htail. induction d; intros acc; cbn [NilEmpty.string_of_uint append uintValue];
    try (cbn [parseDigits]; unfold digitValue; simpl; apply IHd).
  destruct tail as [|c tail]; [reflexivity|].
  cbn [parseDigits]. now rewrite (digitValue_other _ Htail).
Qed.

Lemma afterDigits_inv (tail : string) :
  afterDigits tail = true ->
  lacks "p" tail = true
  /\ match tail with
     | EmptyString => True
     | String c _ => isDigit c = false /\ c <> "x"%char /\ c <> "X"%char
     end.
Proof.
  unfold afterDigits. rewrite andb_true_iff. intros [Hp H]. split; [exact Hp|].
  destruct tail as [|c tail]; [exact I|].
  rewrite !andb_true_iff, !negb_true_iff in H. destruct H as [[Hd Hx] HX].
  repeat split; [exact Hd | |]; intros ->; discriminate.
Qed.

(** An unsigned numeral followed by [tail], as [parseInt] sees it: no white
    space, no sign, no radix prefix, then the digits. *)
Lemma parseInt_unsigned (d : Decimal.uint) (tail : string) :
  d <> Decimal.Nil -> afterDigits tail = true ->
  parseInt (NilEmpty.string_of_uint d ++ tail) = Some (uintValue 0 d)
  /\ parseInt ("+" ++ NilEmpty.string_of_uint d ++ tail) = Some (uintValue 0 d)
  /\ parseInt ("-" ++ NilEmpty.string_of_uint d ++ tail) = Some (- uintValue 0 d).
Proof.
  intros Hd Htail. apply afterDigits_inv in Htail as [_ Htail].
  assert (Hstop : match tail with
                  | EmptyString => True
                  | String c _ => isDigit c = false
                  end) by (destruct tail; [exact I | apply Htail]).
  assert (Hdigits : parseDigits 10 None (NilEmpty.string_of_uint d ++ tail)
                    = Some (uintValue 0 d)).
  { destruct d; try congruence; cbn [NilEmpty.string_of_uint append parseDigits uintValue];
      unfold digitValue; simpl; now apply parseDigits_numeral. }
  assert (Hx : startsWith (NilEmpty.string_of_uint d ++ tail) "0x"
               || startsWith (NilEmpty.string_of_uint d ++ tail) "0X" = false).
  { destruct d as [|d|d|d|d|d|d|d|d|d|d]; try reflexivity; try congruence.
    destruct d; try reflexivity.
    destruct tail as [|c tail]; [reflexivity|]. destruct Htail as (_ & Hc & HC).
    cbn [NilEmpty.string_of_uint append startsWith].
    change (Ascii.eqb "0" "0") with true. cbn [andb].
    rewrite !andb_true_r.
    destruct (Ascii.eqb_spec "x" c) as [<-|_]; [congruence|].
    destruct (Ascii.eqb_spec "X" c) as [<-|_]; [congruence | reflexivity]. }
  assert (Hplain : parseInt (NilEmpty.string_of_uint d ++ tail) = Some (uintValue 0 d)).
  { unfold parseInt.
    destruct d as [|d|d|d|d|d|d|d|d|d|d]; try congruence;
      cbn [NilEmpty.string_of_uint append trimStart] in *;
      match goal with
      | |- context [isWhiteSpace ?c] => change (isWhiteSpace c) with false
      end; cbv iota; cbv beta iota zeta; rewrite Hx, Hdigits; f_equal; lia. }
  split; [exact Hplain|]. unfold parseInt.
  split; cbn [append trimStart];
    match goal with
    | |- context [isWhiteSpace ?c] => change (isWhiteSpace c) with false
    end; cbv beta iota zeta; rewrite Hx, Hdigits; f_equal; lia.
Qed.

Lemma parseInt_written (sign : string) (unit : Z) (d : Decimal.uint) (tail : string) :
  signValue sign = Some unit -> d <> Decimal.Nil -> afterDigits tail = true ->
  parseInt (sign ++ NilEmpty.string_of_uint d ++ tail) = Some (unit * uintValue 0 d)
  /\ lacks "p" (sign ++ NilEmpty.string_of_uint d ++ tail) = true.
Proof.
  intros Hsign Hd Htail.
  destruct (parseInt_unsigned d tail Hd Htail) as (Hnone & Hplus & Hminus).
  assert (Hp : lacks "p" (NilEmpty.string_of_uint d ++ tail) = true).
  { rewrite lacks_app, (lacks_numeral "p" d eq_refl).
    now apply afterDigits_inv in Htail as [-> _]. }
  unfold signValue in Hsign.
  destruct (String.eqb_spec sign "") as [-> | _].
  { injection Hsign as <-. split; [|exact Hp]. cbn [append]. rewrite Hnone. f_equal; lia. }
  destruct (String.eqb_spec sign "+") as [-> | _].
  { injection Hsign as <-. split; [|exact Hp]. rewrite Hplus. f_equal; lia. }
  destruct (String.eqb_spec sign "-") as [-> | _]; [|discriminate Hsign].
  injection Hsign as <-. split; [|exact Hp]. rewrite Hminus. f_equal; lia.
Qed.

(** C7, as amended.  Of a placement value only the integer it starts with
    counts: an optional sign and decimal digits, followed by nothing or by
    a part without [p] that starts with neither a digit nor [x] (the
    fraction of a decimal, say), which is dropped.  Suffixed [p] that
    integer is a percentage of the base dimension and resolves to the floor
    of [baseDim * pct / 100], and for a negative percentage, measured from
    the far edge, to the floor of
    [baseDim + baseDim * pct / 100 - overlayDim].  Without the suffix it is
    an offset in pixels and a negative one resolves to
    [baseDim + rawOffset - overlayDim]; so does an integer given as a
    number.  The same holds of the value written as its plain numeral.
    ["-10p"] on a base of 100 with an overlay of 20 resolves to 70.
    Dimensions are pixel counts and the value is of ordinary size. *)
Theorem calcOverlaySizeOption_far_edge :
  forall (sign : string) (unit : Z) (digits : Decimal.uint) (tail : string)
         (imageSize overlaySize : Z),
    signValue sign = Some unit -> digits <> Decimal.Nil -> afterDigits tail = true ->
    pixelCount imageSize -> pixelCount overlaySize ->
    ordinaryValue (unit * uintValue 0 digits) ->
    let value := unit * uintValue 0 digits in
    let written := sign ++ NilEmpty.string_of_uint digits ++ tail in
    calcOverlaySizeOption (Some (SizeString (written ++ "p"))) imageSize overlaySize
    = Some (Qfloor (percentOffset imageSize value overlaySize))
    /\ calcOverlaySizeOption (Some (SizeString written)) imageSize overlaySize
       = Some (plainOffset imageSize value overlaySize)
    /\ calcOverlaySizeOption (Some (SizeNumber (inject_Z value))) imageSize overlaySize
       = Some (plainOffset imageSize value overlaySize)
    /\ calcOverlaySizeOption (Some (SizeString (toString value ++ "p"))) imageSize overlaySize
       = Some (Qfloor (percentOffset imageSize value overlaySize))
    /\ calcOverlaySizeOption (Some (SizeString (toString value))) imageSize overlaySize
       = Some (plainOffset imageSize value overlaySize)
    /\ calcOverlaySizeOption (Some (SizeString "-10p")) 100 20 = Some 70.
Proof.
  intros sign unit digits tail imageSize overlaySize Hsign Hdigits Htail _ _ Hvalue
         value written.
  destruct (parseInt_written sign unit digits tail Hsign Hdigits Htail) as [Hparse Hp].
  fold written in Hparse, Hp. fold value in Hparse.
  split; [|split; [|split; [|split; [apply calcOverlaySizeOption_percent|
                                     split; [apply calcOverlaySizeOption_plain|reflexivity]]]]].
  - unfold calcOverlaySizeOption, percentOffset.
    now rewrite endsWith_suffix, (replace_suffix _ _ Hp), Hparse.
  - unfold calcOverlaySizeOption, plainOffset.
    now rewrite (endsWith_lacks _ _ Hp), Hparse.
  - unfold calcOverlaySizeOption, plainOffset.
    assert (Hsmall : Z.abs value < 10 ^ 15).
    { unfold ordinaryValue in Hvalue. fold value in Hvalue.
      change (2 ^ 15) with 32768 in Hvalue. change (10 ^ 15) with 1000000000000000. lia. }
    rewrite (numberToString_integer value Hsmall).
    now rewrite (endsWith_lacks _ _ (lacks_toString value)), parseInt_toString.
Qed.

(** C7 as stated fails where the percentage offset is not an integer:
    ["-10p"] on a base of 101 with an overlay of 20 resolves to 70, while
    [101 + 101 * (-10) / 100 - 20] is 70.9. *)
Lemma calcOverlaySizeOption_floor_counterexample :
  calcOverlaySizeOption (Some (SizeString "-10p")) 101 20 = Some 70
  /\ (percentOffset 101 (-10) 20 == 709 # 10)%Q
  /\ ~ (inject_Z 70 == percentOffset 101 (-10) 20)%Q.
Proof.
  split; [reflexivity|]. split; [reflexivity|]. intros H. discriminate H.
Qed.

End OverlayPlacement.

(** ["-10.5p"] on a base of 200 with an overlay of 20 is minus ten percent,
    measured from the far edge; the number -10 is ten pixels from it. *)
Lemma calcOverlaySizeOption_far_edge_witness :
  calcOverlaySizeOption (Some (SizeString "-10.5p")) 200 20 = Some 160
  /\ calcOverlaySizeOption (Some (SizeNumber (-10))) 200 20 = Some 170.
Proof.
  destruct (calcOverlaySizeOption_far_edge "-" (-1) (Decimal.D1 (Decimal.D0 Decimal.Nil))
              ".5" 200 20 eq_refl) as (Hpercent & _ & Hnumber & _ & _ & _).
  - discriminate.
  - reflexivity.
  - unfold pixelCount; simpl; lia.
  - unfold pixelCount; simpl; lia.
  - unfold ordinaryValue; simpl; lia.
  - split; [exact Hpercent | exact Hnumber].
Defined.

(** A fraction is dropped before the formula applies, so minus a half
    percent is no percent at all; a number from [1e21] is rendered with an
    exponent and only its first digit is read; a word resolves to
    nothing. *)
Example calcOverlaySizeOption_examples :
  calcOverlaySizeOption (Some (SizeString "10.5p")) 200 20 = Some 20
  /\ calcOverlaySizeOption (Some (SizeString "-0.5p")) 200 20 = Some 0
  /\ calcOverlaySizeOption (Some (SizeNumber (21 # 2))) 200 20 = Some 10
  /\ calcOverlaySizeOption (Some (SizeNumber (inject_Z (10 ^ 21)))) 200 20 = Some 1
  /\ calcOverlaySizeOption (Some (SizeString "left")) 200 20 = None.
Proof. repeat split; vm_compute; reflexivity. Qed.

(** ** Overlay sizing and opacity *)

Section OverlaySizing.

Lemma toString_injective (m n : Z) : toString m = toString n -> m = n.
Proof.
  intros H. pose proof (parseInt_toString m) as Hm.
  rewrite H, parseInt_toString in Hm. congruence.
Qed.

Lemma percentages_range (n : Z) : In n percentages <-> 0 <= n <= 100.
Proof.
  unfold percentages. rewrite in_map_iff. split.
  - intros [k [<- Hk]]. apply in_seq in Hk. lia.
  - intros H. exists (Z.to_nat n). split; [lia | apply in_seq; lia].
Qed.

(** [percentage s] is the integer in [0,100] written [s]. *)
Lemma percentage_iff (s : string) (n : Z) :
  percentage s = Some n <-> 0 <= n <= 100 /\ s = toString n.
Proof.
  unfold percentage. split.
  - intros H. apply find_some in H as [Hin Heq].
    apply String.eqb_eq in Heq. now rewrite <- percentages_range.
  - intros [Hn ->]. apply percentages_range in Hn.
    destruct (find (fun k => String.eqb (toString n) (toString k)) percentages) as [m|] eqn:E.
    + apply find_some in E as [_ E]. apply String.eqb_eq, toString_injective in E.
      now subst.
    + apply (find_none _ _ E) in Hn. now rewrite String.eqb_refl in Hn.
Qed.

Lemma isDigit_cases (c : ascii) :
  isDigit c = true ->
  In c ["0"; "1"; "2"; "3"; "4"; "5"; "6"; "7"; "8"; "9"]%char.
Proof.
  destruct c as [[] [] [] [] [] [] [] []]; intros H; try discriminate H;
    simpl; tauto.
Qed.

Lemma isNonZeroDigit_cases (c : ascii) :
  isNonZeroDigit c = true ->
  In c ["1"; "2"; "3"; "4"; "5"; "6"; "7"; "8"; "9"]%char.
Proof.
  destruct c as [[] [] [] [] [] [] [] []]; intros H; try discriminate H;
    simpl; tauto.
Qed.

(** The strings the pattern accepts are the numerals of 0..100, and
    [parseInt] reads such a numeral back. *)
Lemma zeroToHundred_accepts (s : string) :
  zeroToHundred s = true -> exists n, percentage s = Some n /\ parseInt s = Some n.
Proof.
  unfold zeroToHundred. rewrite orb_true_iff. intros [H | H].
  - apply String.eqb_eq in H. subst. exists 100. split; reflexivity.
  - destruct s as [|c [|d [|e s]]]; try discriminate H.
    + apply isDigit_cases in H. simpl in H.
      repeat (destruct H as [<- | H]; [eexists; split; vm_compute; reflexivity|]).
      contradiction.
    + apply andb_true_iff in H as [Hc Hd].
      apply isNonZeroDigit_cases in Hc. apply isDigit_cases in Hd. simpl in Hc, Hd.
      repeat (destruct Hc as [<- | Hc];
              [repeat (destruct Hd as [<- | Hd];
                       [eexists; split; vm_compute; reflexivity|]);
               contradiction|]).
      contradiction.
Qed.

Lemma zeroToHundred_rejects (s : string) :
  zeroToHundred s = false -> percentage s = None.
Proof.
  intros H. destruct (percentage s) as [n|] eqn:E; [|reflexivity].
  apply percentage_iff in E as [Hn ->]. apply percentages_range in Hn.
  assert (Hall : forallb (fun k => zeroToHundred (toString k)) percentages = true)
    by (vm_compute; reflexivity).
  rewrite forallb_forall in Hall. rewrite (Hall n Hn) in H. discriminate H.
Qed.

Lemma ratioDimension_constrainedTo (size : Z) (ratio : string) :
  ratioDimension size ratio = constrainedTo size ratio.
Proof.
  unfold ratioDimension, constrainedTo.
  destruct (zeroToHundred ratio) eqn:E.
  - apply zeroToHundred_accepts in E as [n [-> ->]]. reflexivity.
  - now rewrite (zeroToHundred_rejects _ E).
Qed.

Lemma alphaValue_percentage (alpha : string) :
  alphaValue alpha = match percentage alpha with Some a => a | None => 0 end.
Proof.
  unfold alphaValue. destruct (zeroToHundred alpha) eqn:E.
  - apply zeroToHundred_accepts in E as [n [-> ->]]. reflexivity.
  - now rewrite (zeroToHundred_rejects _ E).
Qed.

(** The mask byte of every alpha from 0 to 100 is within one step below
    [255 * (100 - alpha) / 100]. *)
Lemma mask_bytes (a : Z) :
  0 <= a <= 100 ->
  rendersOpacity
    (toUint8 (multiply 255 (subtract 1 (divide (inject_Z a) 100))))
    ((100 - inject_Z a) / 100).
Proof.
  intros Ha. apply percentages_range in Ha.
  assert (Hall : forallb
                   (fun a =>
                      let b := toUint8 (multiply 255 (subtract 1 (divide (inject_Z a) 100))) in
                      let o := ((100 - inject_Z a) / 100)%Q in
                      Qle_bool (255 * o - 1) (inject_Z (byteValue b))
                      && Qle_bool (inject_Z (byteValue b)) (255 * o))
                   percentages = true)
    by (vm_compute; reflexivity).
  rewrite forallb_forall in Hall. specialize (Hall a Ha). cbv zeta in Hall.
  apply andb_true_iff in Hall as [Hlow Hhigh].
  split; now apply Qle_bool_iff.
Qed.

(** The mask byte is the floor of [255 * (100 - alpha) / 100], but for
    alpha 80: there the product of the code falls just short of 51. *)
Lemma mask_bytes_exact (a : Z) :
  0 <= a <= 100 ->
  byteValue (toUint8 (multiply 255 (subtract 1 (divide (inject_Z a) 100))))
  = Qfloor (255 * ((100 - inject_Z a) / 100)) - (if a =? 80 then 1 else 0).
Proof.
  intros Ha. apply percentages_range in Ha.
  assert (Hall : forallb
                   (fun a =>
                      byteValue (toUint8 (multiply 255 (subtract 1 (divide (inject_Z a) 100))))
                      =? Qfloor (255 * ((100 - inject_Z a) / 100))
                         - (if a =? 80 then 1 else 0))
                   percentages = true)
    by (vm_compute; reflexivity).
  rewrite forallb_forall in Hall. now apply Z.eqb_eq, Hall.
Qed.

Context {engine : ImageEngine} {s3Client : S3Client} {config : Configuration}.

(** C9, as amended.  For an allowed bucket, [getOverlayImage] resizes the
    fetched overlay and masks it.  The width and the height of the resize
    are set independently: a ratio written as the numeral of an integer
    from 0 to 100 constrains its axis to [floor (baseDim * ratio / 100)],
    any other ratio leaves the axis unconstrained.  The alpha channel of
    the mask renders the opacity [(100 - alpha) / 100] of such an alpha to
    within one step of its 255: it is the floor of
    [255 * (100 - alpha) / 100], and one less for alpha 80, where the
    product of the code falls just short of 51.  It is 255 for alpha 0 and
    0 for alpha 100; any other alpha gives 255, fully opaque, as alpha 0
    does.  Dimensions are pixel counts. *)
Theorem getOverlayImage_ratios_and_alpha :
  forall (allowed : list string) (bucket key wRatio hRatio alpha : string)
         (sourceImageMetadata : Metadata) (body : S3Body) (imageBuffer : Buffer),
    getAllowedSourceBuckets = Ok allowed -> In bucket allowed ->
    getObject bucket key = Ok body -> bytesOf body = Ok imageBuffer ->
    pixelCount (md_width sourceImageMetadata) ->
    pixelCount (md_height sourceImageMetadata) ->
    exists a : Byte.byte,
      getOverlayImage bucket key wRatio hRatio alpha sourceImageMetadata
      = try_catch
          (resized <- call (sharp imageBuffer None)
                        (OpResize (mkResize
                                     (constrainedTo (md_width sourceImageMetadata) wRatio)
                                     (constrainedTo (md_height sourceImageMetadata) hRatio)
                                     (Some INSIDE) None)) ;;
           masked <- call resized (OpComposite [opacityMask a]) ;;
           '(data, _) <- toBuffer masked ;;
           Ok data)
          (fun error => handleError error (Domain OverlayImageException) [])
      /\ rendersOpacity a (opacity alpha)
      /\ (forall n : Z,
             percentage alpha = Some n ->
             byteValue a = Qfloor (255 * opacity alpha) - (if n =? 80 then 1 else 0))
      /\ (percentage alpha = None \/ percentage alpha = Some 0 -> a = Byte.xff)
      /\ (percentage alpha = Some 100 -> a = Byte.x00)
      /\ (forall (s : string) (n : Z),
             percentage s = Some n <-> 0 <= n <= 100 /\ s = toString n).
Proof.
  intros allowed bucket key wRatio hRatio alpha md body imageBuffer
         Hallowed Hin Hfetch Hbytes _ _.
  exists (toUint8 (maskAlpha alpha)).
  split; [|split; [|split; [|split; [|split; [|exact percentage_iff]]]]].
  - unfold getOverlayImage. rewrite Hallowed. cbn [bind].
    assert (E : existsb (String.eqb bucket) allowed = true).
    { apply existsb_exists. exists bucket. split; [exact Hin | apply String.eqb_refl]. }
    rewrite E, Hfetch. cbn [negb bind].
    assert (Hbody : match body with
                    | BodyBuffer b => Ok b
                    | BodyStream bytes => bytes
                    end = Ok imageBuffer) by exact Hbytes.
    rewrite Hbody. cbn [bind].
    unfold overlayPipeline, overlayResizeOptions.
    rewrite !ratioDimension_constrainedTo.
    change (alphaMask alpha) with (opacityMask (toUint8 (maskAlpha alpha))).
    destruct (call (sharp imageBuffer None) _) as [resized|t]; [|reflexivity].
    cbn [bind]. destruct (call resized _) as [masked|t]; reflexivity.
  - unfold maskAlpha, opacity. rewrite alphaValue_percentage.
    destruct (percentage alpha) as [n|] eqn:E.
    + apply percentage_iff in E as [Hn _]. now apply mask_bytes.
    + split; vm_compute; discriminate.
  - intros n E. unfold maskAlpha, opacity. rewrite alphaValue_percentage, E.
    apply percentage_iff in E as [Hn _]. now apply mask_bytes_exact.
  - unfold maskAlpha. rewrite alphaValue_percentage. intros [-> | ->]; reflexivity.
  - unfold maskAlpha. rewrite alphaValue_percentage. intros ->. reflexivity.
Qed.

End OverlaySizing.

(** An overlay of half the width of a 200 by 100 base, of unconstrained
    height, with alpha 80. *)
Lemma getOverlayImage_ratios_and_alpha_witness :
  exists a : Byte.byte,
    @getOverlayImage Samples.stillEngine Samples.store Samples.settings
      "test-bucket" "logo.png" "50" "101" "80" (mkMetadata 200 100 None None None)
    = Ok [Byte.x01]
    /\ rendersOpacity a (opacity "80").
Proof.
  destruct (@getOverlayImage_ratios_and_alpha Samples.stillEngine Samples.store
              Samples.settings ["allowedBucket001"; "test-bucket"] "test-bucket" "logo.png"
              "50" "101" "80" (mkMetadata 200 100 None None None)
              (BodyBuffer [Byte.x01]) [Byte.x01] eq_refl)
    as (a & Hrun & Hopacity & _).
  - simpl; tauto.
  - reflexivity.
  - reflexivity.
  - unfold pixelCount; simpl; lia.
  - unfold pixelCount; simpl; lia.
  - exists a. split; [rewrite Hrun; reflexivity | exact Hopacity].
Defined.

(** C9 as stated fails for a value in [0,100] that is not written as the
    plain numeral of an integer.  ["050"] is 50 for [parseInt], and 50.5 is
    in range too, yet both are taken for out of range: the axis is left
    unconstrained where the claim gives it [floor (200 * 50 / 100)], and
    the mask is fully opaque where the claim gives it the opacity 1/2. *)
Lemma getOverlayImage_numeral_counterexample :
  parseInt "050" = Some 50
  /\ @overlayPipeline Samples.stillEngine [Byte.x01] "050" "50.5" "050"
       (mkMetadata 200 100 None None None)
     = Ok (mkSharp [Byte.x01] None
             [OpResize (mkResize None None (Some INSIDE) None);
              OpComposite [opacityMask Byte.xff]])
  /\ width (overlayResizeOptions "050" "50.5" (mkMetadata 200 100 None None None))
     <> Some (inject_Z (Qfloor (inject_Z 200 * inject_Z 50 / 100)))
  /\ ~ rendersOpacity (toUint8 (maskAlpha "050")) ((100 - inject_Z 50) / 100).
Proof.
  split; [reflexivity|]. split; [reflexivity|]. split; [discriminate|].
  intros [_ H]. vm_compute in H. apply H. reflexivity.
Qed.

(** Ratios and alphas at the edges of the range and outside it, on a base
    of 200 by 100; the mask byte of alpha 80 is 50 where the exact product
    is 51. *)
Example getOverlayImage_ratio_examples :
  let md := mkMetadata 200 100 None None None in
  overlayResizeOptions "50" "100" md = mkResize (Some 100%Q) (Some 100%Q) (Some INSIDE) None
  /\ overlayResizeOptions "101" "-1" md = mkResize None None (Some INSIDE) None
  /\ overlayResizeOptions "0" "abc" md = mkResize (Some 0%Q) None (Some INSIDE) None
  /\ toUint8 (maskAlpha "0") = Byte.xff
  /\ toUint8 (maskAlpha "100") = Byte.x00
  /\ toUint8 (maskAlpha "50") = Byte.x7f
  /\ toUint8 (maskAlpha "80") = Byte.x32
  /\ toUint8 (maskAlpha "150") = Byte.xff.
Proof. repeat split; vm_compute; reflexivity. Qed.

(** ** Round crop *)

Section RoundCrop.

(** With no parameters the ellipse is centred at [(width / 2, height / 2)]
    and both radii are [min (width, height) / 2]. *)
Lemma roundCropEllipse_defaults (width height : Z) :
  roundCropEllipse (mkRoundCrop None None None None) width height
  = mkEllipse (inject_Z (Z.min width height) / 2) (inject_Z (Z.min width height) / 2)
              (inject_Z height / 2) (inject_Z width / 2).
Proof. reflexivity. Qed.

(** Each parameter is overridden by an explicit positive value. *)
Lemma orDefault_positive (p default : Q) : (0 < p)%Q -> orDefault (Some p) default = p.
Proof.
  intros Hp. unfold orDefault, validRoundCropParam, truthy.
  assert (Hz : Qeq_bool p 0 = false).
  { destruct (Qeq_bool p 0) eqn:E; [|reflexivity].
    apply Qeq_bool_iff in E. rewrite E in Hp. now apply Qlt_irrefl in Hp. }
  assert (Hle : Qle_bool 0 p = true) by (apply Qle_bool_iff; now apply Qlt_le_weak).
  now rewrite Hz, Hle.
Qed.

(** C8, the behaviour of the code at an explicit zero: [validRoundCropParam]
    takes 0 for an absent parameter, so an ellipse requested with
    [top = 0] and [left = 0] is centred at [(width / 2, height / 2)] all the
    same, and radii of 0 become [min (width, height) / 2]. *)
Theorem roundCropEllipse_zero_is_ignored :
  forall (width height : Z),
    validRoundCropParam (Some 0%Q) = false
    /\ roundCropEllipse (mkRoundCrop (Some 0%Q) (Some 0%Q) (Some 0%Q) (Some 0%Q)) width height
       = roundCropEllipse (mkRoundCrop None None None None) width height
    /\ roundCropEllipse (mkRoundCrop (Some 0%Q) (Some 0%Q) (Some 10%Q) (Some 10%Q)) 100 50
       = mkEllipse 10 10 (inject_Z 50 / 2) (inject_Z 100 / 2).
Proof. intros width height. repeat split; reflexivity. Qed.

End RoundCrop.

(** ** Bucket resolution *)

Section BucketResolution.

Import ImageRequest.

Variable AllowedBucketSet : list string.

Lemma isAllowed_iff (name : string) :
  isAllowed AllowedBucketSet name = true <-> In name AllowedBucketSet.
Proof.
  unfold isAllowed. rewrite existsb_exists. split.
  - intros [x [Hin Heq]]. apply String.eqb_eq in Heq. now subst.
  - intros Hin. exists name. split; [exact Hin | apply String.eqb_refl].
Qed.

Lemma isAllowed_false (name : string) :
  ~ In name AllowedBucketSet -> isAllowed AllowedBucketSet name = false.
Proof.
  intros H. destruct (isAllowed AllowedBucketSet name) eqn:E; [|reflexivity].
  now apply isAllowed_iff in E.
Qed.

(** The names of the [s3:] segments of a list of segments. *)
Lemma s3_names_in (segments : list string) (name : string) :
  In name (map (drop 3) (filter (fun segment => startsWith segment "s3:") segments))
  <-> In ("s3:" ++ name) segments.
Proof.
  rewrite in_map_iff. split.
  - intros [segment [Hname Hin]]. apply filter_In in Hin as [Hin Hs3].
    apply startsWith_iff in Hs3 as [rest ->]. simpl in Hname. now subst.
  - intros Hin. exists ("s3:" ++ name). split; [reflexivity|].
    apply filter_In. split; [exact Hin | reflexivity].
Qed.

Lemma s3Segments_app (path : string) (before after : list string) (segment : string) :
  split "/" path = (before ++ segment :: after)%list ->
  s3Segments path
  = (map (drop 3) (filter (fun s => startsWith s "s3:") before)
     ++ map (drop 3) (filter (fun s => startsWith s "s3:") (segment :: after)))%list.
Proof.
  intros H. unfold s3Segments. now rewrite H, filter_app, map_app.
Qed.

Lemma find_after_rejected (names rest : list string) (B : string) :
  (forall X, In X names -> ~ In X AllowedBucketSet) ->
  In B AllowedBucketSet ->
  find (isAllowed AllowedBucketSet) (names ++ B :: rest)%list = Some B.
Proof.
  intros Hnames HB. induction names as [|x names IH]; simpl.
  - now rewrite (proj2 (isAllowed_iff B) HB).
  - rewrite (isAllowed_false _ (Hnames x (or_introl eq_refl))).
    apply IH. intros X HX. apply Hnames. now right.
Qed.

Lemma find_only_allowed (names : list string) (B : string) :
  In B names -> In B AllowedBucketSet ->
  (forall X, In X names -> X <> B -> ~ In X AllowedBucketSet) ->
  find (isAllowed AllowedBucketSet) names = Some B.
Proof.
  intros Hin HB Hothers. induction names as [|x names IH]; [contradiction|].
  simpl. destruct (string_dec x B) as [-> | Hx].
  - now rewrite (proj2 (isAllowed_iff B) HB).
  - rewrite (isAllowed_false _ (Hothers x (or_introl eq_refl) Hx)).
    apply IH.
    + destruct Hin as [-> | Hin]; [contradiction | exact Hin].
    + intros X HX. apply Hothers. now right.
Qed.

Lemma find_none_allowed (names : list string) :
  (forall X, In X names -> ~ In X AllowedBucketSet) ->
  find (isAllowed AllowedBucketSet) names = None.
Proof.
  intros H. induction names as [|x names IH]; [reflexivity|]. simpl.
  rewrite (isAllowed_false _ (H x (or_introl eq_refl))). apply IH.
  intros X HX. apply H. now right.
Qed.

(** C2.  For a THUMBOR or CUSTOM request the resolved bucket is the name of
    the first [s3:<name>] segment, in path order, whose name is in
    [AllowedBucketSet], also when [s3:] segments with other names come
    before it.  So a path with a segment [s3:B], [B] allowed, and any
    number of segments [s3:X], [X] not allowed, in any order, resolves to
    [B]; and a path without an allowed [s3:] segment resolves to the first
    configured entry of [AllowedBucketSet]. *)
Theorem parseImageBucket_first_allowed_segment :
  forall (path : string) (bodyBucket : option string) (requestType : RequestTypes),
    requestType = THUMBOR \/ requestType = CUSTOM ->
    (forall (before after : list string) (B : string),
        split "/" path = (before ++ ("s3:" ++ B)%string :: after)%list ->
        In B AllowedBucketSet ->
        (forall X, In ("s3:" ++ X) before -> ~ In X AllowedBucketSet) ->
        parseImageBucket AllowedBucketSet path bodyBucket requestType = Ok B)
    /\ (forall B : string,
           In ("s3:" ++ B) (split "/" path) ->
           In B AllowedBucketSet ->
           (forall X, In ("s3:" ++ X) (split "/" path) -> X <> B -> ~ In X AllowedBucketSet) ->
           parseImageBucket AllowedBucketSet path bodyBucket requestType = Ok B)
    /\ (forall (first : string) (others : list string),
           AllowedBucketSet = first :: others ->
           (forall X, In ("s3:" ++ X) (split "/" path) -> ~ In X AllowedBucketSet) ->
           parseImageBucket AllowedBucketSet path bodyBucket requestType = Ok first).
Proof.
  intros path bodyBucket requestType Htype.
  assert (E : parseImageBucket AllowedBucketSet path bodyBucket requestType
              = resolvePathBucket AllowedBucketSet path)
    by (destruct Htype as [-> | ->]; reflexivity).
  rewrite E. unfold resolvePathBucket. repeat split.
  - intros before after B Hsplit HB Hbefore.
    rewrite (s3Segments_app _ _ _ _ Hsplit). simpl filter. cbn [map].
    change (drop 3 ("s3:" ++ B)) with B.
    rewrite find_after_rejected; [reflexivity | | exact HB].
    intros X HX. apply Hbefore. now apply s3_names_in.
  - intros B Hin HB Hothers.
    rewrite (find_only_allowed (s3Segments path) B); [reflexivity | | exact HB |].
    + now apply s3_names_in.
    + intros X HX. apply Hothers. now apply s3_names_in.
  - intros first others HA Hnone.
    rewrite find_none_allowed.
    + now rewrite HA.
    + intros X HX. apply Hnone. now apply s3_names_in.
Qed.

End BucketResolution.

(** The paths of the test file [parse-image-bucket.spec.ts]. *)
Example parseImageBucket_tests :
  ImageRequest.parseImageBucket ["allowedBucket001"; "test-bucket"]
    "/s3:non-test-bucket/s3:test-bucket/test-image-001.jpg" None ImageRequest.THUMBOR
  = Ok "test-bucket"
  /\ ImageRequest.parseImageBucket ["allowedBucket001"; "allowedBucket002"]
       "/filters:grayscale()/s3:test-bucket/test-image-001.jpg" None ImageRequest.THUMBOR
     = Ok "allowedBucket001"
  /\ ImageRequest.parseImageBucket ["allowedBucket001"; "test-bucket"]
       "/s3:test-bucket/filters:grayscale()/test-image-001.jpg" None ImageRequest.THUMBOR
     = Ok "test-bucket"
  /\ ImageRequest.parseImageBucket ["allowedBucket001"; "test-bucket"]
       "/filters:grayscale()/test-image-001.jpg" None ImageRequest.CUSTOM
     = Ok "allowedBucket001".
Proof. repeat split; reflexivity. Qed.

(** The first part of the theorem on the path of the test "should only
    parse bucket-names in source_buckets". *)
Lemma parseImageBucket_first_allowed_segment_witness :
  ImageRequest.parseImageBucket ["allowedBucket001"; "test-bucket"]
    "/s3:non-test-bucket/s3:test-bucket/test-image-001.jpg" None ImageRequest.THUMBOR
  = Ok "test-bucket".
Proof.
  destruct (parseImageBucket_first_allowed_segment ["allowedBucket001"; "test-bucket"]
              "/s3:non-test-bucket/s3:test-bucket/test-image-001.jpg" None
              ImageRequest.THUMBOR (or_introl eq_refl)) as [Hfirst _].
  apply (Hfirst [""; "s3:non-test-bucket"] ["test-image-001.jpg"] "test-bucket").
  - reflexivity.
  - simpl; tauto.
  - intros X [H | [H | []]]; [discriminate H|].
    injection H as <-. simpl. intros [H | [H | []]]; discriminate H.
Defined.

(** ** The edit loop *)

Section EditLoop.

Context {engine : ImageEngine} {s3Client : S3Client}
        {rekognitionClient : RekognitionClient} {config : Configuration}.

Lemma bind_assoc {A B C : Type} (c : Result A) (f : A -> Result B) (g : B -> Result C) :
  bind (bind c f) g = bind c (fun a => bind (f a) g).
Proof. destruct c; reflexivity. Qed.

(** The loop visits the entries from left to right. *)
Lemma editLoop_app (edits : ImageEdits) (isAnimation : bool) (first second : list Edit) :
  forall image : Sharp,
    editLoop edits isAnimation image (first ++ second)%list
    = (image <- editLoop edits isAnimation image first ;;
       editLoop edits isAnimation image second).
Proof.
  induction first as [|e first IH]; intros image; simpl; [reflexivity|].
  destruct (applyEdit edits isAnimation image e) as [image'|t]; simpl;
    [apply IH | reflexivity].
Qed.

Lemma lookup_resize_at (before after : list Edit) (r : ResizeOptions) :
  lookup_resize before = None ->
  lookup_resize (before ++ EResize r :: after)%list = Some r.
Proof.
  induction before as [|e before IH]; simpl; [reflexivity|].
  destruct e; try discriminate; exact IH.
Qed.

Lemma set_resize_at (before after : list Edit) (r r' : ResizeOptions) :
  lookup_resize before = None ->
  set_resize (before ++ EResize r :: after)%list r'
  = (before ++ EResize r' :: after)%list.
Proof.
  induction before as [|e before IH]; simpl; [reflexivity|].
  destruct e; try discriminate; intros H; now rewrite (IH H).
Qed.

Lemma set_resize_absent (edits : ImageEdits) (r : ResizeOptions) :
  lookup_resize edits = None -> set_resize edits r = (edits ++ [EResize r])%list.
Proof.
  induction edits as [|e edits IH]; simpl; [reflexivity|].
  destruct e; try discriminate; intros H; now rewrite (IH H).
Qed.

Lemma skipEdit_resize (isAnimation : bool) : skipEdit "resize" isAnimation = false.
Proof. destruct isAnimation; reflexivity. Qed.

(** C1, as amended.  [applyEdits] first prepares the resize parameters
    (validation and ratio resolution, or the default [{fit: inside}] stored
    at the end of the mapping when the key is absent), wherever the key
    stands and before any edit is dispatched; a failure there ends the run.
    Every edit, resize included, is then dispatched in mapping order: the
    resize call reaches the engine after the edits that precede its key and
    before those that follow it; for a mapping without the key (here
    [before] alone) the default resize is dispatched last. *)
Theorem applyEdits_resize_in_mapping_order :
  forall (originalImage : Sharp) (before after : list Edit) (r : ResizeOptions)
         (isAnimation : bool),
    lookup_resize before = None ->
    applyEdits originalImage (before ++ EResize r :: after)%list isAnimation
    = (resize <- prepareResize originalImage r ;;
       let edits := (before ++ EResize resize :: after)%list in
       image <- editLoop edits isAnimation originalImage before ;;
       image <- (if allowlisted "resize" then call image (OpResize resize) else Ok image) ;;
       editLoop edits isAnimation image after)
    /\ applyEdits originalImage before isAnimation
       = (let edits := (before ++ [EResize defaultResize])%list in
          image <- editLoop edits isAnimation originalImage before ;;
          if allowlisted "resize" then call image (OpResize defaultResize) else Ok image).
Proof.
  intros originalImage before after r isAnimation Hbefore. split.
  - unfold applyEdits, applyResize. rewrite (lookup_resize_at _ _ _ Hbefore).
    rewrite bind_assoc. destruct (prepareResize originalImage r) as [resize|t]; simpl;
      [|reflexivity].
    rewrite (set_resize_at _ _ _ _ Hbefore), editLoop_app.
    destruct (editLoop _ isAnimation originalImage before) as [image|t]; simpl;
      [|reflexivity].
    unfold applyEdit. cbn [edit_key]. rewrite skipEdit_resize. cbn [dispatchEdit].
    destruct (allowlisted "resize"); reflexivity.
  - unfold applyEdits, applyResize. rewrite Hbefore. simpl bind.
    rewrite (set_resize_absent _ _ Hbefore), editLoop_app. cbv zeta.
    destruct (editLoop _ isAnimation originalImage before) as [image|t]; simpl;
      [|reflexivity].
    unfold applyEdit. cbn [edit_key]. rewrite skipEdit_resize. cbn [dispatchEdit].
    destruct (allowlisted "resize"); [destruct (call image _)|]; reflexivity.
Qed.

End EditLoop.

(** A rotation requested before a resize to width 100: the rotation is
    dispatched first. *)
Lemma applyEdits_resize_in_mapping_order_witness :
  @applyEdits Samples.stillEngine Samples.store Samples.detector Samples.settings
    Samples.handle [ERotate (RotateDegrees 90); EResize (mkResize (Some 100%Q) None None None)]
    false
  = Ok (mkSharp Samples.picture None
          [OpRotate 90; OpResize (mkResize (Some 100%Q) None None None)]).
Proof.
  destruct (@applyEdits_resize_in_mapping_order Samples.stillEngine Samples.store
              Samples.detector Samples.settings Samples.handle
              [ERotate (RotateDegrees 90)] [] (mkResize (Some 100%Q) None None None) false
              eq_refl) as [Hpresent _].
  simpl app in Hpresent. rewrite Hpresent. reflexivity.
Defined.

(** C1 as stated fails when the resize key is not the first key: for
    [{rotate: 90, resize: {width: 100}}] the first operation recorded is the
    rotation; with an allow-list that lacks [resize] no resize is recorded
    at all. *)
Lemma applyEdits_resize_first_counterexample :
  @applyEdits Samples.stillEngine Samples.store Samples.detector Samples.settings
    Samples.handle [ERotate (RotateDegrees 90); EResize (mkResize (Some 100%Q) None None None)]
    false
  = Ok (mkSharp Samples.picture None
          [OpRotate 90; OpResize (mkResize (Some 100%Q) None None None)])
  /\ ~ resizeAppliedFirst Samples.handle
       (@applyEdits Samples.stillEngine Samples.store Samples.detector Samples.settings
          Samples.handle
          [ERotate (RotateDegrees 90); EResize (mkResize (Some 100%Q) None None None)] false)
  /\ @applyEdits Samples.stillEngine Samples.store Samples.detector
       Samples.settingsWithoutResize Samples.handle
       [ERotate (RotateDegrees 90); EResize (mkResize (Some 100%Q) None None None)] false
     = Ok (mkSharp Samples.picture None [OpRotate 90]).
Proof.
  split; [reflexivity|]. split; [|reflexivity].
  intros (result & r & rest & Hrun & Hops).
  vm_compute in Hrun. injection Hrun as <-. discriminate Hops.
Qed.

(** ** Rotation *)

Section Rotation.

Context {engine : ImageEngine} {s3Client : S3Client}
        {rekognitionClient : RekognitionClient} {config : Configuration}.

Lemma lookup_rotate_at (before after : list Edit) (v : RotateArg) :
  lookup_rotate before = None ->
  lookup_rotate (before ++ ERotate v :: after)%list = Some v.
Proof.
  induction before as [|e before IH]; simpl; [reflexivity|].
  destruct e; try discriminate; exact IH.
Qed.

Lemma record_changes (image : Sharp) (op : Op) : record image op <> image.
Proof.
  intros H. apply (f_equal (fun i => List.length (ops i))) in H.
  simpl in H. rewrite length_app in H. simpl in H. lia.
Qed.

Lemma call_cases (image : Sharp) (op : Op) :
  call image op = Ok (record image op) \/ exists t, call image op = Throw t.
Proof.
  unfold call. destruct (rejects image op); [right; eexists | left]; reflexivity.
Qed.

(** C4, as amended.  When animated mode is not active the three states of
    [rotate] are pairwise different behaviours.  Requested without a value:
    the image keeps its metadata and the step records [autoOrient].
    Explicit [null]: the image is instantiated without metadata retention
    and the step issues nothing.  A number [n], 0 included: the image keeps
    its metadata and the step calls [rotate(n)]. *)
Theorem rotate_three_states_when_static :
  forall (originalImage : Buffer) (options : SharpOptions) (md : Metadata)
         (before after : list Edit) (edits : ImageEdits) (image : Sharp) (n : Q),
    lookup_rotate before = None ->
    metadata (sharp originalImage (Some options)) = Ok md ->
    let instantiate v :=
      instantiateSharpImage originalImage (Some (before ++ ERotate v :: after)%list) options in
    let step v := applyEdit edits false image (ERotate v) in
    (instantiate RotateUndefined
     = Ok (record (sharp originalImage (Some options)) OpWithMetadata)
     /\ step RotateUndefined = Ok (record image OpAutoOrient))
    /\ (instantiate RotateNull = Ok (sharp originalImage (Some options))
        /\ step RotateNull = Ok image)
    /\ (instantiate (RotateDegrees n)
        = Ok (record (sharp originalImage (Some options)) OpWithMetadata)
        /\ step (RotateDegrees n) = call image (OpRotate n))
    /\ (step RotateUndefined <> step RotateNull
        /\ step RotateNull <> step (RotateDegrees n)
        /\ step RotateUndefined <> step (RotateDegrees n)
        /\ instantiate RotateNull <> instantiate RotateUndefined
        /\ instantiate RotateNull <> instantiate (RotateDegrees n)).
Proof.
  intros originalImage options md before after edits image n Hbefore Hmd instantiate step.
  assert (Hkeep : forall v, v <> RotateNull ->
                    instantiate v
                    = Ok (record (sharp originalImage (Some options)) OpWithMetadata)).
  { intros v Hv. unfold instantiate, instantiateSharpImage, rotateIsNull.
    rewrite (lookup_rotate_at _ _ _ Hbefore), Hmd.
    destruct v; [reflexivity | contradiction | reflexivity]. }
  assert (Hstrip : instantiate RotateNull = Ok (sharp originalImage (Some options))).
  { unfold instantiate, instantiateSharpImage, rotateIsNull.
    now rewrite (lookup_rotate_at _ _ _ Hbefore). }
  assert (Hauto : step RotateUndefined = Ok (record image OpAutoOrient)) by reflexivity.
  assert (Hnone : step RotateNull = Ok image) by reflexivity.
  assert (Hdeg : step (RotateDegrees n) = call image (OpRotate n)) by reflexivity.
  repeat split; try assumption; try (apply Hkeep; discriminate).
  - rewrite Hauto, Hnone. intros H. injection H as H. now apply record_changes in H.
  - rewrite Hnone, Hdeg. destruct (call_cases image (OpRotate n)) as [-> | [t ->]];
      [|discriminate].
    intros H. injection H as H. symmetry in H. now apply record_changes in H.
  - rewrite Hauto, Hdeg. destruct (call_cases image (OpRotate n)) as [-> | [t ->]];
      [|discriminate].
    intros H. injection H as H. apply app_inv_head in H. discriminate H.
  - rewrite Hstrip, (Hkeep RotateUndefined) by discriminate. discriminate.
  - rewrite Hstrip, (Hkeep (RotateDegrees n)) by discriminate. discriminate.
Qed.

End Rotation.

(** The three states on a still image, each as the only edit. *)
Lemma rotate_three_states_when_static_witness :
  @editPipeline Samples.stillEngine Samples.store Samples.detector Samples.settings
    Samples.picture [ERotate RotateNull] None
  = Ok (mkSharp Samples.picture (Some (mkSharpOptions false false (LimitFlag true)))
          [OpResize defaultResize])
  /\ @applyEdit Samples.stillEngine Samples.store Samples.detector Samples.settings
       [ERotate (RotateDegrees 0)] false Samples.handle (ERotate (RotateDegrees 0))
     = @call Samples.stillEngine Samples.handle (OpRotate 0).
Proof.
  split; [reflexivity|].
  destruct (@rotate_three_states_when_static Samples.stillEngine Samples.store
              Samples.detector Samples.settings Samples.picture
              (mkSharpOptions false false (LimitFlag true))
              (mkMetadata 100 50 Samples.png (Some 1) None) [] []
              [ERotate (RotateDegrees 0)] Samples.handle 0%Q eq_refl eq_refl)
    as (_ & _ & [_ Hstep] & _).
  exact Hstep.
Defined.

(** C4 as stated fails in animated mode: on a source of three pages the
    rotate step is skipped, so [rotate] without a value and [rotate: 0]
    give the same pipeline, and [rotate: 90] issues no rotation. *)
Lemma rotate_states_animated_counterexample :
  @editPipeline Samples.movingEngine Samples.store Samples.detector Samples.settings
    Samples.picture [ERotate RotateUndefined] (Some ContentTypes.GIF)
  = @editPipeline Samples.movingEngine Samples.store Samples.detector Samples.settings
      Samples.picture [ERotate (RotateDegrees 0)] (Some ContentTypes.GIF)
  /\ @editPipeline Samples.movingEngine Samples.store Samples.detector Samples.settings
       Samples.picture [ERotate (RotateDegrees 90)] (Some ContentTypes.GIF)
     = Ok (mkSharp Samples.picture (Some (mkSharpOptions false true (LimitFlag true)))
             [OpWithMetadata; OpResize defaultResize]).
Proof. split; reflexivity. Qed.

(** ** Animated mode *)

Section Animated.

Context {engine : ImageEngine} {s3Client : S3Client}
        {rekognitionClient : RekognitionClient} {config : Configuration}.









(** The loop body reads the edits object for [edits.resize] only. *)
Lemma applyEdit_reads_resize (edits edits' : ImageEdits) (isAnimation : bool)
  (image : Sharp) (e : Edit) :
  lookup_resize edits = lookup_resize edits' ->
  applyEdit edits isAnimation image e = applyEdit edits' isAnimation image e.
Proof.
  intros H. unfold applyEdit. destruct (skipEdit (edit_key e) isAnimation); [reflexivity|].
  destruct e; try reflexivity. simpl. unfold applyOverlayWith. now rewrite H.
Qed.





End Animated.


(** On a source of three pages the skipped edits leave no trace: only the
    overlay-free edits [flip] and the default resize are recorded. *)
Example animated_skips_example :
  @editPipeline Samples.movingEngine Samples.store Samples.detector Samples.settings
    Samples.picture
    [ERotate (RotateDegrees 90); ESmartCrop (Flag true); EFilter "flip" (ArgBool true);
     ERoundCrop (Flag true); EContentModeration (Flag true)]
    (Some ContentTypes.GIF)
  = Ok (mkSharp Samples.picture (Some (mkSharpOptions false true (LimitFlag true)))
          [OpWithMetadata; OpFilter "flip" (ArgBool true); OpResize defaultResize]).
Proof. reflexivity. Qed.

(** * Further properties of the handler *)

Import Fixtures.

(** ** Resize parameters *)

Section ResizeParameters.

Lemma Qfloor_ge (x : Q) (n : Z) : (inject_Z n <= x)%Q -> n <= Qfloor x.
Proof.
  intros H. rewrite <- (Qfloor_Z n). now apply Qfloor_resp_le.
Qed.

Lemma Qfloor_lt (x : Q) (n : Z) : (x < inject_Z n)%Q -> Qfloor x < n.
Proof.
  intros H. pose proof (Qfloor_le x) as Hle.
  assert (Hq : (inject_Z (Qfloor x) < inject_Z n)%Q) by (eapply Qle_lt_trans; eassumption).
  now rewrite <- Zlt_Qlt in Hq.
Qed.

Lemma round_integer (z : Z) : round (inject_Z z) = z.
Proof.
  unfold round. apply Z.le_antisymm.
  - assert (H : Qfloor (inject_Z z + (1 # 2)) < z + 1); [|lia].
    apply Qfloor_lt. rewrite inject_Z_plus. change (inject_Z 1) with 1%Q. lra.
  - apply Qfloor_ge. lra.
Qed.

Lemma round_positive (q : Q) : (1 # 2 <= q)%Q <-> 0 < round q.
Proof.
  unfold round. split.
  - intros H. assert (1 <= Qfloor (q + (1 # 2))); [|lia].
    apply Qfloor_ge. change (inject_Z 1) with 1%Q. lra.
  - intros H. pose proof (Qfloor_le (q + (1 # 2))) as Hle.
    assert (Hq : (inject_Z 1 <= inject_Z (Qfloor (q + (1 # 2))))%Q)
      by (rewrite <- Zle_Qle; lia).
    change (inject_Z 1) with 1%Q in Hq. lra.
Qed.

Lemma truthy_iff (q : Q) : truthy (Some q) = true <-> ~ (q == 0)%Q.
Proof.
  unfold truthy. rewrite negb_true_iff. split.
  - intros H E. apply Qeq_bool_iff in E. congruence.
  - intros H. destruct (Qeq_bool q 0) eqn:E; [|reflexivity].
    apply Qeq_bool_iff in E. contradiction.
Qed.

Lemma nonPositive_integer (z : Z) : nonPositive (Some (inject_Z z)) = true <-> z <= 0.
Proof.
  unfold nonPositive. rewrite Qle_bool_iff. change 0%Q with (inject_Z 0).
  now rewrite <- Zle_Qle.
Qed.

(** What one size becomes, and whether it makes the validation fail. *)
Lemma roundIfTruthy_acceptable (x : option Q) :
  acceptableSize x ->
  roundIfTruthy x = rounded x /\ nonPositive (roundIfTruthy x) = false.
Proof.
  destruct x as [q|]; simpl; [|now split].
  intros Hq. assert (Ht : truthy (Some q) = true) by (apply truthy_iff; lra).
  unfold roundIfTruthy. rewrite Ht. split; [reflexivity|]. simpl option_map.
  destruct (nonPositive (Some (inject_Z (round q)))) eqn:E; [|reflexivity].
  apply nonPositive_integer in E. apply round_positive in Hq. lia.
Qed.

Lemma roundIfTruthy_rejected (x : option Q) :
  ~ acceptableSize x -> nonPositive (roundIfTruthy x) = true.
Proof.
  destruct x as [q|]; simpl; [|tauto]. intros Hq.
  unfold roundIfTruthy. destruct (truthy (Some q)) eqn:Ht; simpl option_map.
  - apply nonPositive_integer.
    destruct (Z_lt_le_dec 0 (round q)) as [Hr|Hr]; [|exact Hr].
    apply round_positive in Hr. contradiction.
  - unfold truthy in Ht. apply negb_false_iff, Qeq_bool_iff in Ht.
    unfold nonPositive. apply Qle_bool_iff. lra.
Qed.

Lemma acceptableSize_dec (x : option Q) : {acceptableSize x} + {~ acceptableSize x}.
Proof.
  destruct x as [q|]; simpl; [|now left].
  destruct (Qlt_le_dec q (1 # 2)) as [H|H]; [right; lra | now left].
Qed.

Lemma validateResizeInputs_pass (resize : ResizeOptions) :
  acceptableSize (width resize) -> acceptableSize (height resize) ->
  validateResizeInputs resize
  = Ok (mkResize (rounded (width resize)) (rounded (height resize))
                 (fit resize) (ratio resize)).
Proof.
  intros Hw Hh. unfold validateResizeInputs. cbn [width height].
  destruct (roundIfTruthy_acceptable _ Hw) as [-> ->].
  destruct (roundIfTruthy_acceptable _ Hh) as [-> ->]. reflexivity.
Qed.

Lemma validateResizeInputs_fail (resize : ResizeOptions) :
  ~ (acceptableSize (width resize) /\ acceptableSize (height resize)) ->
  validateResizeInputs resize = Throw (Domain InvalidResizeException).
Proof.
  intros H. unfold validateResizeInputs. cbn [width height].
  destruct (acceptableSize_dec (width resize)) as [Hw|Hw].
  - destruct (acceptableSize_dec (height resize)) as [Hh|Hh]; [tauto|].
    rewrite (roundIfTruthy_rejected _ Hh), orb_true_r. reflexivity.
  - rewrite (roundIfTruthy_rejected _ Hw). reflexivity.
Qed.

(** What a successful validation says about its argument and result. *)
Lemma validateResizeInputs_inv (resize validated : ResizeOptions) :
  validateResizeInputs resize = Ok validated ->
  acceptableSize (width resize) /\ acceptableSize (height resize)
  /\ validated = mkResize (rounded (width resize)) (rounded (height resize))
                          (fit resize) (ratio resize).
Proof.
  intros H.
  destruct (acceptableSize_dec (width resize)) as [Hw|Hw];
    [destruct (acceptableSize_dec (height resize)) as [Hh|Hh]|].
  - rewrite (validateResizeInputs_pass _ Hw Hh) in H. injection H as <-. now repeat split.
  - rewrite validateResizeInputs_fail in H by tauto. discriminate H.
  - rewrite validateResizeInputs_fail in H by tauto. discriminate H.
Qed.

(** X1.  [validateResizeInputs] draws the line at one half: a request passes
    exactly when each of its width and height is absent or at least 0.5,
    and it then comes back with both rounded to the nearest integer and the
    other fields untouched.  Anything else (0, a negative size, a size that
    rounds to 0) fails with [InvalidResizeException], and with no other
    error. *)
Theorem validateResizeInputs_threshold :
  forall resize : ResizeOptions,
    (acceptableSize (width resize) /\ acceptableSize (height resize) ->
     validateResizeInputs resize
     = Ok (mkResize (rounded (width resize)) (rounded (height resize))
                    (fit resize) (ratio resize)))
    /\ (~ (acceptableSize (width resize) /\ acceptableSize (height resize)) ->
        validateResizeInputs resize = Throw (Domain InvalidResizeException)).
Proof.
  intros resize. split.
  - intros [Hw Hh]. now apply validateResizeInputs_pass.
  - apply validateResizeInputs_fail.
Qed.

Lemma rounded_positiveInteger (x : option Q) :
  acceptableSize x -> positiveInteger (rounded x) /\ acceptableSize (rounded x)
                      /\ rounded (rounded x) = rounded x.
Proof.
  destruct x as [q|]; simpl; [|tauto]. intros Hq.
  pose proof (proj1 (round_positive q) Hq) as Hr. repeat split.
  - exists (round q). now split.
  - assert (Hone : (inject_Z 1 <= inject_Z (round q))%Q) by (rewrite <- Zle_Qle; lia).
    change (inject_Z 1) with 1%Q in Hone. lra.
  - now rewrite round_integer.
Qed.

(** X2.  A resize object that passed [validateResizeInputs] has a positive
    integer for each width or height it defines, keeps [fit] and [ratio],
    and passes the validation again unchanged. *)
Theorem validateResizeInputs_result :
  forall resize validated : ResizeOptions,
    validateResizeInputs resize = Ok validated ->
    positiveInteger (width validated) /\ positiveInteger (height validated)
    /\ fit validated = fit resize /\ ratio validated = ratio resize
    /\ validateResizeInputs validated = Ok validated.
Proof.
  intros resize validated H.
  apply validateResizeInputs_inv in H as (Hw & Hh & ->). cbn [width height fit ratio].
  destruct (rounded_positiveInteger _ Hw) as (Pw & Aw & Iw).
  destruct (rounded_positiveInteger _ Hh) as (Ph & Ah & Ih).
  repeat split; try assumption.
  rewrite validateResizeInputs_pass by assumption. cbn [width height fit ratio].
  now rewrite Iw, Ih.
Qed.

End ResizeParameters.

(** A width of 99.5 and a height of 0.5 pass and become 100 and 1; a width
    of 0.49 does not pass. *)
Lemma validateResizeInputs_threshold_witness :
  validateResizeInputs (mkResize (Some (199 # 2)) (Some (1 # 2)) None None)
  = Ok (mkResize (Some 100%Q) (Some 1%Q) None None)
  /\ validateResizeInputs (mkResize (Some (49 # 100)) None None None)
     = Throw (Domain InvalidResizeException).
Proof.
  split.
  - destruct (validateResizeInputs_threshold
                (mkResize (Some (199 # 2)) (Some (1 # 2)) None None)) as [Hpass _].
    rewrite Hpass; [reflexivity|]. split; simpl; discriminate.
  - destruct (validateResizeInputs_threshold
                (mkResize (Some (49 # 100)) None None None)) as [_ Hfail].
    apply Hfail. intros [H _]. simpl in H. apply H. reflexivity.
Defined.

Lemma validateResizeInputs_result_witness :
  positiveInteger (Some 100%Q)
  /\ validateResizeInputs (mkResize (Some 100%Q) None (Some COVER) None)
     = Ok (mkResize (Some 100%Q) None (Some COVER) None).
Proof.
  destruct (validateResizeInputs_result
              (mkResize (Some (199 # 2)) None (Some COVER) None)
              (mkResize (Some 100%Q) None (Some COVER) None) eq_refl)
    as (Hw & _ & _ & _ & Hagain).
  split; [exact Hw | exact Hagain].
Defined.

(** ** The resize entry of the edits object *)

Section ResizeEntry.

Context {engine : ImageEngine}.

Lemma lookup_set_resize (edits : ImageEdits) (r : ResizeOptions) :
  lookup_resize (set_resize edits r) = Some r.
Proof.
  induction edits as [|e edits IH]; [reflexivity|]. destruct e; simpl; auto.
Qed.

Lemma others_set_resize (edits : ImageEdits) (r : ResizeOptions) :
  filter notResize (set_resize edits r) = filter notResize edits.
Proof.
  induction edits as [|e edits IH]; [reflexivity|].
  destruct e; simpl; try reflexivity; now rewrite IH.
Qed.

Lemma keys_set_resize (edits : ImageEdits) (r : ResizeOptions) :
  map edit_key (set_resize edits r)
  = match lookup_resize edits with
    | Some _ => map edit_key edits
    | None => (map edit_key edits ++ ["resize"])%list
    end.
Proof.
  induction edits as [|e edits IH]; [reflexivity|].
  destruct e; simpl; try reflexivity;
    rewrite IH; destruct (lookup_resize edits); reflexivity.
Qed.

(** X3.  After [applyResize] the edits object always has a [resize] entry.  The
    other entries are those it had, in the same order; the keys are the
    same when [resize] was there, and get [resize] as the last key when it
    was not. *)
Theorem applyResize_defines_resize :
  forall (originalImage : Sharp) (edits edits' : ImageEdits),
    applyResize originalImage edits = Ok edits' ->
    (exists r, lookup_resize edits' = Some r)
    /\ filter notResize edits' = filter notResize edits
    /\ map edit_key edits'
       = match lookup_resize edits with
         | Some _ => map edit_key edits
         | None => (map edit_key edits ++ ["resize"])%list
         end.
Proof.
  intros originalImage edits edits' H. unfold applyResize in H.
  destruct (lookup_resize edits) as [r|] eqn:E.
  - destruct (prepareResize originalImage r) as [resize|t]; [|discriminate H].
    injection H as <-. rewrite lookup_set_resize, others_set_resize, keys_set_resize, E.
    repeat split. now exists resize.
  - injection H as <-. rewrite lookup_set_resize, others_set_resize, keys_set_resize, E.
    repeat split. now exists defaultResize.
Qed.


(** The [resize] object that a ratio produces from the dimensions [w] and
    [h]. *)
Lemma prepareResize_ratio_shape (originalImage : Sharp) (r validated : ResizeOptions) (q : Q) :
  validateResizeInputs r = Ok validated ->
  ratio validated = Some q -> ~ (q == 0)%Q ->
  prepareResize originalImage r
  = ('(w, h) <- (if truthy (width validated) && truthy (height validated)
                 then Ok (number (width validated), number (height validated))
                 else md <- metadata originalImage ;;
                      Ok (inject_Z (md_width md), inject_Z (md_height md))) ;;
     Ok (mkResize (Some (inject_Z (round (multiply w q))))
                  (Some (inject_Z (round (multiply h q))))
                  (match fit validated with Some f => Some f | None => Some INSIDE end)
                  None)).
Proof.
  intros Hv Hq Hnz. unfold prepareResize. rewrite Hv. cbn [bind]. rewrite Hq.
  rewrite (proj2 (truthy_iff q) Hnz). reflexivity.
Qed.


(** X5.  The sizes that a ratio produces are not validated: with a negative
    ratio a valid width and height resolve, without any error, to a width
    and a height that are not positive. *)
Theorem prepareResize_negative_ratio :
  forall (originalImage : Sharp) (w h : Z) (f : option ImageFitTypes) (q : Q),
    0 < w -> 0 < h -> (q < 0)%Q ->
    exists w' h' : Z,
      w' <= 0 /\ h' <= 0
      /\ prepareResize originalImage
           (mkResize (Some (inject_Z w)) (Some (inject_Z h)) f (Some q))
         = Ok (mkResize (Some (inject_Z w')) (Some (inject_Z h'))
                        (match f with Some x => Some x | None => Some INSIDE end) None).
Proof.
  intros originalImage w h f q Hw Hh Hq.
  assert (Hqw : (1 <= inject_Z w)%Q)
    by (change 1%Q with (inject_Z 1); rewrite <- Zle_Qle; lia).
  assert (Hqh : (1 <= inject_Z h)%Q)
    by (change 1%Q with (inject_Z 1); rewrite <- Zle_Qle; lia).
  assert (Hv : validateResizeInputs (mkResize (Some (inject_Z w)) (Some (inject_Z h)) f (Some q))
               = Ok (mkResize (Some (inject_Z w)) (Some (inject_Z h)) f (Some q))).
  { rewrite validateResizeInputs_pass by (simpl; lra).
    simpl. now rewrite !round_integer. }
  assert (Hnz : ~ (q == 0)%Q) by lra.
  exists (round (multiply (inject_Z w) q)), (round (multiply (inject_Z h) q)).
  assert (Hneg : forall z : Z, (1 <= inject_Z z)%Q -> round (multiply (inject_Z z) q) <= 0).
  { intros z Hz. unfold round, multiply.
    pose proof (proj1 (fl_sign (inject_Z z)) ltac:(lra)) as Hz0.
    pose proof (proj2 (fl_sign q) ltac:(lra)) as Hq0.
    assert (Hm : (fl (inject_Z z) * fl q <= 0)%Q).
    { assert ((0 <= fl (inject_Z z) * (- fl q))%Q) by (apply Qmult_le_0_compat; lra). lra. }
    pose proof (proj2 (fl_sign _) Hm) as Hfl.
    assert (Qfloor (fl (fl (inject_Z z) * fl q) + (1 # 2)) < 1); [|lia].
    apply Qfloor_lt. change (inject_Z 1) with 1%Q. lra. }
  split; [now apply Hneg|]. split; [now apply Hneg|].
  rewrite (prepareResize_ratio_shape originalImage _ _ q Hv eq_refl Hnz).
  cbn [width height fit].
  rewrite (proj2 (truthy_iff (inject_Z w))), (proj2 (truthy_iff (inject_Z h))) by lra.
  reflexivity.
Qed.

End ResizeEntry.

(** An edits object without [resize] gets the default one as its last
    key. *)
Lemma applyResize_defines_resize_witness :
  map edit_key [ERotate (RotateDegrees 90); EResize defaultResize] = ["rotate"; "resize"].
Proof.
  destruct (@applyResize_defines_resize Samples.stillEngine Samples.handle
              [ERotate (RotateDegrees 90)]
              [ERotate (RotateDegrees 90); EResize defaultResize] eq_refl)
    as (_ & _ & Hkeys).
  exact Hkeys.
Defined.


(** The product is rounded as a number first: 100 by 0.145 is just below
    14.5 and resolves to 14, and 5 by 0.3 is 1.5 and resolves to 2. *)
Example prepareResize_ratio_rounding :
  @prepareResize Samples.stillEngine Samples.handle
    (mkResize (Some 100%Q) (Some 5%Q) None (Some (145 # 1000)))
  = Ok (mkResize (Some 14%Q) (Some 1%Q) (Some INSIDE) None)
  /\ @prepareResize Samples.stillEngine Samples.handle
       (mkResize (Some 5%Q) (Some 10%Q) None (Some (3 # 10)))
     = Ok (mkResize (Some 2%Q) (Some 3%Q) (Some INSIDE) None).
Proof. split; vm_compute; reflexivity. Qed.

(** 100 by 50 with ratio -1/2 resolves to -50 by -25. *)
Lemma prepareResize_negative_ratio_witness :
  exists w' h' : Z,
    w' <= 0 /\ h' <= 0
    /\ @prepareResize Samples.stillEngine Samples.handle
         (mkResize (Some (inject_Z 100)) (Some (inject_Z 50)) None (Some (- (1 # 2))%Q))
       = Ok (mkResize (Some (inject_Z w')) (Some (inject_Z h')) (Some INSIDE) None).
Proof.
  apply (@prepareResize_negative_ratio Samples.stillEngine Samples.handle 100 50 None
           (- (1 # 2))%Q); [lia | lia | reflexivity].
Defined.

(** ** Face bounding boxes *)

Section FaceBoxes.

Lemma Qltb_iff (x y : Q) : Qltb x y = true <-> (x < y)%Q.
Proof.
  unfold Qltb. rewrite negb_true_iff. split.
  - intros H. apply Qnot_le_lt. intros Hle. apply Qle_bool_iff in Hle. congruence.
  - intros H. destruct (Qle_bool y x) eqn:E; [|reflexivity].
    apply Qle_bool_iff in E. lra.
Qed.

Lemma Qltb_false_iff (x y : Q) : Qltb x y = false <-> (y <= x)%Q.
Proof.
  unfold Qltb. rewrite negb_false_iff. apply Qle_bool_iff.
Qed.

Lemma clampBound_unit (x : Q) : (0 <= clampBound x <= 1)%Q.
Proof.
  unfold clampBound. destruct (Qltb x 0) eqn:E0; [lra|].
  destruct (Qltb 1 x) eqn:E1; [lra|].
  apply Qltb_false_iff in E0, E1. lra.
Qed.

Lemma clampBound_fixed (x : Q) : (0 <= x <= 1)%Q -> clampBound x = x.
Proof.
  intros [H0 H1]. unfold clampBound.
  rewrite (proj2 (Qltb_false_iff x 0) H0), (proj2 (Qltb_false_iff 1 x) H1). reflexivity.
Qed.


Lemma faceAt_out_of_range (faces : list BoundingBox) (faceIndex : Z) :
  ~ faceInRange faces faceIndex -> faceAt faces faceIndex = None.
Proof.
  intros H. unfold faceAt. destruct (Z.ltb_spec faceIndex 0) as [_|H0]; [reflexivity|].
  apply nth_error_None. unfold faceInRange in H. lia.
Qed.

Lemma handleBounds_of_face (faces : list BoundingBox) (faceIndex : Z) (raw : BoundingBox) :
  faceAt faces faceIndex = Some raw ->
  exists b, handleBounds faces faceIndex = Ok b /\ normalisedBox b
            /\ (normalisedBox raw -> b = raw).
Proof.
  intros E. unfold handleBounds. rewrite E. eexists. split; [reflexivity|].
  pose proof (clampBound_unit (bb_left raw)) as Hl.
  pose proof (clampBound_unit (bb_top raw)) as Ht.
  pose proof (clampBound_unit (bb_width raw)) as Hw.
  pose proof (clampBound_unit (bb_height raw)) as Hh.
  split.
  - unfold normalisedBox, unitBox. cbn [bb_left bb_top bb_width bb_height].
    destruct (Qltb 1 (clampBound (bb_left raw) + clampBound (bb_width raw))) eqn:Ew;
      destruct (Qltb 1 (clampBound (bb_top raw) + clampBound (bb_height raw))) eqn:Eh;
      try apply Qltb_false_iff in Ew; try apply Qltb_false_iff in Eh;
      repeat split; lra.
  - intros ((Rl & Rt & Rw & Rh) & Rwidth & Rheight).
    rewrite !clampBound_fixed by assumption.
    rewrite (proj2 (Qltb_false_iff _ _) Rwidth), (proj2 (Qltb_false_iff _ _) Rheight).
    now destruct raw.
Qed.


Context {rekognitionClient : RekognitionClient}.

Lemma handleError_domain {A : Type} (error : Thrown) (d : ImageHandlerError)
  (errorMappings : list ErrorMapping) :
  exists e, handleError (A := A) error (Domain d) errorMappings = Throw (Domain e).
Proof.
  destruct error as [e | e]; simpl; [now exists e|].
  rewrite throwMapped_find. destruct (find _ errorMappings); eexists; reflexivity.
Qed.

(** X7.  With no face detected every face index gives the whole image.  With
    faces detected, an index that designates none of them fails with status
    400 and code [SmartCrop::FaceIndexOutOfRange]. *)
Theorem getBoundingBox_face_index :
  forall (imageBuffer : Buffer) (faces : list BoundingBox) (faceIndex : Z),
    detectFaces imageBuffer = Ok faces ->
    (faces = [] -> getBoundingBox imageBuffer faceIndex = Ok wholeImage)
    /\ (faces <> [] -> ~ faceInRange faces faceIndex ->
        getBoundingBox imageBuffer faceIndex
        = Throw (Domain (mkImageHandlerError BAD_REQUEST "SmartCrop::FaceIndexOutOfRange"
                           FaceIndexOutOfRange))).
Proof.
  intros imageBuffer faces faceIndex Hfaces. unfold getBoundingBox. rewrite Hfaces. split.
  - intros ->. reflexivity.
  - intros Hne Hout. destruct faces as [|face faces]; [contradiction|].
    cbn [bind List.length Nat.leb]. unfold handleBounds.
    rewrite (faceAt_out_of_range _ _ Hout). reflexivity.
Qed.


End FaceBoxes.


Lemma getBoundingBox_face_index_witness :
  @getBoundingBox (detectorOf []) Samples.picture 7 = Ok wholeImage
  /\ @getBoundingBox (detectorOf [wholeImage]) Samples.picture 1
     = Throw (Domain (mkImageHandlerError BAD_REQUEST "SmartCrop::FaceIndexOutOfRange"
                        ImageHandler.FaceIndexOutOfRange)).
Proof.
  split.
  - destruct (@getBoundingBox_face_index (detectorOf []) Samples.picture [] 7 eq_refl)
      as [Hnone _].
    now apply Hnone.
  - destruct (@getBoundingBox_face_index (detectorOf [wholeImage]) Samples.picture
                [wholeImage] 1 eq_refl) as [_ Hout].
    apply Hout; [discriminate | unfold faceInRange; simpl; lia].
Defined.

(** ** Smart crop without a face *)

Section SmartCropWholeImage.

Context {engine : ImageEngine} {rekognitionClient : RekognitionClient}.

Lemma getCropArea_whole (w h : Z) (format : option string) :
  0 <= w -> 0 <= h ->
  getCropArea wholeImage 0 (mkBoxSize w h format) = mkCropArea 0 0 w h.
Proof.
  intros Hw Hh. unfold getCropArea, wholeImage.
  cbn [bb_left bb_top bb_width bb_height bs_width bs_height]. cbv zeta.
  assert (Ew0 : Qfloor (0 * inject_Z w - 0) = 0).
  { transitivity (Qfloor (inject_Z 0)); [apply Qfloor_comp; change (inject_Z 0) with 0%Q; ring | apply Qfloor_Z]. }
  assert (Eh0 : Qfloor (0 * inject_Z h - 0) = 0).
  { transitivity (Qfloor (inject_Z 0)); [apply Qfloor_comp; change (inject_Z 0) with 0%Q; ring | apply Qfloor_Z]. }
  assert (Ew1 : Qfloor (1 * inject_Z w + 0 * 2) = w).
  { transitivity (Qfloor (inject_Z w)); [apply Qfloor_comp; ring | apply Qfloor_Z]. }
  assert (Eh1 : Qfloor (1 * inject_Z h + 0 * 2) = h).
  { transitivity (Qfloor (inject_Z h)); [apply Qfloor_comp; ring | apply Qfloor_Z]. }
  rewrite Ew0, Eh0, Ew1, Eh1. change (0 <? 0) with false. cbv iota.
  rewrite !Z.sub_0_r, !Z.gtb_ltb, !Z.ltb_irrefl. reflexivity.
Qed.

(** X9.  A smart crop without padding on an image in which no face is detected
    extracts the whole image, whatever the face index: the area handed to
    [extract] is [{left: 0, top: 0, width, height}] of the image. *)
Theorem applySmartCrop_no_face_whole_image :
  forall (originalImage prepared : Sharp) (v : Toggle SmartCropOptions)
         (params : SmartCropOptions) (data : Buffer) (info : BoxSize)
         (format : option string),
    enabled v (mkSmartCrop None None) = Some params ->
    padding params = None ->
    getRekognitionCompatibleImage originalImage = Ok (prepared, (data, info), format) ->
    detectFaces data = Ok [] ->
    0 <= bs_width info -> 0 <= bs_height info ->
    applySmartCrop originalImage v
    = try_catch
        (cropped <- call prepared
                      (OpExtract (mkCropArea 0 0 (bs_width info) (bs_height info))) ;;
         if sameFormat format (bs_format info) then Ok cropped
         else call cropped (OpToFormat format))
        (fun error => handleError error (Domain PaddingOutOfBounds) []).
Proof.
  intros originalImage prepared v params data info format Hv Hp Hrek Hfaces Hw Hh.
  unfold applySmartCrop. rewrite Hv, Hrek. cbn [bind].
  unfold getBoundingBox. rewrite Hfaces. cbn [bind try_catch List.length Nat.leb].
  rewrite Hp. destruct info as [w h f]. cbn [bs_width bs_height bs_format] in *.
  change (mkBoundingBox 0 0 1 1) with wholeImage.
  now rewrite (getCropArea_whole w h f Hw Hh).
Qed.

End SmartCropWholeImage.

(** [smartCrop: true] on the 100 by 50 sample image without faces records
    the extraction of the whole image. *)
Lemma applySmartCrop_no_face_whole_image_witness :
  @applySmartCrop Samples.stillEngine (detectorOf []) Samples.handle (Flag true)
  = Ok (mkSharp Samples.picture None [OpExtract (mkCropArea 0 0 100 50)]).
Proof.
  rewrite (@applySmartCrop_no_face_whole_image Samples.stillEngine (detectorOf [])
             Samples.handle Samples.handle (Flag true) (mkSmartCrop None None)
             Samples.picture (mkBoxSize 100 50 Samples.png) Samples.png);
    try reflexivity; simpl; lia.
Defined.

(** ** Overlay offsets stay on the base image *)

Section OverlayBounds.

Lemma percent_of_base (imageSize pct : Z) :
  0 <= imageSize ->
  (pct <= 0 -> (inject_Z imageSize * inject_Z pct / 100 <= 0)%Q)
  /\ (0 <= pct -> (0 <= inject_Z imageSize * inject_Z pct / 100)%Q)
  /\ (pct <= 100 -> (inject_Z imageSize * inject_Z pct / 100 <= inject_Z imageSize)%Q)
  /\ (-100 <= pct -> (- inject_Z imageSize <= inject_Z imageSize * inject_Z pct / 100)%Q).
Proof.
  intros Ha.
  assert (Hq : (0 <= inject_Z imageSize)%Q)
    by (change 0%Q with (inject_Z 0); now rewrite <- Zle_Qle).
  assert (Hdiv : forall x : Q, (x / 100 == x * (1 # 100))%Q) by (intros; field).
  repeat split; intros Hp; rewrite Hdiv.
  - assert (Hz : (inject_Z pct <= 0)%Q)
      by (change 0%Q with (inject_Z 0); now rewrite <- Zle_Qle).
    assert ((inject_Z imageSize * - inject_Z pct >= 0)%Q)
      by (apply Qmult_le_0_compat; lra).
    lra.
  - assert (Hz : (0 <= inject_Z pct)%Q)
      by (change 0%Q with (inject_Z 0); now rewrite <- Zle_Qle).
    assert ((0 <= inject_Z imageSize * inject_Z pct)%Q)
      by (apply Qmult_le_0_compat; lra).
    lra.
  - assert (Hz : (inject_Z pct <= 100)%Q)
      by (change 100%Q with (inject_Z 100); now rewrite <- Zle_Qle).
    assert ((0 <= inject_Z imageSize * (100 - inject_Z pct))%Q)
      by (apply Qmult_le_0_compat; lra).
    lra.
  - assert (Hz : (- (100) <= inject_Z pct)%Q)
      by (change (- (100))%Q with (inject_Z (-100)); now rewrite <- Zle_Qle).
    assert ((0 <= inject_Z imageSize * (inject_Z pct + 100))%Q)
      by (apply Qmult_le_0_compat; lra).
    lra.
Qed.

(** X11.  A percentage offset keeps the overlay on the base: a percentage from 0
    to 100 resolves to a position between 0 and the base dimension, and a
    negative percentage resolves to a position that leaves the far edge of
    the overlay at or before the far edge of the base (and, down to -100, at
    or after its near edge). *)
Theorem calcOverlaySizeOption_percent_bounds :
  forall (pct imageSize overlaySize position : Z),
    0 <= imageSize ->
    calcOverlaySizeOption (Some (SizeString (toString pct ++ "p"))) imageSize overlaySize
    = Some position ->
    (0 <= pct <= 100 -> 0 <= position <= imageSize)
    /\ (pct < 0 -> position + overlaySize <= imageSize)
    /\ (-100 <= pct < 0 -> 0 <= position + overlaySize).
Proof.
  intros pct imageSize overlaySize position Ha H.
  rewrite calcOverlaySizeOption_percent in H. injection H as <-.
  destruct (percent_of_base imageSize pct Ha) as (Hneg & Hpos & Hle & Hge).
  unfold percentOffset. repeat split.
  - destruct H as [H0 H1]. destruct (Z.ltb_spec pct 0) as [?|_]; [lia|].
    apply Qfloor_ge. change (inject_Z 0) with 0%Q. now apply Hpos.
  - destruct H as [H0 H1]. destruct (Z.ltb_spec pct 0) as [?|_]; [lia|].
    apply floor_le_Z. now apply Hle.
  - intros Hp. destruct (Z.ltb_spec pct 0) as [_|?]; [|lia].
    assert (Qfloor (inject_Z imageSize + inject_Z imageSize * inject_Z pct / 100
                    - inject_Z overlaySize) <= imageSize - overlaySize); [|lia].
    apply floor_le_Z. unfold Z.sub. rewrite inject_Z_plus, inject_Z_opp.
    specialize (Hneg ltac:(lia)). lra.
  - intros [Hp0 Hp1]. destruct (Z.ltb_spec pct 0) as [_|?]; [|lia].
    assert (- overlaySize <= Qfloor (inject_Z imageSize
                                     + inject_Z imageSize * inject_Z pct / 100
                                     - inject_Z overlaySize)); [|lia].
    apply Qfloor_ge. rewrite inject_Z_opp. specialize (Hge Hp0). lra.
Qed.

End OverlayBounds.

(** ["-10p"] on a base of 101 with an overlay of 20: position 70, far edge
    at 90. *)
Lemma calcOverlaySizeOption_percent_bounds_witness :
  70 + 20 <= 101 /\ 0 <= 70 + 20.
Proof.
  destruct (calcOverlaySizeOption_percent_bounds (-10) 101 20 70 ltac:(lia) eq_refl)
    as (_ & Hfar & Hnear).
  split; [apply Hfar | apply Hnear]; lia.
Defined.

(** ** Opening the image *)

Section Opening.

Context {engine : ImageEngine} {s3Client : S3Client}
        {rekognitionClient : RekognitionClient} {config : Configuration}.

Lemma instantiateSharpImage_shape (originalImage : Buffer) (edits : option ImageEdits)
  (options : SharpOptions) (image : Sharp) :
  instantiateSharpImage originalImage edits options = Ok image ->
  image = mkSharp originalImage (Some options)
                  (if rotateIsNull edits then [] else [OpWithMetadata]).
Proof.
  unfold instantiateSharpImage. destruct (rotateIsNull edits).
  - intros H. now injection H as <-.
  - destruct (metadata (sharp originalImage (Some options))) as [md|[e|raw]];
      cbn [bind try_catch handleError throwMapped]; intros H;
      [now injection H as <- | discriminate H | discriminate H].
Qed.

(** X12.  [instantiateSharpImage] returns a pipeline over the given bytes
    and options, holding [withMetadata] unless [rotate] is [null], or it
    throws an [ImageHandlerError].  Unless [rotate] is [null] the bytes are
    validated first by reading their metadata: the pipeline is returned
    when that succeeds, and a failure is thrown as it is when it is an
    [ImageHandlerError] and as [InstantiationError] (status 400) in every
    other case.  (The argument check of the constructor, which the same
    handler would catch, is not part of the model.) *)
Theorem instantiateSharpImage_outcome :
  forall (originalImage : Buffer) (edits : option ImageEdits) (options : SharpOptions),
    match instantiateSharpImage originalImage edits options with
    | Ok image =>
        image = mkSharp originalImage (Some options)
                        (if rotateIsNull edits then [] else [OpWithMetadata])
    | Throw t => isDomain t
    end
    /\ (rotateIsNull edits = false ->
        instantiateSharpImage originalImage edits options
        = match metadata (sharp originalImage (Some options)) with
          | Ok _ => Ok (mkSharp originalImage (Some options) [OpWithMetadata])
          | Throw (Domain e) => Throw (Domain e)
          | Throw (Other _) =>
              Throw (Domain (mkImageHandlerError BAD_REQUEST "InstantiationError"
                               (ihe_message InstantiationError)))
          end).
Proof.
  intros originalImage edits options. split.
  - destruct (instantiateSharpImage originalImage edits options) as [image|t] eqn:E.
    + now apply instantiateSharpImage_shape.
    + unfold instantiateSharpImage in E. destruct (rotateIsNull edits); [discriminate E|].
      destruct (metadata (sharp originalImage (Some options))) as [md|[e|raw]];
        cbn [bind try_catch handleError throwMapped] in E;
        [discriminate E | |]; injection E as <-; exact I.
  - intros Hrotate. unfold instantiateSharpImage. rewrite Hrotate.
    destruct (metadata (sharp originalImage (Some options))) as [md|[e|raw]]; reflexivity.
Qed.

(** X13.  The flag that [process] hands to [applyEdits] is the [animated] option
    the image was opened with, and it is set only when animation was asked
    for (by [edits.animated], or by a GIF content type when that key is
    absent) and the opened image reports more than one page. *)
Theorem openForEdits_animated_flag :
  forall (originalImage : Buffer) (edits : ImageEdits) (contentType : option ContentTypes.t)
         (image : Sharp) (isAnimation : bool),
    openForEdits originalImage edits contentType = Ok (image, isAnimation) ->
    source image = originalImage
    /\ option_map animated (options image) = Some isAnimation
    /\ (isAnimation = true ->
        match lookup_animated edits with
        | Some requested => requested
        | None => ContentTypes.is_gif contentType
        end = true
        /\ exists md pages,
             metadata image = Ok md /\ md_pages md = Some pages /\ 1 < pages).
Proof.
  intros originalImage edits contentType image isAnimation. unfold openForEdits.
  set (requested := match lookup_animated edits with
                    | Some a => a
                    | None => ContentTypes.is_gif contentType
                    end).
  destruct (instantiateSharpImage originalImage (Some edits)
              (mkSharpOptions false requested SHARP_SIZE_LIMIT)) as [opened|t] eqn:E;
    cbn [bind]; [|discriminate].
  apply instantiateSharpImage_shape in E.
  destruct requested eqn:R.
  - destruct (metadata opened) as [md|t] eqn:M; cbn [bind]; [|discriminate].
    destruct (singlePage md) eqn:P.
    + destruct (instantiateSharpImage originalImage (Some edits)
                  (mkSharpOptions false false SHARP_SIZE_LIMIT)) as [still|t] eqn:E2;
        cbn [bind]; [|discriminate].
      apply instantiateSharpImage_shape in E2. intros H. injection H as <- <-.
      subst still. repeat split; discriminate.
    + intros H. injection H as <- <-. subst opened. repeat split; try reflexivity.
      unfold singlePage in P. destruct (md_pages md) as [pages|] eqn:Pages; [|discriminate P].
      exists md, pages. repeat split; try assumption.
      apply orb_false_iff in P as [_ P]. apply Z.leb_gt in P. exact P.
  - intros H. injection H as <- <-. subst opened. repeat split; discriminate.
Qed.

(** X14.  [process] succeeds exactly when its body does, and it never throws
    anything but an [ImageHandlerError].  An [ImageHandlerError] of the
    body is passed on as it is.  Any other error is mapped by its message:
    a message that contains "Image to composite must have same dimensions
    or smaller" gives a [BadRequest] (status 400) with that message, its
    first "composite" replaced by "overlay"; otherwise a message that
    contains "Bitstream not supported by this decoder" gives a
    [BadRequest] about the AVIF bit depth; any other message gives
    [ProcessingFailure] (status 500). *)
Theorem process_throws_only_domain_errors :
  forall imageRequestInfo : ImageRequestInfo,
    match processBody imageRequestInfo with
    | Ok data => process imageRequestInfo = Ok data
    | Throw (Domain e) => process imageRequestInfo = Throw (Domain e)
    | Throw (Other raw) =>
        exists e : ImageHandlerError,
          process imageRequestInfo = Throw (Domain e)
          /\ (contains (message raw)
                 "Image to composite must have same dimensions or smaller" ->
              e = mkImageHandlerError BAD_REQUEST "BadRequest"
                    (replace (message raw) "composite" "overlay"))
          /\ (~ contains (message raw)
                   "Image to composite must have same dimensions or smaller" ->
              contains (message raw) "Bitstream not supported by this decoder" ->
              e = mkImageHandlerError BAD_REQUEST "BadRequest"
                    "Invalid base image. AVIF images with a bit-depth other than 8 are not supported for image edits.")
          /\ (~ contains (message raw)
                   "Image to composite must have same dimensions or smaller" ->
              ~ contains (message raw) "Bitstream not supported by this decoder" ->
              e = mkImageHandlerError INTERNAL_SERVER_ERROR "ProcessingFailure"
                    "Image processing failed.")
    end.
Proof.
  intros req. unfold process.
  destruct (processBody req) as [data|[e|raw]]; cbn [try_catch handleError];
    [reflexivity | reflexivity |].
  unfold processErrorMappings. cbn [throwMapped pattern]. unfold contains.
  destruct (includes (message raw)
              "Image to composite must have same dimensions or smaller") eqn:C.
  - apply includes_iff in C. eexists. split; [reflexivity|].
    split; [reflexivity|]. split; intros H; contradiction.
  - assert (NC : ~ exists before after,
                   message raw
                   = before ++ "Image to composite must have same dimensions or smaller"
                     ++ after).
    { intros H. apply includes_iff in H. congruence. }
    destruct (includes (message raw) "Bitstream not supported by this decoder") eqn:B.
    + apply includes_iff in B. eexists. split; [reflexivity|].
      split; [intros H; contradiction|]. split; [reflexivity|].
      intros _ H. contradiction.
    + assert (NB : ~ exists before after,
                     message raw
                     = before ++ "Bitstream not supported by this decoder" ++ after).
      { intros H. apply includes_iff in H. congruence. }
      eexists. split; [reflexivity|].
      split; [intros H; contradiction|]. split; [intros _ H; contradiction|].
      reflexivity.
Qed.

(** X15.  The overlay bucket is checked against the allowed source buckets before
    anything is fetched: for a bucket that is not in the list
    [getOverlayImage] fails with status 403 and code
    [ImageBucket::CannotAccessBucket], whatever the storage and the engine
    would answer. *)
Theorem getOverlayImage_forbidden_bucket :
  forall (allowed : list string) (bucket key wRatio hRatio alpha : string)
         (sourceImageMetadata : Metadata),
    getAllowedSourceBuckets = Ok allowed ->
    ~ In bucket allowed ->
    getOverlayImage bucket key wRatio hRatio alpha sourceImageMetadata
    = Throw (Domain (mkImageHandlerError FORBIDDEN "ImageBucket::CannotAccessBucket"
                       (ihe_message CannotAccessOverlayBucket))).
Proof.
  intros allowed bucket key wRatio hRatio alpha md Hallowed Hnot.
  unfold getOverlayImage. rewrite Hallowed. cbn [bind].
  assert (E : existsb (String.eqb bucket) allowed = false).
  { destruct (existsb (String.eqb bucket) allowed) eqn:E; [|reflexivity].
    apply existsb_exists in E as [x [Hin Heq]]. apply String.eqb_eq in Heq. now subst. }
  rewrite E. reflexivity.
Qed.

(** X16.  For an allowed bucket every failure of [getOverlayImage] is an
    [ImageHandlerError]: an error of the storage, of the stream or of the
    engine that is not one already becomes [OverlayImageException]
    (status 400). *)
Theorem getOverlayImage_failure :
  forall (allowed : list string) (bucket key wRatio hRatio alpha : string)
         (sourceImageMetadata : Metadata) (t : Thrown),
    getAllowedSourceBuckets = Ok allowed ->
    In bucket allowed ->
    getOverlayImage bucket key wRatio hRatio alpha sourceImageMetadata = Throw t ->
    isDomain t
    /\ (forall raw, getObject bucket key = Throw (Other raw) ->
                    t = Domain OverlayImageException).
Proof.
  intros allowed bucket key wRatio hRatio alpha md t Hallowed Hin.
  unfold getOverlayImage. rewrite Hallowed. cbn [bind].
  assert (E : existsb (String.eqb bucket) allowed = true).
  { apply existsb_exists. exists bucket. split; [exact Hin | apply String.eqb_refl]. }
  rewrite E. cbn [negb].
  match goal with
  | |- try_catch ?body _ = _ -> _ => destruct body as [data|[e|raw']] eqn:B
  end; cbn [try_catch handleError throwMapped]; intros H.
  - discriminate H.
  - injection H as <-. split; [exact I|]. intros raw Hraw. rewrite Hraw in B. discriminate B.
  - injection H as <-. split; [exact I | reflexivity].
Qed.

End Opening.

(** An overlay larger than the image: the message of the engine comes back
    as a [BadRequest] that speaks of the overlay. *)
Example process_maps_composite_error :
  @process (failingRender "Image to composite must have same dimensions or smaller")
    Samples.store Samples.detector Samples.settings
    (mkRequest Samples.picture (Some [EFilter "flip" (ArgBool true)]) None None None)
  = Throw (Domain (mkImageHandlerError BAD_REQUEST "BadRequest"
                     "Image to overlay must have same dimensions or smaller")).
Proof. reflexivity. Qed.

(** A GIF of three pages is opened animated; the same bytes with
    [animated: false] are not. *)
Lemma openForEdits_animated_flag_witness :
  option_map animated
    (options (mkSharp Samples.picture (Some (mkSharpOptions false true (LimitFlag true)))
                      [OpWithMetadata])) = Some true
  /\ exists md pages,
       @metadata Samples.movingEngine
         (mkSharp Samples.picture (Some (mkSharpOptions false true (LimitFlag true)))
                  [OpWithMetadata]) = Ok md
       /\ md_pages md = Some pages /\ 1 < pages.
Proof.
  destruct (@openForEdits_animated_flag Samples.movingEngine Samples.settings
              Samples.picture [ERotate (RotateDegrees 90)] (Some ContentTypes.GIF)
              (mkSharp Samples.picture (Some (mkSharpOptions false true (LimitFlag true)))
                       [OpWithMetadata]) true eq_refl) as (_ & Hflag & Hpages).
  split; [exact Hflag | now apply Hpages].
Defined.

Lemma getOverlayImage_forbidden_bucket_witness :
  @getOverlayImage (brokenEngine "unused") Samples.store Samples.settings
    "someone-else" "logo.png" "50" "50" "0" (mkMetadata 100 50 None None None)
  = Throw (Domain (mkImageHandlerError FORBIDDEN "ImageBucket::CannotAccessBucket"
                     (ihe_message ImageHandler.CannotAccessOverlayBucket))).
Proof.
  apply (@getOverlayImage_forbidden_bucket (brokenEngine "unused") Samples.store
           Samples.settings ["allowedBucket001"; "test-bucket"]); [reflexivity|].
  simpl. intros [H | [H | []]]; discriminate H.
Defined.

Lemma getOverlayImage_failure_witness :
  isDomain (Domain ImageHandler.OverlayImageException).
Proof.
  apply (@getOverlayImage_failure (brokenEngine "Input buffer contains unsupported image format")
           Samples.store Samples.settings ["allowedBucket001"; "test-bucket"]
           "test-bucket" "logo.png" "50" "50" "0" (mkMetadata 100 50 None None None)
           (Domain ImageHandler.OverlayImageException) eq_refl).
  - simpl; tauto.
  - reflexivity.
Defined.

(** ** Round crop, moderation and the detector format *)

Section DetectorEdits.

Context {engine : ImageEngine} {rekognitionClient : RekognitionClient}.

(** X17.  A round crop that is not switched off ends the current pipeline: the
    image it returns is a new [sharp] object over the rendered and masked
    bytes, without the constructor options of the original (failOnError,
    animated, limitInputPixels) and holding only [withMetadata] and
    [trim].  [roundCrop: false] returns the image as it is. *)
Theorem applyRoundCrop_reopens :
  forall (originalImage result : Sharp) (v : Toggle RoundCropOptions),
    applyRoundCrop originalImage v = Ok result ->
    (v = Flag false /\ result = originalImage)
    \/ (v <> Flag false
        /\ options result = None
        /\ ops result = [OpWithMetadata; OpTrim]
        /\ exists (layer : OverlayOptions) (masked : Sharp) (info : BoxSize),
             call originalImage (OpComposite [layer]) = Ok masked
             /\ ov_blend layer = Some "dest-in"
             /\ toBuffer masked = Ok (source result, info)).
Proof.
  intros originalImage result v. unfold applyRoundCrop.
  destruct (enabled v (mkRoundCrop None None None None)) as [params|] eqn:E.
  - assert (Hv : v <> Flag false) by (intros ->; discriminate E).
    destruct (toBuffer originalImage) as [[rendered info]|t]; cbn [bind]; [|discriminate].
    match goal with
    | |- bind (call originalImage (OpComposite [?l])) _ = _ -> _ =>
        set (layer := l); destruct (call originalImage (OpComposite [layer]))
          as [masked|t] eqn:C
    end; cbn [bind]; [|discriminate].
    destruct (toBuffer masked) as [[data info']|t] eqn:B; cbn [bind]; [|discriminate].
    intros H. injection H as <-. right. repeat split; try assumption.
    exists layer, masked, info'. repeat split; assumption.
  - intros H. injection H as <-. left. split; [|reflexivity].
    destruct v as [[|]|a]; try discriminate E. reflexivity.
Qed.

Lemma sigma_in_range (sigma : Z) :
  Qle_bool (3 # 10) (inject_Z sigma) && (sigma <=? 1000) = true <-> 1 <= sigma <= 1000.
Proof.
  rewrite andb_true_iff, Qle_bool_iff, Z.leb_le. split.
  - intros [H0 H1]. split; [|exact H1].
    destruct (Z_lt_le_dec sigma 1) as [Hlt|Hge]; [|exact Hge].
    assert (Hq : (inject_Z sigma <= inject_Z 0)%Q) by (rewrite <- Zle_Qle; lia).
    change (inject_Z 0) with 0%Q in Hq. lra.
  - intros [H0 H1]. split; [|exact H1].
    assert (Hq : (inject_Z 1 <= inject_Z sigma)%Q) by (rewrite <- Zle_Qle; lia).
    change (inject_Z 1) with 1%Q in Hq. lra.
Qed.

Lemma label_found_iff (labels found : list string) :
  existsb (fun label => existsb (String.eqb label) labels) found = true
  <-> exists label, In label found /\ In label labels.
Proof.
  rewrite existsb_exists. split.
  - intros [label [Hin H]]. apply existsb_exists in H as [x [Hx Heq]].
    apply String.eqb_eq in Heq. subst x. now exists label.
  - intros [label [Hin Hl]]. exists label. split; [exact Hin|].
    apply existsb_exists. exists label. split; [exact Hl | apply String.eqb_refl].
Qed.

(** X18.  [blurImage] blurs once, with the ceiling of the requested blur (50 by
    default), exactly when that ceiling is between 1 and 1000 and the labels
    found call for it: some found label is in the requested list, or no
    list was requested and a label was found.  In every other case (no
    label found, a requested list that is empty or holds none of the labels
    found, a blur that is 0 or negative or above 1000) the image is left as
    it is. *)
Theorem blurImage_when :
  forall (originalImage : Sharp) (blur : option Q) (moderationLabels : option (list string))
         (found : list string),
    (1 <= blurSigma blur <= 1000 /\ labelHit moderationLabels found ->
     blurImage originalImage blur moderationLabels found
     = call originalImage (OpBlur (blurSigma blur)))
    /\ (~ (1 <= blurSigma blur <= 1000 /\ labelHit moderationLabels found) ->
        blurImage originalImage blur moderationLabels found = Ok originalImage).
Proof.
  intros originalImage blur moderationLabels found. unfold blurImage.
  fold (blurSigma blur).
  destruct (Qle_bool (3 # 10) (inject_Z (blurSigma blur)) && (blurSigma blur <=? 1000))
    eqn:R.
  - apply sigma_in_range in R. destruct moderationLabels as [labels|]; cbn [labelHit].
    + destruct (existsb (fun label => existsb (String.eqb label) labels) found) eqn:L.
      * apply label_found_iff in L. split; [reflexivity | tauto].
      * split; [|reflexivity]. intros [_ H]. apply label_found_iff in H. congruence.
    + destruct found as [|label found]; split; try reflexivity; try tauto.
      intros H. exfalso. apply H. split; [exact R | discriminate].
  - split; [|reflexivity]. intros [H _]. apply sigma_in_range in H. congruence.
Qed.

(** X19.  [getRekognitionCompatibleImage] reports the format of the rendered
    image and returns the bytes of the image it hands back.  That image is
    the one it was given when the format is [jpeg] or [png]; for any other
    format (or none) it is the given image with [png()] recorded on it. *)
Theorem getRekognitionCompatibleImage_transcodes :
  forall (image prepared : Sharp) (data : Buffer) (info : BoxSize) (format : option string),
    getRekognitionCompatibleImage image = Ok (prepared, (data, info), format) ->
    toBuffer prepared = Ok (data, info)
    /\ (exists rendered info0 md,
           toBuffer image = Ok (rendered, info0)
           /\ metadata (sharp rendered None) = Ok md /\ format = md_format md)
    /\ ((rekognitionFormat format /\ prepared = image)
        \/ (~ rekognitionFormat format /\ prepared = record image OpPng)).
Proof.
  intros image prepared data info format. unfold getRekognitionCompatibleImage.
  destruct (toBuffer image) as [[rendered info0]|t] eqn:B; cbn [bind]; [|discriminate].
  destruct (metadata (sharp rendered None)) as [md|t] eqn:M; cbn [bind]; [|discriminate].
  set (compatible := match md_format md with
                     | Some f => existsb (String.eqb f) ["jpeg"; "png"]
                     | None => false
                     end).
  assert (Hc : compatible = true <-> rekognitionFormat (md_format md)).
  { unfold compatible, rekognitionFormat. destruct (md_format md) as [f|].
    - cbn [existsb]. rewrite !orb_true_iff, !String.eqb_eq. split.
      + intros [-> | [-> | H]]; [now left | now right | discriminate H].
      + intros [H | H]; injection H as ->; tauto.
    - split; [discriminate | intros [H | H]; discriminate H]. }
  destruct compatible eqn:C.
  - destruct (toBuffer image) as [[d i]|t'] eqn:B'; cbn [bind]; [|discriminate].
    intros H. injection H as <- <- <- <-. split; [exact B'|]. split.
    + injection B as <- <-. now exists d, i, md.
    + left. split; [now apply Hc | reflexivity].
  - destruct (toBuffer (record image OpPng)) as [[d i]|t'] eqn:B'; cbn [bind]; [|discriminate].
    intros H. injection H as <- <- <- <-. split; [exact B'|]. split.
    + now exists rendered, info0, md.
    + right. split; [|reflexivity]. intros H. apply Hc in H. discriminate H.
Qed.

(** X20.  When the detector finds no moderation label the image is never
    blurred, whatever [blur] and [moderationLabels] ask for: content
    moderation returns the image that was sent to the detector, with its
    format set back when the detector format differs from it.  The
    detector is asked with the requested [minConfidence], 75 by default. *)
Theorem applyContentModeration_no_label :
  forall (originalImage prepared : Sharp) (v : Toggle ContentModerationOptions)
         (params : ContentModerationOptions) (data : Buffer) (info : BoxSize)
         (format : option string),
    enabled v (mkModeration None None None) = Some params ->
    getRekognitionCompatibleImage originalImage = Ok (prepared, (data, info), format) ->
    detectModerationLabels data
      (match minConfidence params with Some c => c | None => 75%Q end) = Ok [] ->
    applyContentModeration originalImage v
    = if sameFormat format (bs_format info) then Ok prepared
      else call prepared (OpToFormat format).
Proof.
  intros originalImage prepared v params data info format Hv Hrek Hnone.
  unfold applyContentModeration. rewrite Hv, Hrek. cbn [bind].
  unfold detectInappropriateContent. rewrite Hnone. cbn [try_catch bind].
  unfold blurImage.
  destruct (Qle_bool _ _ && _); [destruct (moderationLabels params)|]; reflexivity.
Qed.

End DetectorEdits.

(** A round crop of the sample image on the sample engine. *)
Lemma applyRoundCrop_reopens_witness :
  options (mkSharp Samples.picture None [OpWithMetadata; OpTrim]) = None.
Proof.
  destruct (@applyRoundCrop_reopens Samples.stillEngine
              (mkSharp Samples.picture (Some (mkSharpOptions false false (LimitFlag true)))
                       [OpWithMetadata])
              (mkSharp Samples.picture None [OpWithMetadata; OpTrim]) (Flag true) eq_refl)
    as [[H _] | (_ & H & _)]; [discriminate H | exact H].
Defined.

(** A blur of 0.2 is rounded up to 1 and applied; a blur of 0 is not
    applied; an empty list of labels never matches. *)
Lemma blurImage_when_witness :
  @blurImage Samples.stillEngine Samples.handle (Some (2 # 10)) None ["Violence"]
  = Ok (mkSharp Samples.picture None [OpBlur 1])
  /\ @blurImage Samples.stillEngine Samples.handle (Some 0%Q) None ["Violence"]
     = Ok Samples.handle
  /\ @blurImage Samples.stillEngine Samples.handle None (Some []) ["Violence"]
     = Ok Samples.handle.
Proof.
  split; [|split].
  - destruct (@blurImage_when Samples.stillEngine Samples.handle (Some (2 # 10)) None
                ["Violence"]) as [Hblur _].
    rewrite Hblur; [reflexivity|]. split; [vm_compute; split; discriminate | discriminate].
  - destruct (@blurImage_when Samples.stillEngine Samples.handle (Some 0%Q) None
                ["Violence"]) as [_ Hkeep].
    apply Hkeep. intros [[H _] _]. vm_compute in H. apply H. reflexivity.
  - destruct (@blurImage_when Samples.stillEngine Samples.handle None (Some [])
                ["Violence"]) as [_ Hkeep].
    apply Hkeep. intros [_ [label [_ []]]].
Defined.

(** A WebP source is sent to the detector as PNG. *)
Lemma getRekognitionCompatibleImage_transcodes_witness :
  ~ rekognitionFormat (Some "webp")
  /\ mkSharp Samples.picture None [OpPng] = record Samples.handle OpPng.
Proof.
  destruct (@getRekognitionCompatibleImage_transcodes (engineOf 100 50 (Some "webp") None)
              Samples.handle (mkSharp Samples.picture None [OpPng]) Samples.picture
              (mkBoxSize 100 50 (Some "webp")) (Some "webp") eq_refl)
    as (_ & _ & [[Hformat _] | [Hformat Hprepared]]).
  - destruct Hformat as [H | H]; discriminate H.
  - split; assumption.
Defined.

(** Moderation of a WebP image in which nothing is found: PNG for the
    detector, nothing else recorded as the engine reports the rendered
    format as the original one. *)
Lemma applyContentModeration_no_label_witness :
  @applyContentModeration (engineOf 100 50 (Some "webp") None) (moderatorOf [])
    Samples.handle (Flag true)
  = Ok (mkSharp Samples.picture None [OpPng]).
Proof.
  rewrite (@applyContentModeration_no_label (engineOf 100 50 (Some "webp") None)
             (moderatorOf []) Samples.handle (mkSharp Samples.picture None [OpPng])
             (Flag true) (mkModeration None None None) Samples.picture
             (mkBoxSize 100 50 (Some "webp")) (Some "webp") eq_refl eq_refl eq_refl).
  reflexivity.
Defined.

(** ** The recorded calls of a run *)

Section RecordedCalls.

Context {engine : ImageEngine} {s3Client : S3Client}
        {rekognitionClient : RekognitionClient} {config : Configuration}.

Lemma record_calls (image : Sharp) (calls more : list Op) :
  mkSharp (source image) (options image) ((ops image ++ calls) ++ more)
  = mkSharp (source image) (options image) (ops image ++ calls ++ more).
Proof. now rewrite app_assoc. Qed.





Lemma lookup_resize_filter (keep : Edit -> bool) (edits : ImageEdits) :
  (forall r, keep (EResize r) = true) ->
  lookup_resize (filter keep edits) = lookup_resize edits.
Proof.
  intros Hk. induction edits as [|e edits IH]; [reflexivity|]. cbn [filter].
  destruct e; try (destruct (keep _); cbn [lookup_resize]; exact IH).
  rewrite Hk. reflexivity.
Qed.

Lemma set_resize_filter (keep : Edit -> bool) (edits : ImageEdits) (r : ResizeOptions) :
  (forall r', keep (EResize r') = true) ->
  set_resize (filter keep edits) r = filter keep (set_resize edits r).
Proof.
  intros Hk. induction edits as [|e edits IH].
  - simpl. now rewrite Hk.
  - destruct e; cbn [filter set_resize];
      try (destruct (keep _); cbn [set_resize]; now rewrite IH).
    rewrite !Hk. reflexivity.
Qed.

Lemma editLoop_filter (keep : Edit -> bool) (isAnimation : bool)
  (edits edits' : ImageEdits) (remaining : list Edit) :
  lookup_resize edits = lookup_resize edits' ->
  (forall (image : Sharp) (e : Edit),
      keep e = false -> applyEdit edits isAnimation image e = Ok image) ->
  forall image : Sharp,
    editLoop edits isAnimation image remaining
    = editLoop edits' isAnimation image (filter keep remaining).
Proof.
  intros Hsame Hnoop. induction remaining as [|e remaining IH]; intros image; [reflexivity|].
  cbn [filter editLoop]. destruct (keep e) eqn:K.
  - cbn [editLoop]. rewrite (applyEdit_reads_resize edits edits' isAnimation image e Hsame).
    destruct (applyEdit edits' isAnimation image e); cbn [bind]; [apply IH | reflexivity].
  - rewrite (Hnoop image e K). cbn [bind]. apply IH.
Qed.

Lemma applyEdit_noOp (edits : ImageEdits) (isAnimation : bool) (image : Sharp) (e : Edit) :
  isNoOp config e = true -> applyEdit edits isAnimation image e = Ok image.
Proof.
  intros H. unfold applyEdit. destruct (skipEdit (edit_key e) isAnimation); [reflexivity|].
  destruct e as [r|c|o|[[|]|p]|[[|]|p]|[[|]|p]|[| |n]|b|name arg];
    cbn [isNoOp] in H; try discriminate H; try reflexivity.
  cbn [dispatchEdit]. apply negb_true_iff in H. now rewrite H.
Qed.

(** X22.  Entries whose step does nothing can be dropped from the mapping without
    changing the run, in either mode: the [animated] key, [rotate: null],
    every key that is neither handled by name nor allow-listed, and a smart
    crop, round crop or content moderation set to [false].  Such entries
    raise no error and do not disturb the edits around them. *)
Theorem applyEdits_ignores_no_ops :
  forall (originalImage : Sharp) (edits : ImageEdits) (isAnimation : bool),
    applyEdits originalImage edits isAnimation
    = applyEdits originalImage (filter (fun e => negb (isNoOp config e)) edits) isAnimation.
Proof.
  intros originalImage edits isAnimation.
  set (keep := fun e => negb (isNoOp config e)).
  assert (Hk : forall r, keep (EResize r) = true) by reflexivity.
  assert (Hnoop : forall E (image : Sharp) (e : Edit),
             keep e = false -> applyEdit E isAnimation image e = Ok image).
  { intros E image e K. apply applyEdit_noOp. unfold keep in K.
    now apply negb_false_iff in K. }
  unfold applyEdits, applyResize. rewrite (lookup_resize_filter keep edits Hk).
  destruct (lookup_resize edits) as [r|].
  - destruct (prepareResize originalImage r) as [resize|t]; cbn [bind]; [|reflexivity].
    rewrite (set_resize_filter keep edits resize Hk).
    apply editLoop_filter; [|apply Hnoop].
    now rewrite (lookup_resize_filter keep _ Hk).
  - cbn [bind]. rewrite (set_resize_filter keep edits defaultResize Hk).
    apply editLoop_filter; [|apply Hnoop].
    now rewrite (lookup_resize_filter keep _ Hk).
Qed.

End RecordedCalls.


(** ** The area of a smart crop *)

Section SmartCropArea.

Context {rekognitionClient : RekognitionClient}.

Lemma getBoundingBox_normalised (imageBuffer : Buffer) (faceIndex : Z) (b : BoundingBox) :
  getBoundingBox imageBuffer faceIndex = Ok b -> normalisedBox b.
Proof.
  unfold getBoundingBox.
  destruct (detectFaces imageBuffer) as [faces|t]; cbn [bind try_catch].
  - destruct faces as [|face faces]; cbn [List.length Nat.leb].
    + intros H. injection H as <-.
      unfold normalisedBox, unitBox; simpl. repeat split; lra.
    + destruct (faceAt (face :: faces) faceIndex) as [raw|] eqn:Ef.
      * destruct (handleBounds_of_face _ _ _ Ef) as (b' & -> & Hn & _).
        intros H. now injection H as <-.
      * unfold handleBounds. rewrite Ef. cbn [try_catch].
        destruct (handleError_domain (A := BoundingBox) (Other
                   (mkJsError "Cannot read properties of undefined (reading 'BoundingBox')"))
                   SmartCropError faceIndexMappings) as [e ->]. discriminate.
  - destruct (handleError_domain (A := BoundingBox) t SmartCropError faceIndexMappings)
      as [e ->]. discriminate.
Qed.

(** X10.  Whatever the detector answers and whichever face is chosen, the area
    that the smart crop computes from the box of [getBoundingBox] with a
    padding that is not negative lies inside the image: [left] and [top]
    are at least 0, [width] and [height] are not negative, and the area
    ends at or before the right and bottom edges. *)
Theorem smartCrop_area_inside_image :
  forall (imageBuffer : Buffer) (faceIndex : Z) (b : BoundingBox) (padding : Q)
         (size : BoxSize),
    getBoundingBox imageBuffer faceIndex = Ok b ->
    (0 <= padding)%Q -> 0 <= bs_width size -> 0 <= bs_height size ->
    insideEdges (getCropArea b padding size) size
    /\ nonNegativeExtent (getCropArea b padding size).
Proof.
  intros imageBuffer faceIndex b padding size Hb Hp Hw Hh.
  apply getBoundingBox_normalised in Hb as [Hunit _]. split.
  - apply getCropArea_insideEdges.
  - now apply getCropArea_nonNegativeExtent.
Qed.

End SmartCropArea.

(** A face box that sticks out of the image, padded by 5, on a 100 by 50
    image. *)
Lemma smartCrop_area_inside_image_witness :
  insideEdges
    (getCropArea (mkBoundingBox (3 # 4) 0 (1 - (3 # 4)) 1) 5 (mkBoxSize 100 50 None))
    (mkBoxSize 100 50 None)
  /\ nonNegativeExtent
       (getCropArea (mkBoundingBox (3 # 4) 0 (1 - (3 # 4)) 1) 5 (mkBoxSize 100 50 None)).
Proof.
  apply (@smartCrop_area_inside_image
           (detectorOf [mkBoundingBox (3 # 4) (- (1 # 4)) (1 # 2) (3 # 2)])
           Samples.picture 0 _ 5 (mkBoxSize 100 50 None) eq_refl);
    [discriminate | simpl; lia | simpl; lia].
Defined.

(** ** An overlay from a bucket that is not allowed *)

Section OverlayAccess.

Context {engine : ImageEngine} {s3Client : S3Client}
        {rekognitionClient : RekognitionClient} {config : Configuration}.




End OverlayAccess.

